(** * PISM column interpolation: a shallow embedding

    This development embeds two pieces of PISM:

    - [Interpolation] (src/util/interpolation.cc): the index/weight tables of
      the linear, nearest-neighbour, piecewise-constant and periodic-linear
      1-D interpolation;
    - [IceModelVec3] (the source file of the class): column-wise vertical
      interpolation of a 3-D scalar field and its vertical extension.

    Conventions of the embedding.

    - A [double] / [PetscScalar] is read in two ways.  In the exact model
      (every definition outside the module [Binary64]) it is a rational of
      [Q], with exact comparisons and operations.  That model decides which
      branch a routine takes, which accesses it makes and which expression
      it evaluates; a statement over it gives a result as that expression,
      term for term as the source writes it, or as a value the expression
      also has in binary64 (a stored value read back, a blend with weight 0).
      In the module [Binary64] the same routines run on binary64 numbers
      ([float], operations rounded to nearest): it gives the values the
      compiled code returns on given inputs, and shows where an identity of
      exact arithmetic is lost to rounding.  NaN and the infinities are not
      coordinates or samples of the grids considered.
    - [unsigned int], [int], [size_t] and [PetscInt] indices are naturals;
      array sizes are taken small enough for index arithmetic not to wrap.
    - A C array or [std::vector] is a [list]; every element access is
      checked, and an access outside the array is the fault [OutOfBounds]
      (undefined behaviour in the source).
    - A thrown [RuntimeError], a PETSc error raised with SETERRQ and a failed
      [assert] are faults as well, so every routine returns an [outcome].
    - Every quotient the statements below rely on has a non-zero divisor
      (a difference of two levels of a strictly increasing grid, or the
      positive rest of a period); Rocq's [x / 0 = 0] is never used. *)

From Stdlib Require Import QArith Qminmax Lqa Lia List Bool Arith ZArith Floats.
Import ListNotations.

Local Open Scope Q_scope.
Set Warnings "-inexact-float".

(** ** Outcomes *)

Inductive fault : Type :=
| RuntimeError                 (* throw RuntimeError(...) *)
| PetscError (code : nat)      (* SETERRQ(code, ...) *)
| AssertionFailure             (* a failed assert(...) *)
| OutOfBounds                  (* an array access outside the array *)
| OutOfFuel.                   (* the bound of a modelled loop was too small *)

Inductive outcome (A : Type) : Type :=
| Ok (a : A)
| Raise (f : fault).

Arguments Ok {A} a.
Arguments Raise {A} f.

Definition bind {A B : Type} (m : outcome A) (k : A -> outcome B) : outcome B :=
  match m with
  | Ok a => k a
  | Raise f => Raise f
  end.

Notation "x <- m ;; k" := (bind m (fun x => k))
  (at level 61, m at next level, right associativity).
Notation "m ;;; k" := (bind m (fun _ => k))
  (at level 61, right associativity).

(** [assert(b)] *)
Definition assert (b : bool) : outcome unit :=
  if b then Ok tt else Raise AssertionFailure.

(** ** Comparisons of doubles *)

Definition Qltb (x y : Q) : bool := negb (Qle_bool y x).
Definition Qleb (x y : Q) : bool := Qle_bool x y.

(** ** Arrays with checked accesses *)

(** [a[i]] as an rvalue *)
Definition read {A : Type} (a : list A) (i : nat) : outcome A :=
  match nth_error a i with
  | Some v => Ok v
  | None => Raise OutOfBounds
  end.

Fixpoint update {A : Type} (a : list A) (i : nat) (v : A) : list A :=
  match a, i with
  | [], _ => []
  | _ :: t, O => v :: t
  | h :: t, S j => h :: update t j v
  end.

(** [a[i] = v] *)
Definition write {A : Type} (a : list A) (i : nat) (v : A) : outcome (list A) :=
  if (i <? length a)%nat then Ok (update a i v) else Raise OutOfBounds.

(** ** Counted loops *)

(** [for (i = lo; i < lo + count; ++i) body], threading the state [s]. *)
Fixpoint for_loop {S : Type} (body : nat -> S -> outcome S)
         (lo count : nat) (s : S) : outcome S :=
  match count with
  | O => Ok s
  | Datatypes.S c => s' <- body lo s ;; for_loop body (Datatypes.S lo) c s'
  end.

(** The same loop for a routine that mutates storage in place: when an
    iteration raises, the storage is left as the earlier iterations made it. *)
Fixpoint for_loop_st {S : Type} (body : nat -> S -> outcome S)
         (lo count : nat) (s : S) : outcome unit * S :=
  match count with
  | O => (Ok tt, s)
  | Datatypes.S c =>
      match body lo s with
      | Ok s' => for_loop_st body (Datatypes.S lo) c s'
      | Raise f => (Raise f, s)
      end
  end.

(** ** Strictly increasing grids *)

Definition strictly_increasing (xs : list Q) : Prop :=
  forall i, (Datatypes.S i < length xs)%nat ->
            nth i xs 0 < nth (Datatypes.S i) xs 0.

(** ** GSL's bracket search *)

(** The bisection loop of [gsl_interp_bsearch]:
    [while (ihi > ilo + 1) { i = (ihi + ilo)/2;
                             if (x_array[i] > x) ihi = i; else ilo = i; }] *)
Fixpoint bsearch_loop (fuel : nat) (x_array : list Q) (x : Q)
         (ilo ihi : nat) : outcome nat :=
  if (ilo + 1 <? ihi)%nat then
    match fuel with
    | O => Raise OutOfFuel
    | Datatypes.S f =>
        let i := ((ihi + ilo) / 2)%nat in
        xi <- read x_array i ;;
        if Qltb x xi then bsearch_loop f x_array x ilo i
        else bsearch_loop f x_array x i ihi
    end
  else Ok ilo.

(** Modelled from the spec: [gsl_interp_bsearch] belongs to the GNU Scientific
    Library and is not under src/.  The spec describes it as the binary search
    that "returns the bracket immediately at-or-below x", kept inside the
    index range it is given; the model is GSL's bisection between [index_lo]
    and [index_hi], which halves the range at every step, so [index_hi -
    index_lo] iterations are enough. *)
Definition gsl_interp_bsearch (x_array : list Q) (x : Q)
           (index_lo index_hi : nat) : outcome nat :=
  bsearch_loop (index_hi - index_lo) x_array x index_lo index_hi.

(** ** The coordinate interpolator (interpolation.cc) *)

(** The three tables of an [Interpolation] object. *)
Record Interpolation : Type := mkInterpolation {
  m_left : list nat;
  m_right : list nat;
  m_alpha : list Q
}.

(** [m_left.resize(n); m_right.resize(n); m_alpha.resize(n);] on the empty
    vectors of an object under construction. *)
Definition resize (output_x_size : nat) : Interpolation :=
  {| m_left := repeat 0%nat output_x_size;
     m_right := repeat 0%nat output_x_size;
     m_alpha := repeat 0 output_x_size |}.

(** "the trivial case": [m_left[0] = 0; m_right[0] = 0; m_alpha[0] = 0.0;] *)
Definition trivial_case (I : Interpolation) : outcome Interpolation :=
  l <- write (m_left I) 0 0%nat ;;
  r <- write (m_right I) 0 0%nat ;;
  a <- write (m_alpha I) 0 0 ;;
  Ok {| m_left := l; m_right := r; m_alpha := a |}.

(** "input grid points have to be stored in the increasing order": the loop
    that throws when [input_x[i] >= input_x[i + 1]]. *)
Definition check_increasing (input_x : list Q) : outcome unit :=
  for_loop (fun i _ =>
              a <- read input_x i ;;
              b <- read input_x (i + 1) ;;
              if Qleb b a then Raise RuntimeError else Ok tt)
           0 (length input_x - 1) tt.

(** The three assertions that close an iteration. *)
Definition assert_entry (input_x_size L R : nat) (alpha : Q) : outcome unit :=
  assert (L <? input_x_size)%nat ;;;
  assert (R <? input_x_size)%nat ;;;
  assert (Qleb 0 alpha && Qleb alpha 1).

(** One iteration of the loop of [Interpolation::init_linear]. *)
Definition init_linear_body (input_x output_x : list Q) (i : nat)
           (I : Interpolation) : outcome Interpolation :=
  x <- read output_x i ;;
  L <- gsl_interp_bsearch input_x x 0 (length input_x - 1) ;;
  xL <- read input_x L ;;
  let R := if Qltb xL x then (L + 1)%nat else L in
  l <- write (m_left I) i L ;;
  r <- write (m_right I) i R ;;
  alpha <- (if negb (L =? R)%nat then
              xR <- read input_x R ;;
              if Qleb x xR then Ok ((x - xL) / (xR - xL)) else Ok 1
            else Ok 0) ;;
  a <- write (m_alpha I) i alpha ;;
  assert_entry (length input_x) L R alpha ;;;
  Ok {| m_left := l; m_right := r; m_alpha := a |}.

Definition init_linear (input_x output_x : list Q) : outcome Interpolation :=
  let I := resize (length output_x) in
  if (length input_x <? 2)%nat then trivial_case I
  else
    check_increasing input_x ;;;
    for_loop (init_linear_body input_x output_x) 0 (length output_x) I.

(** [Interpolation::interpolate] *)
Definition interpolate (I : Interpolation) (input_values : list Q)
  : outcome (list Q) :=
  for_loop (fun k result =>
              L <- read (m_left I) k ;;
              R <- read (m_right I) k ;;
              Alpha <- read (m_alpha I) k ;;
              vL <- read input_values L ;;
              vR <- read input_values R ;;
              write result k (vL + Alpha * (vR - vL)))
           0 (length (m_alpha I)) (repeat 0 (length (m_alpha I))).

Module LinearInterpolation.
(** The constructor. *)
Definition make (input_x output_x : list Q) : outcome Interpolation :=
  init_linear input_x output_x.
End LinearInterpolation.

Module NearestNeighbor.
Definition init (input_x output_x : list Q) : outcome Interpolation :=
  I <- init_linear input_x output_x ;;
  a <- for_loop (fun j alpha =>
                   aj <- read alpha j ;;
                   write alpha j (if Qltb (1 # 2) aj then 1 else 0))
                0 (length (m_alpha I)) (m_alpha I) ;;
  Ok {| m_left := m_left I; m_right := m_right I; m_alpha := a |}.
End NearestNeighbor.

Module PiecewiseConstant.
(** One iteration of the loop of [PiecewiseConstant::init].  The GSL
    accelerator the routine allocates is never passed to the search; its
    allocation is taken to succeed, and nothing in the [try] block throws. *)
Definition init_body (input_x output_x : list Q) (i : nat)
           (I : Interpolation) : outcome Interpolation :=
  x <- read output_x i ;;
  L <- gsl_interp_bsearch input_x x 0 (length input_x - 1) ;;
  l <- write (m_left I) i L ;;
  r <- write (m_right I) i L ;;
  a <- write (m_alpha I) i 0 ;;
  assert_entry (length input_x) L L 0 ;;;
  Ok {| m_left := l; m_right := r; m_alpha := a |}.

Definition init (input_x output_x : list Q) : outcome Interpolation :=
  let I := resize (length output_x) in
  if (length input_x <? 2)%nat then trivial_case I
  else
    check_increasing input_x ;;;
    for_loop (init_body input_x output_x) 0 (length output_x) I.
End PiecewiseConstant.

Module LinearPeriodic.
(** The bracket and the weight of one output point, before the assertions. *)
Definition entry (input_x : list Q) (period x : Q) : outcome (nat * nat * Q) :=
  let input_x_size := length input_x in
  x0 <- read input_x 0 ;;
  LR <- (if Qltb x x0 then Ok ((input_x_size - 1)%nat, 0%nat)
         else
           L <- gsl_interp_bsearch input_x x 0 input_x_size ;;
           Ok (L, if (L + 1 <? input_x_size)%nat then (L + 1)%nat
                  else 0%nat)) ;;
  let '(L, R) := LR in
  x_l <- read input_x L ;;
  x_r <- read input_x R ;;
  let alpha :=
    if (L <? R)%nat then (x - x_l) / (x_r - x_l)
    else
      let dx := (period - x_l) + x0 in
      if Qltb x0 x then (x - x_l) / dx else 1 - (x_r - x) / dx in
  Ok (L, R, alpha).

Definition init_body (input_x output_x : list Q) (period : Q) (i : nat)
           (I : Interpolation) : outcome Interpolation :=
  x <- read output_x i ;;
  e <- entry input_x period x ;;
  let '(L, R, alpha) := e in
  assert_entry (length input_x) L R alpha ;;;
  l <- write (m_left I) i L ;;
  r <- write (m_right I) i R ;;
  a <- write (m_alpha I) i alpha ;;
  Ok {| m_left := l; m_right := r; m_alpha := a |}.

Definition init (input_x output_x : list Q) (period : Q)
  : outcome Interpolation :=
  let I := resize (length output_x) in
  if (length input_x <? 2)%nat then trivial_case I
  else
    check_increasing input_x ;;;
    for_loop (init_body input_x output_x period) 0 (length output_x) I.
End LinearPeriodic.

(** ** The column field store (class IceModelVec3) *)

(** The part of [IceGrid] the column routines read: the height [Lz] of the
    computational box, the number [Mz] of vertical levels and their
    coordinates [zlevels], and the horizontal range [xs .. xs+xm-1] by
    [ys .. ys+ym-1] of the cells the process owns. *)
Record IceGrid : Type := mkIceGrid {
  Lz : Q;
  Mz : nat;
  zlevels : list Q;
  xs : Z;
  xm : nat;
  ys : Z;
  ym : nat
}.

(** A vertical grid as PISM builds it: [Mz >= 2] levels, strictly increasing,
    from [0] at the base to [Lz] at the top. *)
Definition grid_ok (g : IceGrid) : Prop :=
  length (zlevels g) = Mz g /\
  (2 <= Mz g)%nat /\
  strictly_increasing (zlevels g) /\
  nth 0 (zlevels g) 0 == 0 /\
  nth (Mz g - 1) (zlevels g) 0 == Lz g.

Definition owned (g : IceGrid) (i j : Z) : Prop :=
  (xs g <= i < xs g + Z.of_nat (xm g))%Z /\
  (ys g <= j < ys g + Z.of_nat (ym g))%Z.

(** [while (a[mcurr+1] < z) mcurr++;], where [rest] is the part of [a] from
    index [mcurr+1] on: the loop ends at the first level that is not below
    [z], and reads past the end of [a] when there is none. *)
Fixpoint scan_up (rest : list Q) (z : Q) (mcurr : nat) : outcome nat :=
  match rest with
  | [] => Raise OutOfBounds
  | y :: rest' => if Qltb y z then scan_up rest' z (Datatypes.S mcurr)
                  else Ok mcurr
  end.

Definition bracket_scan (a : list Q) (z : Q) (mcurr : nat) : outcome nat :=
  scan_up (skipn (Datatypes.S mcurr) a) z mcurr.

(** The strict-monotonicity loop of the column routines, raising
    [SETERRQ(code, ...)] at the first [levelsIN[k] >= levelsIN[k+1]]. *)
Definition check_levelsIN (code : nat) (levelsIN : list Q) : outcome unit :=
  for_loop (fun k _ =>
              a <- read levelsIN k ;;
              b <- read levelsIN (k + 1) ;;
              if Qleb b a then Raise (PetscError code) else Ok tt)
           0 (length levelsIN - 1) tt.

Module IceModelVec3.

(** The field: its grid, the columns [array[i][j]] of the local storage and
    the flag telling a ghosted (local) vector from a global one.  The storage
    is taken to be allocated and open for access, so [checkAllocated] and
    [checkHaveArray] succeed. *)
Record t : Type := mk {
  grid : IceGrid;
  array : Z -> Z -> list Q;
  localp : bool
}.

Definition set_column_of (a : Z -> Z -> list Q) (i j : Z) (col : list Q)
  : Z -> Z -> list Q :=
  fun i' j' => if ((i' =? i)%Z && (j' =? j)%Z)%bool then col else a i' j'.

Definition isLegalLevel (g : IceGrid) (z : Q) : outcome unit :=
  if Qltb z (0 - (1 # 1000000)) then Raise (PetscError 1)
  else if Qltb (Lz g + (1 # 1000000)) z then Raise (PetscError 2)
  else Ok tt.

(** The validation that opens [setValColumnPL]. *)
Definition setValColumnPL_checks (g : IceGrid) (levelsIN : list Q)
  : outcome unit :=
  let nlevels := length levelsIN in
  first <- read levelsIN 0 ;;
  (if Qltb (0 + (1 # 1000)) first then Raise (PetscError 1) else Ok tt) ;;;
  last <- read levelsIN (nlevels - 1) ;;
  (if Qltb last (Lz g - (1 # 1000)) then Raise (PetscError 2) else Ok tt) ;;;
  check_levelsIN 3 levelsIN.

(** One iteration of the loop of [setValColumnPL] over the stored levels;
    the state is [mcurr] and the column [arr[i][j]]. *)
Definition setValColumnPL_body (g : IceGrid) (levelsIN valsIN : list Q)
           (k : nat) (s : nat * list Q) : outcome (nat * list Q) :=
  let '(mcurr, col) := s in
  lk <- read (zlevels g) k ;;
  mcurr <- bracket_scan levelsIN lk mcurr ;;
  zm <- read levelsIN mcurr ;;
  zm1 <- read levelsIN (mcurr + 1) ;;
  let increment := (lk - zm) / (zm1 - zm) in
  vm <- read valsIN mcurr ;;
  vm1 <- read valsIN (mcurr + 1) ;;
  col <- write col k (vm + increment * (vm1 - vm)) ;;
  Ok (mcurr, col).

(** [setValColumnPL(i, j, nlevels, levelsIN, valsIN)], with [nlevels] the
    length of [levelsIN]: the error code and the field after the call. *)
Definition setValColumnPL (v : t) (i j : Z) (levelsIN valsIN : list Q)
  : outcome unit * t :=
  match setValColumnPL_checks (grid v) levelsIN with
  | Raise f => (Raise f, v)
  | Ok _ =>
      let '(r, (_, col)) :=
        for_loop_st (setValColumnPL_body (grid v) levelsIN valsIN)
                    0 (Mz (grid v)) (0%nat, array v i j) in
      (r, {| grid := grid v;
             array := set_column_of (array v) i j col;
             localp := localp v |})
  end.

(** [getValZ(i, j, z)]: an illegal level ends the run ([PetscEnd]) with the
    error of [isLegalLevel]. *)
Definition getValZ (v : t) (i j : Z) (z : Q) : outcome Q :=
  let g := grid v in
  let arr := array v i j in
  isLegalLevel g z ;;;
  if Qleb (Lz g) z then read arr (Mz g - 1)
  else if Qleb z 0 then read arr 0
  else
    mcurr <- bracket_scan (zlevels g) z 0 ;;
    zm <- read (zlevels g) mcurr ;;
    zm1 <- read (zlevels g) (mcurr + 1) ;;
    let incr := (z - zm) / (zm1 - zm) in
    valm <- read arr mcurr ;;
    valm1 <- read arr (mcurr + 1) ;;
    Ok (valm + incr * (valm1 - valm)).

(** The validation shared by [getValColumnPL] and [getValColumnQUAD]. *)
Definition getValColumn_checks (g : IceGrid) (levelsIN : list Q)
  : outcome unit :=
  first <- read levelsIN 0 ;;
  isLegalLevel g first ;;;
  check_levelsIN 1 levelsIN.

(** One iteration of the loop of [getValColumnPL]; the state is [mcurr] and
    the output array [valsOUT]. *)
Definition getValColumnPL_body (g : IceGrid) (arr levelsIN : list Q)
           (k : nat) (s : nat * list Q) : outcome (nat * list Q) :=
  let '(mcurr, valsOUT) := s in
  let levels := zlevels g in
  zk <- read levelsIN k ;;
  top <- read levels (Mz g - 1) ;;
  if Qltb top zk then
    vtop <- read arr (Mz g - 1) ;;
    valsOUT <- write valsOUT k vtop ;;
    Ok (mcurr, valsOUT)
  else
    mcurr <- bracket_scan levels zk mcurr ;;
    zm <- read levels mcurr ;;
    zm1 <- read levels (mcurr + 1) ;;
    let incr := (zk - zm) / (zm1 - zm) in
    valm <- read arr mcurr ;;
    valm1 <- read arr (mcurr + 1) ;;
    valsOUT <- write valsOUT k (valm + incr * (valm1 - valm)) ;;
    Ok (mcurr, valsOUT).

(** [getValColumnPL(i, j, nlevelsIN, levelsIN, valsOUT)], with [nlevelsIN]
    the length of [levelsIN] and [valsOUT] an array of that many scalars;
    the result is [valsOUT] after the call. *)
Definition getValColumnPL (v : t) (i j : Z) (levelsIN : list Q)
  : outcome (list Q) :=
  getValColumn_checks (grid v) levelsIN ;;;
  s <- for_loop (getValColumnPL_body (grid v) (array v i j) levelsIN)
                0 (length levelsIN) (0%nat, repeat 0 (length levelsIN)) ;;
  Ok (snd s).

(** One iteration of the loop of [getValColumnQUAD]. *)
Definition getValColumnQUAD_body (g : IceGrid) (arr levelsIN : list Q)
           (k : nat) (s : nat * list Q) : outcome (nat * list Q) :=
  let '(mcurr, valsOUT) := s in
  let levels := zlevels g in
  zk <- read levelsIN k ;;
  top <- read levels (Mz g - 1) ;;
  if Qltb top zk then
    vtop <- read arr (Mz g - 1) ;;
    valsOUT <- write valsOUT k vtop ;;
    Ok (mcurr, valsOUT)
  else
    mcurr <- bracket_scan levels zk mcurr ;;
    z0 <- read levels mcurr ;;
    f0 <- read arr mcurr ;;
    if (Mz g - 2 <=? mcurr)%nat then
      zm1 <- read levels (mcurr + 1) ;;
      let incr := (zk - z0) / (zm1 - z0) in
      f1 <- read arr (mcurr + 1) ;;
      valsOUT <- write valsOUT k (f0 + incr * (f1 - f0)) ;;
      Ok (mcurr, valsOUT)
    else
      zm1 <- read levels (mcurr + 1) ;;
      zm2 <- read levels (mcurr + 2) ;;
      let dz1 := zm1 - z0 in
      let dz2 := zm2 - z0 in
      f1 <- read arr (mcurr + 1) ;;
      f2 <- read arr (mcurr + 2) ;;
      let D1 := (f1 - f0) / dz1 in
      let D2 := (f2 - f0) / dz2 in
      let c := (D2 - D1) / (dz2 - dz1) in
      let b := D1 - c * dz1 in
      let s := zk - z0 in
      valsOUT <- write valsOUT k (f0 + s * (b + c * s)) ;;
      Ok (mcurr, valsOUT).

Definition getValColumnQUAD (v : t) (i j : Z) (levelsIN : list Q)
  : outcome (list Q) :=
  getValColumn_checks (grid v) levelsIN ;;;
  s <- for_loop (getValColumnQUAD_body (grid v) (array v i j) levelsIN)
                0 (length levelsIN) (0%nat, repeat 0 (length levelsIN)) ;;
  Ok (snd s).

(** [for (i = xs; i < xs+xm; i++) for (j = ys; j < ys+ym; j++)], the body
    rewriting the column [a[i][j]]. *)
Definition for_owned (g : IceGrid) (body : Z -> Z -> list Q -> outcome (list Q))
           (a : Z -> Z -> list Q) : outcome (Z -> Z -> list Q) :=
  for_loop (fun di a =>
              let i := (xs g + Z.of_nat di)%Z in
              for_loop (fun dj a =>
                          let j := (ys g + Z.of_nat dj)%Z in
                          col <- body i j (a i j) ;;
                          Ok (set_column_of a i j col))
                       0 (ym g) a)
           0 (xm g) a.

(** The storage of a vector just created on a DA with [Mz] levels: columns
    of [Mz] scalars whose contents [junk] nothing is known about. *)
Definition DACreateVector (Mz : nat) (junk : Z -> Z -> nat -> Q)
  : Z -> Z -> list Q :=
  fun i j => map (junk i j) (seq 0 Mz).

(** [extend_vertically_private(old_Mz)]: the grid of [v] already has the new
    [Mz]; a new vector is created and the first [old_Mz] levels of every
    owned column are copied into it. *)
Definition extend_vertically_private (junk : Z -> Z -> nat -> Q)
           (old_Mz : nat) (v : t) : outcome t :=
  let g := grid v in
  a_new <- for_owned g
             (fun i j col =>
                for_loop (fun k col =>
                            x <- read (array v i j) k ;;
                            write col k x)
                         0 old_Mz col)
             (DACreateVector (Mz g) junk) ;;
  Ok {| grid := g; array := a_new; localp := localp v |}.

Section GhostCommunication.

(** [beginGhostComm(); endGhostComm();] are defined with the base class, not
    in this file.  They refresh the ghost cells of a local vector from the
    neighbouring processes and leave the owned cells as they are. *)
Variable ghostComm : t -> t.

(** "Fill the new layer", then exchange ghosts when the vector is local;
    [filler i j] is the value written to the new levels of column (i, j). *)
Definition fill_new_levels (old_Mz : nat) (filler : Z -> Z -> Q) (v : t)
  : outcome t :=
  let g := grid v in
  a <- for_owned g
         (fun i j col =>
            for_loop (fun k col => write col k (filler i j))
                     old_Mz (Mz g - old_Mz) col)
         (array v) ;;
  let v' := {| grid := g; array := a; localp := localp v |} in
  Ok (if localp v then ghostComm v' else v').

(** [extend_vertically(int old_Mz, PetscScalar fill_value)] *)
Definition extend_vertically (junk : Z -> Z -> nat -> Q) (old_Mz : nat)
           (fill_value : Q) (v : t) : outcome t :=
  v1 <- extend_vertically_private junk old_Mz v ;;
  fill_new_levels old_Mz (fun _ _ => fill_value) v1.

(** [extend_vertically(int old_Mz, IceModelVec2 &fill_values)], the 2-D
    field given by its array [filler[i][j]]. *)
Definition extend_vertically_2d (junk : Z -> Z -> nat -> Q) (old_Mz : nat)
           (filler : Z -> Z -> Q) (v : t) : outcome t :=
  v1 <- extend_vertically_private junk old_Mz v ;;
  fill_new_levels old_Mz filler v1.

End GhostCommunication.

(** [setColumn(i, j, c)] *)
Definition setColumn (v : t) (i j : Z) (c : Q) : outcome t :=
  col <- for_loop (fun k col => write col k c) 0 (Mz (grid v)) (array v i j) ;;
  Ok {| grid := grid v;
        array := set_column_of (array v) i j col;
        localp := localp v |}.

(** [getInternalColumn(i, j, &valsPTR)]: the column of the storage itself. *)
Definition getInternalColumn (v : t) (i j : Z) : outcome (list Q) :=
  Ok (array v i j).

(** [setInternalColumn(i, j, valsIN)] *)
Definition setInternalColumn (v : t) (i j : Z) (valsIN : list Q) : outcome t :=
  col <- for_loop (fun k col => x <- read valsIN k ;; write col k x)
                  0 (Mz (grid v)) (array v i j) ;;
  Ok {| grid := grid v;
        array := set_column_of (array v) i j col;
        localp := localp v |}.

(** The values on the planar star stencil. *)
Record planeStar : Type := mkPlaneStar {
  ij : Q;
  ip1 : Q;
  im1 : Q;
  jp1 : Q;
  jm1 : Q
}.

(** The bracket index [kbz] and the weight [incr] of [getPlaneStarZ]. *)
Definition star_bracket (g : IceGrid) (z : Q) : outcome (nat * Q) :=
  if Qleb (Lz g) z then Ok ((Mz g - 1)%nat, 0)
  else if Qleb z 0 then Ok (0%nat, 0)
  else
    kbz <- bracket_scan (zlevels g) z 0 ;;
    zk <- read (zlevels g) kbz ;;
    zk1 <- read (zlevels g) (kbz + 1) ;;
    Ok (kbz, (z - zk) / (zk1 - zk)).

(** The value [getPlaneStarZ] takes from one column of the stencil. *)
Definition star_value (g : IceGrid) (kbz : nat) (incr : Q) (arr : list Q)
  : outcome Q :=
  if (kbz <? Mz g - 1)%nat then
    a <- read arr kbz ;;
    b <- read arr (kbz + 1) ;;
    Ok (a + incr * (b - a))
  else read arr kbz.

(** [getPlaneStarZ(i, j, z, &star)] *)
Definition getPlaneStarZ (v : t) (i j : Z) (z : Q) : outcome planeStar :=
  let g := grid v in
  isLegalLevel g z ;;;
  (if localp v then Ok tt else Raise (PetscError 1)) ;;;
  b <- star_bracket g z ;;
  let '(kbz, incr) := b in
  s_ij <- star_value g kbz incr (array v i j) ;;
  s_ip1 <- star_value g kbz incr (array v (i + 1)%Z j) ;;
  s_im1 <- star_value g kbz incr (array v (i - 1)%Z j) ;;
  s_jp1 <- star_value g kbz incr (array v i (j + 1)%Z) ;;
  s_jm1 <- star_value g kbz incr (array v i (j - 1)%Z) ;;
  Ok {| ij := s_ij; ip1 := s_ip1; im1 := s_im1; jp1 := s_jp1; jm1 := s_jm1 |}.

(** [getValColumnSmart(equally_spaced, i, j, nlevels, levelsIN, valsOUT)] *)
Definition getValColumnSmart (equally_spaced : bool) (v : t) (i j : Z)
           (levelsIN : list Q) : outcome (list Q) :=
  if equally_spaced then getValColumnPL v i j levelsIN
  else getValColumnQUAD v i j levelsIN.

(** [a[i][j] = x] in a 2-D array. *)
Definition set_cell (a : Z -> Z -> Q) (i j : Z) (x : Q) : Z -> Z -> Q :=
  fun i' j' => if ((i' =? i)%Z && (j' =? j)%Z)%bool then x else a i' j'.

(** [for (i = xs; i < xs+xm; i++) for (j = ys; j < ys+ym; j++)], the body
    computing the new value of the cell [a[i][j]] of a 2-D array. *)
Definition for_owned_cells (g : IceGrid) (body : Z -> Z -> outcome Q)
           (a : Z -> Z -> Q) : outcome (Z -> Z -> Q) :=
  for_loop (fun di a =>
              let i := (xs g + Z.of_nat di)%Z in
              for_loop (fun dj a =>
                          let j := (ys g + Z.of_nat dj)%Z in
                          x <- body i j ;;
                          Ok (set_cell a i j x))
                       0 (ym g) a)
           0 (xm g) a.

(** [getHorSlice(IceModelVec2 &gslice, z)], the 2-D field given by its
    array: [slice_val[i][j] = getValZ(i, j, z)] on the owned cells. *)
Definition getHorSlice (v : t) (slice_val : Z -> Z -> Q) (z : Q)
  : outcome (Z -> Z -> Q) :=
  for_owned_cells (grid v) (fun i j => getValZ v i j z) slice_val.

(** [getSurfaceValues(IceModelVec2 &gsurf, PetscScalar **H)]:
    [surf_val[i][j] = getValZ(i, j, H[i][j])] on the owned cells. *)
Definition getSurfaceValues (v : t) (surf_val H : Z -> Z -> Q)
  : outcome (Z -> Z -> Q) :=
  for_owned_cells (grid v) (fun i j => getValZ v i j (H i j)) surf_val.

End IceModelVec3.

(** ** The bedrock column store (class IceModelVec3Bedrock) *)

(** The part of [IceGrid] the bedrock routines read: the thickness [Lbz] of
    the bedrock layer, the number [Mbz] of its levels and their coordinates
    [zblevels]. *)
Record BedrockGrid : Type := mkBedrockGrid {
  Lbz : Q;
  Mbz : nat;
  zblevels : list Q
}.

(** A bedrock grid with a thermal layer: [Mbz >= 2] levels, strictly
    increasing, from [-Lbz] at the base to [0] at the top. *)
Definition bedrock_grid_ok (g : BedrockGrid) : Prop :=
  length (zblevels g) = Mbz g /\
  (2 <= Mbz g)%nat /\
  strictly_increasing (zblevels g) /\
  nth 0 (zblevels g) 0 == - Lbz g /\
  nth (Mbz g - 1) (zblevels g) 0 == 0.

Module IceModelVec3Bedrock.

(** The field: its grid and the columns [array[i][j]]; the storage is taken
    to be allocated, so [checkAllocated] succeeds. *)
Record t : Type := mk {
  grid : BedrockGrid;
  array : Z -> Z -> list Q
}.

Definition isLegalLevel (g : BedrockGrid) (z : Q) : outcome unit :=
  if Qltb z (- Lbz g - (1 # 1000000)) then Raise (PetscError 1)
  else if Qltb (0 + (1 # 1000000)) z then Raise (PetscError 2)
  else Ok tt.

(** The validation that opens [setValColumnPL]. *)
Definition setValColumnPL_checks (g : BedrockGrid) (levelsIN : list Q)
  : outcome unit :=
  let nlevels := length levelsIN in
  first <- read levelsIN 0 ;;
  (if Qltb (- Lbz g + (1 # 1000)) first then Raise (PetscError 1)
   else Ok tt) ;;;
  last <- read levelsIN (nlevels - 1) ;;
  (if Qltb last (0 - (1 # 1000)) then Raise (PetscError 2) else Ok tt) ;;;
  check_levelsIN 3 levelsIN.

(** One iteration of the loop of [setValColumnPL] over the bedrock levels;
    the state is [mcurr] and the column [arr[i][j]]. *)
Definition setValColumnPL_body (g : BedrockGrid) (levelsIN valsIN : list Q)
           (k : nat) (s : nat * list Q) : outcome (nat * list Q) :=
  let '(mcurr, col) := s in
  lk <- read (zblevels g) k ;;
  mcurr <- bracket_scan levelsIN lk mcurr ;;
  zm <- read levelsIN mcurr ;;
  zm1 <- read levelsIN (mcurr + 1) ;;
  let increment := (lk - zm) / (zm1 - zm) in
  vm <- read valsIN mcurr ;;
  vm1 <- read valsIN (mcurr + 1) ;;
  col <- write col k (vm + increment * (vm1 - vm)) ;;
  Ok (mcurr, col).

(** [setValColumnPL(i, j, nlevels, levelsIN, valsIN)]: the error code and
    the field after the call. *)
Definition setValColumnPL (v : t) (i j : Z) (levelsIN valsIN : list Q)
  : outcome unit * t :=
  match setValColumnPL_checks (grid v) levelsIN with
  | Raise f => (Raise f, v)
  | Ok _ =>
      let '(r, (_, col)) :=
        for_loop_st (setValColumnPL_body (grid v) levelsIN valsIN)
                    0 (Mbz (grid v)) (0%nat, array v i j) in
      (r, {| grid := grid v;
             array := IceModelVec3.set_column_of (array v) i j col |})
  end.

(** The validation shared by [getValColumnPL] and [getValColumnQUAD]: here
    the last level is checked as well as the first. *)
Definition getValColumn_checks (g : BedrockGrid) (levelsIN : list Q)
  : outcome unit :=
  first <- read levelsIN 0 ;;
  isLegalLevel g first ;;;
  last <- read levelsIN (length levelsIN - 1) ;;
  isLegalLevel g last ;;;
  check_levelsIN 1 levelsIN.

(** One iteration of the loop of [getValColumnPL]: the scan and the linear
    interpolant, with no special case above the top level. *)
Definition getValColumnPL_body (g : BedrockGrid) (arr levelsIN : list Q)
           (k : nat) (s : nat * list Q) : outcome (nat * list Q) :=
  let '(mcurr, valsOUT) := s in
  let levels := zblevels g in
  zk <- read levelsIN k ;;
  mcurr <- bracket_scan levels zk mcurr ;;
  zm <- read levels mcurr ;;
  zm1 <- read levels (mcurr + 1) ;;
  let incr := (zk - zm) / (zm1 - zm) in
  valm <- read arr mcurr ;;
  valm1 <- read arr (mcurr + 1) ;;
  valsOUT <- write valsOUT k (valm + incr * (valm1 - valm)) ;;
  Ok (mcurr, valsOUT).

Definition getValColumnPL (v : t) (i j : Z) (levelsIN : list Q)
  : outcome (list Q) :=
  getValColumn_checks (grid v) levelsIN ;;;
  s <- for_loop (getValColumnPL_body (grid v) (array v i j) levelsIN)
                0 (length levelsIN) (0%nat, repeat 0 (length levelsIN)) ;;
  Ok (snd s).

End IceModelVec3Bedrock.

(** * The same routines in binary64 arithmetic *)

(** The routines above with the arithmetic of the machine: a [double] is a
    binary64 number ([float]), the four operations round to nearest, and the
    comparisons are those of IEEE 754.  The text of each routine is the text of
    its exact counterpart; evaluating it on given inputs gives the values the
    compiled code computes. *)
Module Binary64.

Local Open Scope float_scope.

(** The bisection loop of [gsl_interp_bsearch]. *)
Fixpoint bsearch_loop (fuel : nat) (x_array : list float) (x : float)
         (ilo ihi : nat) : outcome nat :=
  if (ilo + 1 <? ihi)%nat then
    match fuel with
    | O => Raise OutOfFuel
    | Datatypes.S f =>
        let i := ((ihi + ilo) / 2)%nat in
        xi <- read x_array i ;;
        if x <? xi then bsearch_loop f x_array x ilo i
        else bsearch_loop f x_array x i ihi
    end
  else Ok ilo.

(** Modelled from the spec: GSL's bisection, as in the exact model. *)
Definition gsl_interp_bsearch (x_array : list float) (x : float)
           (index_lo index_hi : nat) : outcome nat :=
  bsearch_loop (index_hi - index_lo) x_array x index_lo index_hi.

Record Interpolation : Type := mkInterpolation {
  m_left : list nat;
  m_right : list nat;
  m_alpha : list float
}.

Definition resize (output_x_size : nat) : Interpolation :=
  {| m_left := repeat 0%nat output_x_size;
     m_right := repeat 0%nat output_x_size;
     m_alpha := repeat 0 output_x_size |}.

Definition trivial_case (I : Interpolation) : outcome Interpolation :=
  l <- write (m_left I) 0 0%nat ;;
  r <- write (m_right I) 0 0%nat ;;
  a <- write (m_alpha I) 0 0 ;;
  Ok {| m_left := l; m_right := r; m_alpha := a |}.

Definition check_increasing (input_x : list float) : outcome unit :=
  for_loop (fun i _ =>
              a <- read input_x i ;;
              b <- read input_x (i + 1) ;;
              if b <=? a then Raise RuntimeError else Ok tt)
           0 (length input_x - 1) tt.

Definition assert_entry (input_x_size L R : nat) (alpha : float)
  : outcome unit :=
  assert (L <? input_x_size)%nat ;;;
  assert (R <? input_x_size)%nat ;;;
  assert ((0 <=? alpha) && (alpha <=? 1)).

Definition init_linear_body (input_x output_x : list float) (i : nat)
           (I : Interpolation) : outcome Interpolation :=
  x <- read output_x i ;;
  L <- gsl_interp_bsearch input_x x 0 (length input_x - 1) ;;
  xL <- read input_x L ;;
  let R := if xL <? x then (L + 1)%nat else L in
  l <- write (m_left I) i L ;;
  r <- write (m_right I) i R ;;
  alpha <- (if negb (L =? R)%nat then
              xR <- read input_x R ;;
              if x <=? xR then Ok ((x - xL) / (xR - xL)) else Ok 1
            else Ok 0) ;;
  a <- write (m_alpha I) i alpha ;;
  assert_entry (length input_x) L R alpha ;;;
  Ok {| m_left := l; m_right := r; m_alpha := a |}.

Definition init_linear (input_x output_x : list float)
  : outcome Interpolation :=
  let I := resize (length output_x) in
  if (length input_x <? 2)%nat then trivial_case I
  else
    check_increasing input_x ;;;
    for_loop (init_linear_body input_x output_x) 0 (length output_x) I.

Definition interpolate (I : Interpolation) (input_values : list float)
  : outcome (list float) :=
  for_loop (fun k result =>
              L <- read (m_left I) k ;;
              R <- read (m_right I) k ;;
              Alpha <- read (m_alpha I) k ;;
              vL <- read input_values L ;;
              vR <- read input_values R ;;
              write result k (vL + Alpha * (vR - vL)))
           0 (length (m_alpha I)) (repeat 0 (length (m_alpha I))).

Module LinearPeriodic.

Definition entry (input_x : list float) (period x : float)
  : outcome (nat * nat * float) :=
  let input_x_size := length input_x in
  x0 <- read input_x 0 ;;
  LR <- (if x <? x0 then Ok ((input_x_size - 1)%nat, 0%nat)
         else
           L <- gsl_interp_bsearch input_x x 0 input_x_size ;;
           Ok (L, if (L + 1 <? input_x_size)%nat then (L + 1)%nat
                  else 0%nat)) ;;
  let '(L, R) := LR in
  x_l <- read input_x L ;;
  x_r <- read input_x R ;;
  let alpha :=
    if (L <? R)%nat then (x - x_l) / (x_r - x_l)
    else
      let dx := (period - x_l) + x0 in
      if x0 <? x then (x - x_l) / dx else 1 - (x_r - x) / dx in
  Ok (L, R, alpha).

Definition init_body (input_x output_x : list float) (period : float)
           (i : nat) (I : Interpolation) : outcome Interpolation :=
  x <- read output_x i ;;
  e <- entry input_x period x ;;
  let '(L, R, alpha) := e in
  assert_entry (length input_x) L R alpha ;;;
  l <- write (m_left I) i L ;;
  r <- write (m_right I) i R ;;
  a <- write (m_alpha I) i alpha ;;
  Ok {| m_left := l; m_right := r; m_alpha := a |}.

Definition init (input_x output_x : list float) (period : float)
  : outcome Interpolation :=
  let I := resize (length output_x) in
  if (length input_x <? 2)%nat then trivial_case I
  else
    check_increasing input_x ;;;
    for_loop (init_body input_x output_x period) 0 (length output_x) I.

End LinearPeriodic.

(** The part of [IceGrid] that [getValColumnQUAD] reads. *)
Record IceGrid : Type := mkIceGrid {
  Lz : float;
  Mz : nat;
  zlevels : list float
}.

Fixpoint scan_up (rest : list float) (z : float) (mcurr : nat)
  : outcome nat :=
  match rest with
  | [] => Raise OutOfBounds
  | y :: rest' => if y <? z then scan_up rest' z (Datatypes.S mcurr)
                  else Ok mcurr
  end.

Definition bracket_scan (a : list float) (z : float) (mcurr : nat)
  : outcome nat :=
  scan_up (skipn (Datatypes.S mcurr) a) z mcurr.

Definition check_levelsIN (code : nat) (levelsIN : list float)
  : outcome unit :=
  for_loop (fun k _ =>
              a <- read levelsIN k ;;
              b <- read levelsIN (k + 1) ;;
              if b <=? a then Raise (PetscError code) else Ok tt)
           0 (length levelsIN - 1) tt.

Module IceModelVec3.

Record t : Type := mk {
  grid : IceGrid;
  array : Z -> Z -> list float
}.

Definition isLegalLevel (g : IceGrid) (z : float) : outcome unit :=
  if z <? 0 - 1e-6 then Raise (PetscError 1)
  else if Lz g + 1e-6 <? z then Raise (PetscError 2)
  else Ok tt.

Definition getValColumn_checks (g : IceGrid) (levelsIN : list float)
  : outcome unit :=
  first <- read levelsIN 0 ;;
  isLegalLevel g first ;;;
  check_levelsIN 1 levelsIN.

Definition getValColumnQUAD_body (g : IceGrid) (arr levelsIN : list float)
           (k : nat) (s : nat * list float) : outcome (nat * list float) :=
  let '(mcurr, valsOUT) := s in
  let levels := zlevels g in
  zk <- read levelsIN k ;;
  top <- read levels (Mz g - 1) ;;
  if top <? zk then
    vtop <- read arr (Mz g - 1) ;;
    valsOUT <- write valsOUT k vtop ;;
    Ok (mcurr, valsOUT)
  else
    mcurr <- bracket_scan levels zk mcurr ;;
    z0 <- read levels mcurr ;;
    f0 <- read arr mcurr ;;
    if (Mz g - 2 <=? mcurr)%nat then
      zm1 <- read levels (mcurr + 1) ;;
      let incr := (zk - z0) / (zm1 - z0) in
      f1 <- read arr (mcurr + 1) ;;
      valsOUT <- write valsOUT k (f0 + incr * (f1 - f0)) ;;
      Ok (mcurr, valsOUT)
    else
      zm1 <- read levels (mcurr + 1) ;;
      zm2 <- read levels (mcurr + 2) ;;
      let dz1 := zm1 - z0 in
      let dz2 := zm2 - z0 in
      f1 <- read arr (mcurr + 1) ;;
      f2 <- read arr (mcurr + 2) ;;
      let D1 := (f1 - f0) / dz1 in
      let D2 := (f2 - f0) / dz2 in
      let c := (D2 - D1) / (dz2 - dz1) in
      let b := D1 - c * dz1 in
      let s := zk - z0 in
      valsOUT <- write valsOUT k (f0 + s * (b + c * s)) ;;
      Ok (mcurr, valsOUT).

Definition getValColumnQUAD (v : t) (i j : Z) (levelsIN : list float)
  : outcome (list float) :=
  getValColumn_checks (grid v) levelsIN ;;;
  s <- for_loop (getValColumnQUAD_body (grid v) (array v i j) levelsIN)
                0 (length levelsIN) (0%nat, repeat 0 (length levelsIN)) ;;
  Ok (snd s).

End IceModelVec3.

End Binary64.

(** * Vocabulary of the statements *)

(** [L] is the index of the bracket of [xs] at or below [x], clamped to
    [0 .. size-2]: the first bracket when [x] lies below the grid, the last
    one when [x] lies at or above the last point, the bracket with
    [xs[L] <= x < xs[L+1]] otherwise. *)
Definition bracket_clamped (xs : list Q) (x : Q) (L : nat) : Prop :=
  let n := length xs in
  (L <= n - 2)%nat /\
  (x < nth 0 xs 0 -> L = 0%nat) /\
  (nth (n - 1) xs 0 <= x -> L = (n - 2)%nat) /\
  (nth 0 xs 0 <= x -> x < nth (n - 1) xs 0 ->
   nth L xs 0 <= x /\ x < nth (Datatypes.S L) xs 0).

(** The bracket [(L, R)] and the weight [alpha] of the linear policy at the
    output coordinate [x]. *)
Definition linear_entry (xs : list Q) (x : Q) (L R : nat) (alpha : Q) : Prop :=
  bracket_clamped xs x L /\
  (nth L xs 0 < x -> R = (L + 1)%nat) /\
  (x <= nth L xs 0 -> R = L) /\
  (L <> R -> x <= nth R xs 0 ->
   alpha = (x - nth L xs 0) / (nth R xs 0 - nth L xs 0)) /\
  (L <> R -> nth R xs 0 < x -> alpha = 1) /\
  (L = R -> alpha = 0).

(** The postcondition the assertions of every policy state: both indices
    point into [input_x] and the weight lies in [0, 1]. *)
Definition valid_entry (input_x_size L R : nat) (alpha : Q) : Prop :=
  (L < input_x_size)%nat /\ (R < input_x_size)%nat /\ 0 <= alpha /\ alpha <= 1.

Definition valid_tables (input_x_size output_x_size : nat) (I : Interpolation)
  : Prop :=
  length (m_left I) = output_x_size /\
  length (m_right I) = output_x_size /\
  length (m_alpha I) = output_x_size /\
  forall i, (i < output_x_size)%nat ->
            valid_entry input_x_size (nth i (m_left I) 0%nat)
                        (nth i (m_right I) 0%nat) (nth i (m_alpha I) 0).

(** The tables the linear policy builds for [input_x] and [output_x]. *)
Definition linear_tables (input_x output_x : list Q) (I : Interpolation)
  : Prop :=
  length (m_left I) = length output_x /\
  length (m_right I) = length output_x /\
  length (m_alpha I) = length output_x /\
  forall i, (i < length output_x)%nat ->
            linear_entry input_x (nth i output_x 0)
                         (nth i (m_left I) 0%nat) (nth i (m_right I) 0%nat)
                         (nth i (m_alpha I) 0).

(** The straight line through [(z0, f0)] and [(z1, f1)], at [z]. *)
Definition linear_between (z0 z1 f0 f1 z : Q) : Q :=
  f0 + (z - z0) / (z1 - z0) * (f1 - f0).

(** The ice field of the scenario: levels [0, 10, 20, 30], and the column
    [100, 200, 300, 400] at every cell. *)
Definition scenario_grid : IceGrid :=
  {| Lz := 30; Mz := 4; zlevels := [0; 10; 20; 30];
     xs := 0; xm := 1; ys := 0; ym := 1 |}.

Definition scenario_field : IceModelVec3.t :=
  {| IceModelVec3.grid := scenario_grid;
     IceModelVec3.array := fun _ _ => [100; 200; 300; 400];
     IceModelVec3.localp := false |}.

(** The quadratic polynomial through [(z0, f0)], [(z1, f1)] and [(z2, f2)],
    at [z] (Lagrange's form). *)
Definition quadratic_through (z0 z1 z2 f0 f1 f2 z : Q) : Q :=
  f0 * ((z - z1) * (z - z2)) / ((z0 - z1) * (z0 - z2)) +
  f1 * ((z - z0) * (z - z2)) / ((z1 - z0) * (z1 - z2)) +
  f2 * ((z - z0) * (z - z1)) / ((z2 - z0) * (z2 - z1)).

(** A level the legality check of the ice field accepts. *)
Definition legal_level (g : IceGrid) (z : Q) : Prop :=
  - (1 # 1000000) <= z /\ z <= Lz g + (1 # 1000000).

(** [m] is the lower index of the bracket of [z]: the first index whose
    upper neighbour is not below [z]. *)
Definition lower_bracket (levels : list Q) (z : Q) (m : nat) : Prop :=
  (m + 1 < length levels)%nat /\
  z <= nth (m + 1) levels 0 /\
  forall j, (0 < j <= m)%nat -> nth j levels 0 < z.

(** The quadratic through [(z0, f0)], [(z1, f1)] and [(z2, f2)] at [z] in
    Newton's divided-difference form centred at [z0], operation for
    operation as [getValColumnQUAD] evaluates it. *)
Definition newton_form (z0 z1 z2 f0 f1 f2 z : Q) : Q :=
  let dz1 := z1 - z0 in
  let dz2 := z2 - z0 in
  let D1 := (f1 - f0) / dz1 in
  let D2 := (f2 - f0) / dz2 in
  let c := (D2 - D1) / (dz2 - dz1) in
  let b := D1 - c * dz1 in
  let s := z - z0 in
  f0 + s * (b + c * s).

(** What [getValColumnQUAD] returns for the query level [z], given the
    stored levels and the stored column. *)
Definition quad_value (levels col : list Q) (z val : Q) : Prop :=
  let M := length levels in
  (nth (M - 1) levels 0 < z -> val = nth (M - 1) col 0) /\
  (z <= nth (M - 1) levels 0 ->
   exists m,
     lower_bracket levels z m /\
     ((m < M - 2)%nat ->
      val = newton_form
              (nth m levels 0) (nth (m + 1) levels 0) (nth (m + 2) levels 0)
              (nth m col 0) (nth (m + 1) col 0) (nth (m + 2) col 0) z) /\
     ((M - 2 <= m)%nat ->
      val = linear_between (nth m levels 0) (nth (m + 1) levels 0)
                           (nth m col 0) (nth (m + 1) col 0) z)).

(** An ice field with the two levels [0, 10] and the column [7, 8], and an
    input column whose last level, 9.9995, lies within [1e-3] of [Lz = 10]
    but below it. *)
Definition short_grid : IceGrid :=
  {| Lz := 10; Mz := 2; zlevels := [0; 10];
     xs := 0; xm := 1; ys := 0; ym := 1 |}.

Definition short_field : IceModelVec3.t :=
  {| IceModelVec3.grid := short_grid;
     IceModelVec3.array := fun _ _ => [7; 8];
     IceModelVec3.localp := false |}.

Definition short_levelsIN : list Q := [0; 99995 # 10000].

(** What a vertical extension from [old_Mz] levels leaves in the column
    [new] of an owned cell whose column was [old]: the new level count, the
    old values at the old indices, the filler at the new indices. *)
Definition extended_column (new_Mz old_Mz : nat) (fill : Q)
           (old new : list Q) : Prop :=
  length new = new_Mz /\
  (forall k, (k < old_Mz)%nat -> nth_error new k = nth_error old k) /\
  (forall k, (old_Mz <= k < new_Mz)%nat -> nth_error new k = Some fill).

(** A local field just before its extension from two to four levels: the
    grid has the new levels, the storage still has the old columns. *)
Definition field_before_extension : IceModelVec3.t :=
  {| IceModelVec3.grid := scenario_grid;
     IceModelVec3.array := fun _ _ => [100; 200];
     IceModelVec3.localp := true |}.

(** What [setValColumnPL] stores for the stored level [z], given the input
    column: the linear interpolant in the bracket of [levelsIN] that
    encloses [z]. *)
Definition set_value (levelsIN valsIN : list Q) (z val : Q) : Prop :=
  exists m,
    lower_bracket levelsIN z m /\
    nth m levelsIN 0 <= z /\
    val = linear_between (nth m levelsIN 0) (nth (m + 1) levelsIN 0)
                         (nth m valsIN 0) (nth (m + 1) valsIN 0) z.

(** ** Loop invariants *)

(** The tables of the first [k] output points after [k] iterations of an
    [init] loop. *)
Definition filled_upto (P : nat -> nat -> nat -> Q -> Prop) (m k : nat)
           (I : Interpolation) : Prop :=
  length (m_left I) = m /\ length (m_right I) = m /\ length (m_alpha I) = m /\
  forall i, (i < k)%nat ->
            P i (nth i (m_left I) 0%nat) (nth i (m_right I) 0%nat)
              (nth i (m_alpha I) 0).

(** The cells the double loop over the owned cells has passed when it is
    about to rewrite the column [dj] of the row [di]. *)
Definition passed (g : IceGrid) (di dj : nat) (i j : Z) : Prop :=
  owned g i j /\
  ((i < xs g + Z.of_nat di)%Z \/
   (i = xs g + Z.of_nat di /\ j < ys g + Z.of_nat dj)%Z).

(** [getValColumnQUAD] between two iterations: [mcurr] is a bracket index
    all of whose lower levels lie below the query levels still to come, and
    the output holds the values of the query levels already seen. *)
Definition quad_invariant (g : IceGrid) (col levelsIN : list Q)
           (k : nat) (s : nat * list Q) : Prop :=
  let '(mcurr, valsOUT) := s in
  length valsOUT = length levelsIN /\
  (mcurr + 1 < Mz g)%nat /\
  (forall j q, (0 < j <= mcurr)%nat -> (k <= q < length levelsIN)%nat ->
               nth j (zlevels g) 0 < nth q levelsIN 0) /\
  forall q, (q < k)%nat ->
            quad_value (zlevels g) col (nth q levelsIN 0) (nth q valsOUT 0).

(** [setValColumnPL] between two iterations, the same way. *)
Definition set_invariant (g : IceGrid) (levelsIN valsIN : list Q)
           (k : nat) (s : nat * list Q) : Prop :=
  let '(mcurr, col) := s in
  length col = Mz g /\
  (mcurr + 1 < length levelsIN)%nat /\
  (forall j q, (0 < j <= mcurr)%nat -> (k <= q < Mz g)%nat ->
               nth j levelsIN 0 < nth q (zlevels g) 0) /\
  forall q, (q < k)%nat ->
            set_value levelsIN valsIN (nth q (zlevels g) 0) (nth q col 0).

(** ** Vocabulary of the further properties of the interpolator *)

(** The outcome [res] of a constructor is a set of tables with which
    [interpolate] maps [values] to [m] results, each equal to [c]. *)
Definition interpolates_to_constant (res : outcome Interpolation)
           (values : list Q) (m : nat) (c : Q) : Prop :=
  exists I r, res = Ok I /\ interpolate I values = Ok r /\
              length r = m /\
              forall k, (k < m)%nat -> nth k r 0 == c.

(** What the linear policy returns at the output coordinate [x]: the first
    value at or below the grid; at or above the last grid point the blend
    of the last bracket with a weight equal to [1]; inside the grid the
    left sample at a grid point and the linear interpolant of the enclosing
    bracket elsewhere. *)
Definition linear_result (xs values : list Q) (x r : Q) : Prop :=
  let n := length xs in
  (x <= nth 0 xs 0 -> r == nth 0 values 0) /\
  (nth (n - 1) xs 0 <= x ->
   exists alpha,
     alpha == 1 /\
     r = nth (n - 2) values 0 +
         alpha * (nth (n - 1) values 0 - nth (n - 2) values 0)) /\
  (nth 0 xs 0 <= x -> x < nth (n - 1) xs 0 ->
   exists L, (L + 1 < n)%nat /\
             nth L xs 0 <= x /\ x < nth (L + 1) xs 0 /\
             (x == nth L xs 0 -> r == nth L values 0) /\
             (nth L xs 0 < x ->
              r = linear_between (nth L xs 0) (nth (L + 1) xs 0)
                                 (nth L values 0) (nth (L + 1) values 0) x)).


(** The three shapes of an entry of the linear policy. *)
Definition linear_entry_shape (xs : list Q) (x : Q) (L R : nat) (alpha : Q)
  : Prop :=
  let n := length xs in
  (x <= nth 0 xs 0 /\ L = 0%nat /\ R = 0%nat /\ alpha = 0) \/
  (nth (n - 1) xs 0 <= x /\ L = (n - 2)%nat /\ R = (n - 1)%nat /\
   alpha == 1) \/
  (nth 0 xs 0 <= x /\ x < nth (n - 1) xs 0 /\ (L + 1 < n)%nat /\
   nth L xs 0 <= x /\ x < nth (L + 1) xs 0 /\
   ((x == nth L xs 0 /\ R = L /\ alpha = 0) \/
    (nth L xs 0 < x /\ R = (L + 1)%nat /\
     alpha = (x - nth L xs 0) / (nth (L + 1) xs 0 - nth L xs 0)))).

(** ** Vocabulary of the further properties of the column store *)

(** What [getValColumnPL] returns for the query level [z]: the top stored
    value above the top stored level, the linear interpolant of the bracket
    of [z] otherwise. *)
Definition pl_value (levels col : list Q) (z val : Q) : Prop :=
  let M := length levels in
  (nth (M - 1) levels 0 < z -> val = nth (M - 1) col 0) /\
  (z <= nth (M - 1) levels 0 ->
   exists m,
     lower_bracket levels z m /\
     val = linear_between (nth m levels 0) (nth (m + 1) levels 0)
                          (nth m col 0) (nth (m + 1) col 0) z).

(** The level array of a grid, whatever range it spans: [Mz >= 2] strictly
    increasing levels. *)
Definition levels_ok (g : IceGrid) : Prop :=
  length (zlevels g) = Mz g /\ (2 <= Mz g)%nat /\
  strictly_increasing (zlevels g).

(** [getValColumnPL] between two iterations. *)
Definition pl_invariant (g : IceGrid) (col levelsIN : list Q)
           (k : nat) (s : nat * list Q) : Prop :=
  let '(mcurr, valsOUT) := s in
  length valsOUT = length levelsIN /\
  (mcurr + 1 < Mz g)%nat /\
  (forall j q, (0 < j <= mcurr)%nat -> (k <= q < length levelsIN)%nat ->
               nth j (zlevels g) 0 < nth q levelsIN 0) /\
  forall q, (q < k)%nat ->
            pl_value (zlevels g) col (nth q levelsIN 0) (nth q valsOUT 0).

(** ** Vocabulary of the properties of the bedrock store *)

(** The bedrock levels seen as the levels of a column grid: the loops of the
    bedrock routines are those of the ice routines over these levels. *)
Definition as_ice (g : BedrockGrid) : IceGrid :=
  {| Lz := 0; Mz := Mbz g; zlevels := zblevels g;
     xs := 0; xm := 0; ys := 0; ym := 0 |}.

(** A small bedrock grid and a field on it. *)
Definition bedrock_scenario_grid : BedrockGrid :=
  {| Lbz := 20; Mbz := 3; zblevels := [-(20); -(10); 0] |}.

Definition bedrock_scenario_field : IceModelVec3Bedrock.t :=
  {| IceModelVec3Bedrock.grid := bedrock_scenario_grid;
     IceModelVec3Bedrock.array := fun _ _ => [5; 3; 1] |}.

(** ** Vocabulary of the statements about rounding *)

(** A binary64 ice field with the levels [0, 0.1, 0.3, 1] and the column
    [0.2, 0.9, 0.4, 0.5] at every cell. *)
Definition rounding_grid : Binary64.IceGrid :=
  {| Binary64.Lz := 1%float; Binary64.Mz := 4;
     Binary64.zlevels := [0; 0.1; 0.3; 1]%float |}.

Definition rounding_field : Binary64.IceModelVec3.t :=
  {| Binary64.IceModelVec3.grid := rounding_grid;
     Binary64.IceModelVec3.array :=
       fun _ _ => [0.2; 0.9; 0.4; 0.5]%float |}.

(** * Properties *)

(** ** Comparisons *)

Lemma Qltb_true (x y : Q) : Qltb x y = true <-> x < y.
Proof.
  unfold Qltb. rewrite negb_true_iff.
  split; intro H.
  - apply Qnot_le_lt. intro Hle. apply Qle_bool_iff in Hle. congruence.
  - destruct (Qle_bool y x) eqn:E; [|reflexivity].
    apply Qle_bool_iff in E. exfalso. exact (Qlt_not_le _ _ H E).
Qed.

Lemma Qltb_false (x y : Q) : Qltb x y = false <-> y <= x.
Proof.
  unfold Qltb. rewrite negb_false_iff. apply Qle_bool_iff.
Qed.

Lemma Qleb_true (x y : Q) : Qleb x y = true <-> x <= y.
Proof. apply Qle_bool_iff. Qed.

Lemma Qleb_false (x y : Q) : Qleb x y = false <-> y < x.
Proof.
  unfold Qleb. split; intro H.
  - apply Qnot_le_lt. intro Hle. apply Qle_bool_iff in Hle. congruence.
  - destruct (Qle_bool x y) eqn:E; [|reflexivity].
    apply Qle_bool_iff in E. exfalso. exact (Qlt_not_le _ _ H E).
Qed.

(** Case analysis on a comparison, leaving the order fact in the context. *)
Ltac case_Qltb x y H :=
  destruct (Qltb x y) eqn:H;
  [apply Qltb_true in H | apply Qltb_false in H].
Ltac case_Qleb x y H :=
  destruct (Qleb x y) eqn:H;
  [apply Qleb_true in H | apply Qleb_false in H].

(** A quotient of a part by the whole is a weight. *)
Lemma Qdiv_weight (a b : Q) :
  0 <= a -> a <= b -> 0 < b -> 0 <= a / b /\ a / b <= 1.
Proof.
  intros Ha Hab Hb. split.
  - apply Qle_shift_div_l; [assumption | lra].
  - apply Qle_shift_div_r; [assumption | lra].
Qed.

(** ** Arrays *)

Section ArrayFacts.
Context {A : Type}.
Implicit Types (a : list A) (i j : nat) (v d : A).

Lemma length_update a i v : length (update a i v) = length a.
Proof.
  revert i; induction a as [|h t IH]; intros [|j]; simpl; auto.
Qed.

Lemma nth_update_eq a i v d :
  (i < length a)%nat -> nth i (update a i v) d = v.
Proof.
  revert i; induction a as [|h t IH]; intros [|j] H; simpl in *;
    try lia; auto.
  apply IH. lia.
Qed.

Lemma nth_update_ne a i j v d :
  i <> j -> nth j (update a i v) d = nth j a d.
Proof.
  revert i j; induction a as [|h t IH]; intros [|i] [|j] H; simpl;
    try congruence; auto.
Qed.

Lemma read_nth a i d :
  (i < length a)%nat -> read a i = Ok (nth i a d).
Proof.
  intro H. unfold read.
  destruct (nth_error a i) eqn:E.
  - now rewrite (nth_error_nth _ _ d E).
  - apply nth_error_None in E. lia.
Qed.

Lemma read_out a i :
  (length a <= i)%nat -> read a i = Raise OutOfBounds.
Proof.
  intro H. unfold read.
  now rewrite (proj2 (nth_error_None a i) H).
Qed.

Lemma write_in a i v :
  (i < length a)%nat -> write a i v = Ok (update a i v).
Proof.
  intro H. unfold write.
  now rewrite (proj2 (Nat.ltb_lt _ _) H).
Qed.

End ArrayFacts.

(** ** Loops *)

Lemma for_loop_inv {S : Type} (Inv : nat -> S -> Prop)
      (body : nat -> S -> outcome S) :
  forall count lo s,
    Inv lo s ->
    (forall k t, (lo <= k < lo + count)%nat -> Inv k t ->
                 exists t', body k t = Ok t' /\ Inv (Datatypes.S k) t') ->
    exists s', for_loop body lo count s = Ok s' /\ Inv (lo + count)%nat s'.
Proof.
  induction count as [|c IH]; intros lo s H0 Hstep; simpl.
  - exists s. rewrite Nat.add_0_r. auto.
  - destruct (Hstep lo s) as [t [Hb Ht]]; [lia | assumption |].
    rewrite Hb. simpl.
    destruct (IH (Datatypes.S lo) t Ht) as [s' [Hl Hs']].
    + intros k u Hk Hu. apply Hstep; [lia | assumption].
    + exists s'. split; [assumption|].
      now replace (lo + Datatypes.S c)%nat with (Datatypes.S lo + c)%nat by lia.
Qed.

(** ** Strictly increasing grids *)

Lemma strictly_increasing_lt (xs : list Q) :
  strictly_increasing xs ->
  forall i j, (i < j)%nat -> (j < length xs)%nat -> nth i xs 0 < nth j xs 0.
Proof.
  intros Hs i j Hij. induction Hij as [|j Hij IH]; intro Hj.
  - apply Hs. lia.
  - apply Qlt_trans with (nth j xs 0).
    + apply IH. lia.
    + apply Hs. lia.
Qed.

Lemma strictly_increasing_le (xs : list Q) :
  strictly_increasing xs ->
  forall i j, (i <= j)%nat -> (j < length xs)%nat -> nth i xs 0 <= nth j xs 0.
Proof.
  intros Hs i j Hij Hj.
  destruct (Nat.eq_dec i j) as [->|Hne].
  - apply Qle_refl.
  - apply Qlt_le_weak. apply strictly_increasing_lt; auto. lia.
Qed.

(** The order of two levels gives the order of their indices. *)
Lemma strictly_increasing_index (xs : list Q) :
  strictly_increasing xs ->
  forall i j, (i < length xs)%nat -> (j < length xs)%nat ->
              nth i xs 0 < nth j xs 0 -> (i < j)%nat.
Proof.
  intros Hs i j Hi Hj Hlt.
  destruct (Nat.lt_ge_cases i j) as [|Hge]; [assumption|].
  pose proof (strictly_increasing_le xs Hs j i Hge Hi). lra.
Qed.

(** The validation loop accepts a strictly increasing grid. *)
Lemma check_increasing_ok (input_x : list Q) :
  strictly_increasing input_x -> check_increasing input_x = Ok tt.
Proof.
  intro Hs. unfold check_increasing.
  destruct (for_loop_inv (fun _ _ => True)
              (fun i (_ : unit) =>
                 a <- read input_x i ;;
                 b <- read input_x (i + 1) ;;
                 if Qleb b a then Raise RuntimeError else Ok tt)
              (length input_x - 1) 0%nat tt I) as [[] [H _]]; [|exact H].
  intros k [] Hk _. exists tt. split; [|exact I].
  rewrite (read_nth input_x k 0) by lia. simpl.
  rewrite (read_nth input_x (k + 1) 0) by lia. simpl.
  case_Qleb (nth (k + 1) input_x 0) (nth k input_x 0) E; [|reflexivity].
  pose proof (Hs k ltac:(lia)) as Hlt.
  replace (Datatypes.S k) with (k + 1)%nat in Hlt by lia. lra.
Qed.

(** ** The bracket search *)

Lemma midpoint_between (ilo ihi : nat) :
  (ilo + 1 < ihi)%nat ->
  (ilo < (ihi + ilo) / 2 < ihi)%nat.
Proof.
  intro H. split.
  - apply Nat.div_le_lower_bound; lia.
  - apply Nat.Div0.div_lt_upper_bound; lia.
Qed.

(** The loop invariant of the bisection: the lower end is the start of the
    range or a point at or below [x], the upper end is the end of the range
    or a point above [x]; the loop ends with the two ends adjacent. *)
Lemma bsearch_loop_spec (x_array : list Q) (x : Q) :
  forall fuel ilo ihi,
    (ihi - ilo <= fuel)%nat -> (ilo < ihi)%nat -> (ihi <= length x_array)%nat ->
    exists L, bsearch_loop fuel x_array x ilo ihi = Ok L /\
              (ilo <= L < ihi)%nat /\
              (L = ilo \/ nth L x_array 0 <= x) /\
              (Datatypes.S L = ihi \/ x < nth (Datatypes.S L) x_array 0).
Proof.
  induction fuel as [|f IH]; intros ilo ihi Hf Hlt Hlen.
  - exists ilo. simpl.
    replace (ilo + 1 <? ihi)%nat with false
      by (symmetry; apply Nat.ltb_ge; lia).
    split; [reflexivity|]. split; [lia|]. split; left; lia.
  - cbn [bsearch_loop]. destruct (ilo + 1 <? ihi)%nat eqn:E.
    + apply Nat.ltb_lt in E.
      destruct (midpoint_between ilo ihi E) as [Hlo Hhi].
      set (i := ((ihi + ilo) / 2)%nat) in *.
      rewrite (read_nth x_array i 0) by lia. cbn [bind].
      case_Qltb x (nth i x_array 0) Hx.
      * destruct (IH ilo i) as [L [HL [Hr [Ha Hb]]]]; try lia.
        exists L. repeat split; auto; try lia.
        destruct Hb as [Hb|Hb]; [right; now rewrite Hb | now right].
      * destruct (IH i ihi) as [L [HL [Hr [Ha Hb]]]]; try lia.
        exists L. repeat split; auto; try lia.
        destruct Ha as [Ha|Ha]; [right; now rewrite Ha | now right].
    + apply Nat.ltb_ge in E. exists ilo.
      split; [reflexivity|]. split; [lia|]. split; left; lia.
Qed.

Lemma gsl_interp_bsearch_spec (x_array : list Q) (x : Q) (lo hi : nat) :
  (lo < hi)%nat -> (hi <= length x_array)%nat ->
  exists L, gsl_interp_bsearch x_array x lo hi = Ok L /\
            (lo <= L < hi)%nat /\
            (L = lo \/ nth L x_array 0 <= x) /\
            (Datatypes.S L = hi \/ x < nth (Datatypes.S L) x_array 0).
Proof.
  intros. unfold gsl_interp_bsearch. apply bsearch_loop_spec; auto.
Qed.

(** ** The linear policy *)

(** With a sorted grid the outcome of the bisection is the clamped bracket. *)
Lemma bracket_of_search (xs : list Q) (x : Q) (L : nat) :
  strictly_increasing xs -> (2 <= length xs)%nat ->
  (0 <= L < length xs - 1)%nat ->
  (L = 0%nat \/ nth L xs 0 <= x) ->
  (Datatypes.S L = (length xs - 1)%nat \/ x < nth (Datatypes.S L) xs 0) ->
  bracket_clamped xs x L.
Proof.
  intros Hs Hn HL Ha Hb. unfold bracket_clamped. cbv zeta.
  split; [lia|]. split; [|split].
  - intro Hx. destruct Ha as [Ha|Ha]; [assumption|].
    pose proof (strictly_increasing_le xs Hs 0 L ltac:(lia) ltac:(lia)). lra.
  - intro Hx. destruct Hb as [Hb|Hb]; [lia|].
    pose proof (strictly_increasing_le xs Hs (Datatypes.S L) (length xs - 1)
                  ltac:(lia) ltac:(lia)). lra.
  - intros H0 Hn1. split.
    + destruct Ha as [->|Ha]; assumption.
    + destruct Hb as [->|Hb]; assumption.
Qed.

(** The clamped bracket is determined by the grid and the coordinate. *)
Lemma bracket_clamped_unique (xs : list Q) (x : Q) (L L' : nat) :
  strictly_increasing xs -> (2 <= length xs)%nat ->
  bracket_clamped xs x L -> bracket_clamped xs x L' -> L = L'.
Proof.
  intros Hs Hn (HL & Hlo & Hhi & Hin) (HL' & Hlo' & Hhi' & Hin').
  destruct (Qlt_le_dec x (nth 0 xs 0)) as [H0|H0].
  - rewrite (Hlo H0), (Hlo' H0). reflexivity.
  - destruct (Qlt_le_dec x (nth (length xs - 1) xs 0)) as [H1|H1].
    + destruct (Hin H0 H1) as [Ha Hb]. destruct (Hin' H0 H1) as [Ha' Hb'].
      assert (L < Datatypes.S L')%nat
        by (apply (strictly_increasing_index xs Hs); try lia; lra).
      assert (L' < Datatypes.S L)%nat
        by (apply (strictly_increasing_index xs Hs); try lia; lra).
      lia.
    + rewrite (Hhi H1), (Hhi' H1). reflexivity.
Qed.

Lemma linear_entry_valid (xs : list Q) (x : Q) (L R : nat) (alpha : Q) :
  strictly_increasing xs -> (2 <= length xs)%nat ->
  linear_entry xs x L R alpha -> valid_entry (length xs) L R alpha.
Proof.
  intros Hs Hn ((HL & _) & HR1 & HR0 & Hreg & Hext & Hsame).
  destruct (Qlt_le_dec (nth L xs 0) x) as [Hx|Hx].
  - pose proof (HR1 Hx) as ->.
    assert (Hne : L <> (L + 1)%nat) by lia.
    repeat split; try lia.
    + destruct (Qlt_le_dec (nth (L + 1) xs 0) x) as [Hr|Hr].
      * rewrite (Hext Hne Hr). lra.
      * rewrite (Hreg Hne Hr). apply Qdiv_weight; lra.
    + destruct (Qlt_le_dec (nth (L + 1) xs 0) x) as [Hr|Hr].
      * rewrite (Hext Hne Hr). lra.
      * rewrite (Hreg Hne Hr). apply Qdiv_weight; lra.
  - pose proof (HR0 Hx) as ->.
    rewrite (Hsame eq_refl). repeat split; try lia; lra.
Qed.

Lemma assert_entry_ok (n L R : nat) (alpha : Q) :
  valid_entry n L R alpha -> assert_entry n L R alpha = Ok tt.
Proof.
  intros (HL & HR & H0 & H1). unfold assert_entry.
  rewrite (proj2 (Nat.ltb_lt _ _) HL), (proj2 (Nat.ltb_lt _ _) HR).
  rewrite (proj2 (Qleb_true _ _) H0), (proj2 (Qleb_true _ _) H1).
  reflexivity.
Qed.

(** One iteration of [init_linear] stores the entry of its output point. *)
Lemma init_linear_body_ok (input_x output_x : list Q) (i : nat)
      (I : Interpolation) :
  strictly_increasing input_x -> (2 <= length input_x)%nat ->
  (i < length output_x)%nat ->
  length (m_left I) = length output_x ->
  length (m_right I) = length output_x ->
  length (m_alpha I) = length output_x ->
  exists L R alpha,
    init_linear_body input_x output_x i I =
      Ok {| m_left := update (m_left I) i L;
            m_right := update (m_right I) i R;
            m_alpha := update (m_alpha I) i alpha |} /\
    linear_entry input_x (nth i output_x 0) L R alpha.
Proof.
  intros Hs Hn Hi Hl Hr Ha.
  unfold init_linear_body.
  rewrite (read_nth output_x i 0) by assumption. cbn [bind].
  set (x := nth i output_x 0).
  destruct (gsl_interp_bsearch_spec input_x x 0 (length input_x - 1))
    as [L [HL [Hrange [Hlo Hhi]]]]; try lia.
  rewrite HL. cbn [bind].
  rewrite (read_nth input_x L 0) by lia. cbn [bind].
  pose proof (bracket_of_search input_x x L Hs Hn Hrange Hlo Hhi) as Hbr.
  set (R := if Qltb (nth L input_x 0) x then (L + 1)%nat else L).
  rewrite (write_in (m_left I) i L) by lia. cbn [bind].
  rewrite (write_in (m_right I) i R) by lia. cbn [bind].
  assert (HR : (R = L \/ R = L + 1)%nat)
    by (subst R; destruct (Qltb (nth L input_x 0) x); auto).
  assert (Hent : exists alpha,
             (if negb (L =? R)%nat
              then xR <- read input_x R ;;
                   (if Qleb x xR
                    then Ok ((x - nth L input_x 0) / (xR - nth L input_x 0))
                    else Ok 1)
              else Ok 0) = Ok alpha /\
             linear_entry input_x x L R alpha).
  { subst R. case_Qltb (nth L input_x 0) x Hx.
    - replace (L =? L + 1)%nat with false
        by (symmetry; apply Nat.eqb_neq; lia).
      cbn [negb]. rewrite (read_nth input_x (L + 1) 0) by lia. cbn [bind].
      case_Qleb x (nth (L + 1) input_x 0) Hxr.
      + eexists. split; [reflexivity|].
        split; [assumption|]. repeat split; intros; try lia; try lra; auto.
      + eexists. split; [reflexivity|].
        split; [assumption|]. repeat split; intros; try lia; try lra; auto.
    - rewrite Nat.eqb_refl. cbn [negb].
      eexists. split; [reflexivity|].
      split; [assumption|]. repeat split; intros; try lia; try lra; auto. }
  destruct Hent as [alpha [Halpha Hent]].
  rewrite Halpha. cbn [bind].
  rewrite (write_in (m_alpha I) i alpha) by lia. cbn [bind].
  rewrite (assert_entry_ok _ _ _ _ (linear_entry_valid _ _ _ _ _ Hs Hn Hent)).
  cbn [bind]. exists L, R, alpha. split; [reflexivity | assumption].
Qed.

Lemma length_resize (n : nat) :
  length (m_left (resize n)) = n /\
  length (m_right (resize n)) = n /\
  length (m_alpha (resize n)) = n.
Proof. unfold resize; simpl. now rewrite !repeat_length. Qed.

Lemma filled_upto_step (P : nat -> nat -> nat -> Q -> Prop) (m k : nat)
      (I : Interpolation) (L R : nat) (alpha : Q) :
  (k < m)%nat -> filled_upto P m k I -> P k L R alpha ->
  filled_upto P m (Datatypes.S k)
              {| m_left := update (m_left I) k L;
                 m_right := update (m_right I) k R;
                 m_alpha := update (m_alpha I) k alpha |}.
Proof.
  intros Hk (Hl & Hr & Ha & Hfill) HP. unfold filled_upto. cbn.
  rewrite !length_update. repeat split; try assumption.
  intros i Hi. destruct (Nat.eq_dec i k) as [->|Hne].
  - rewrite !nth_update_eq by lia. assumption.
  - rewrite !nth_update_ne by lia. apply Hfill. lia.
Qed.

Lemma init_linear_ok (input_x output_x : list Q) :
  strictly_increasing input_x -> (2 <= length input_x)%nat ->
  exists I, init_linear input_x output_x = Ok I /\
            linear_tables input_x output_x I.
Proof.
  intros Hs Hn. unfold init_linear.
  replace (length input_x <? 2)%nat with false
    by (symmetry; apply Nat.ltb_ge; lia).
  rewrite (check_increasing_ok input_x Hs). cbn [bind].
  set (m := length output_x).
  destruct (length_resize m) as (Hl & Hr & Ha).
  destruct (for_loop_inv
              (filled_upto (fun i => linear_entry input_x (nth i output_x 0)) m)
              (init_linear_body input_x output_x) m 0%nat (resize m))
    as [I [HI Hinv]].
  - split; [|split; [|split]]; auto. intros ? ?. lia.
  - intros k J Hk (Hl' & Hr' & Ha' & Hfill).
    destruct (init_linear_body_ok input_x output_x k J Hs Hn)
      as (L & R & alpha & Hbody & Hent); try (fold m; lia).
    eexists. split; [exact Hbody|].
    apply filled_upto_step; [lia | | exact Hent].
    exact (conj Hl' (conj Hr' (conj Ha' Hfill))).
  - exists I. split; [assumption|]. exact Hinv.
Qed.

(** C1. For a strictly increasing [input_x] of at least two points and any
    [output_x], [init_linear] succeeds and stores, for every output
    coordinate [x]: the bracket index [L] at or below [x] clamped to
    [0 .. size-2]; [R = L+1] when [x > input_x[L]] and [R = L] otherwise;
    the weight [(x - input_x[L]) / (input_x[R] - input_x[L])] when [L <> R]
    and [x <= input_x[R]], [1] when [L <> R] and [x > input_x[R]], and [0]
    when [L = R].  On [input_x = [0,1,2,3]] and
    [output_x = [-1, 0, 1.5, 3, 5]] the tables are [left = [0,0,1,2,2]],
    [right = [0,0,2,3,3]] and [alpha = [0,0,0.5,1,1]], and interpolating
    [[v0,v1,v2,v3]] returns the blends
    [[v0 + 0*(v0-v0), v0 + 0*(v0-v0), v1 + 0.5*(v2-v1), v2 + 1*(v3-v2),
      v2 + 1*(v3-v2)]]: these are [[v0, v0, (v1+v2)/2, v3, v3]] in exact
    arithmetic, and in binary64 the routine returns the same blends, each
    operation rounded, for all doubles [v0 .. v3]. *)
Theorem C1_init_linear_entries :
  (forall input_x output_x,
      strictly_increasing input_x -> (2 <= length input_x)%nat ->
      exists I, init_linear input_x output_x = Ok I /\
                linear_tables input_x output_x I) /\
  (forall v0 v1 v2 v3,
      exists I,
        init_linear [0; 1; 2; 3] [-(1); 0; 3 # 2; 3; 5] = Ok I /\
        m_left I = [0; 0; 1; 2; 2]%nat /\
        m_right I = [0; 0; 2; 3; 3]%nat /\
        m_alpha I = [0; 0; 1 # 2; 1; 1] /\
        interpolate I [v0; v1; v2; v3] =
          Ok [v0 + 0 * (v0 - v0); v0 + 0 * (v0 - v0);
              v1 + (1 # 2) * (v2 - v1);
              v2 + 1 * (v3 - v2); v2 + 1 * (v3 - v2)]) /\
  (forall v0 v1 v2 v3 : float,
      exists I,
        Binary64.init_linear [0; 1; 2; 3]%float [-1; 0; 1.5; 3; 5]%float =
          Ok I /\
        Binary64.m_alpha I = [0; 0; 0.5; 1; 1]%float /\
        Binary64.interpolate I [v0; v1; v2; v3] =
          Ok [v0 + 0 * (v0 - v0); v0 + 0 * (v0 - v0);
              v1 + 0.5 * (v2 - v1);
              v2 + 1 * (v3 - v2); v2 + 1 * (v3 - v2)]%float).
Proof.
  split; [exact init_linear_ok|]. split.
  - intros v0 v1 v2 v3.
    eexists. split; [vm_compute; reflexivity|].
    cbn [m_left m_right m_alpha].
    repeat (split; [reflexivity|]).
    cbv [interpolate for_loop bind read write update nth_error length
         m_left m_right m_alpha repeat Nat.ltb Nat.leb].
    reflexivity.
  - intros v0 v1 v2 v3.
    eexists. split; [vm_compute; reflexivity|].
    cbn [Binary64.m_left Binary64.m_right Binary64.m_alpha].
    split; [reflexivity|].
    cbv [Binary64.interpolate for_loop bind read write update nth_error
         length Binary64.m_left Binary64.m_right Binary64.m_alpha repeat
         Nat.ltb Nat.leb].
    reflexivity.
Qed.

(** In binary64 the blends of the scenario are not always
    [[v0, v0, (v1+v2)/2, v3, v3]]: for the values [[0, 0.1, 0.2, 0.9]] the
    output points 3 and 5 get [0.2 + 1.0 * (0.9 - 0.2) = 0.8999999999999999],
    which is below [v3 = 0.9]. *)
Lemma C1_scenario_values_counterexample :
  exists I r,
    Binary64.init_linear [0; 1; 2; 3]%float [-1; 0; 1.5; 3; 5]%float =
      Ok I /\
    Binary64.interpolate I [0; 0.1; 0.2; 0.9]%float = Ok r /\
    nth 3 r 0%float = 0.89999999999999991%float /\
    nth 4 r 0%float = 0.89999999999999991%float /\
    (nth 3 r 0 <? 0.9)%float = true.
Proof.
  eexists. eexists. split; [vm_compute; reflexivity|].
  split; [vm_compute; reflexivity|].
  split; [reflexivity|]. split; reflexivity.
Qed.

Lemma small_grid_increasing : strictly_increasing [0; 1; 2; 3].
Proof.
  intros i Hi. simpl in Hi.
  destruct i as [|[|[|i]]]; simpl; try reflexivity; lia.
Qed.

Lemma C1_init_linear_entries_witness :
  exists I, init_linear [0; 1; 2; 3] [-(1); 0; 3 # 2; 3; 5] = Ok I /\
            linear_tables [0; 1; 2; 3] [-(1); 0; 3 # 2; 3; 5] I.
Proof.
  apply (proj1 C1_init_linear_entries [0; 1; 2; 3] [-(1); 0; 3 # 2; 3; 5]).
  - exact small_grid_increasing.
  - simpl. lia.
Defined.

(** ** The postcondition of the policies *)

Lemma init_linear_valid (input_x output_x : list Q) :
  strictly_increasing input_x -> (2 <= length input_x)%nat ->
  exists I, init_linear input_x output_x = Ok I /\
            valid_tables (length input_x) (length output_x) I.
Proof.
  intros Hs Hn.
  destruct (init_linear_ok input_x output_x Hs Hn)
    as (I & HI & Hl & Hr & Ha & Hent).
  exists I. split; [assumption|].
  split; [|split; [|split]]; try assumption.
  intros i Hi.
  apply (linear_entry_valid input_x (nth i output_x 0)); auto.
Qed.

(** Nearest neighbour: the brackets of the linear policy, the weight
    snapped to [0] or [1]. *)
Lemma NearestNeighbor_init_valid (input_x output_x : list Q) :
  strictly_increasing input_x -> (2 <= length input_x)%nat ->
  exists I, NearestNeighbor.init input_x output_x = Ok I /\
            valid_tables (length input_x) (length output_x) I /\
            forall i, (i < length output_x)%nat ->
                      nth i (m_alpha I) 0 = 0 \/ nth i (m_alpha I) 0 = 1.
Proof.
  intros Hs Hn. unfold NearestNeighbor.init.
  destruct (init_linear_valid input_x output_x Hs Hn)
    as (I & HI & Hl & Hr & Ha & Hent).
  rewrite HI. cbn [bind].
  set (m := length output_x) in *.
  destruct (for_loop_inv
              (fun k a => length a = m /\
                          forall j, (j < k)%nat ->
                                    nth j a 0 = 0 \/ nth j a 0 = 1)
              (fun j alpha =>
                 aj <- read alpha j ;;
                 write alpha j (if Qltb (1 # 2) aj then 1 else 0))
              (length (m_alpha I)) 0%nat (m_alpha I))
    as [a [Hloop [Hlen Hsnap]]].
  - split; [assumption|]. intros ? ?. lia.
  - intros k b Hk [Hb Hdone].
    rewrite (read_nth b k 0) by lia. cbn [bind].
    rewrite write_in by lia.
    eexists. split; [reflexivity|].
    rewrite length_update. split; [assumption|].
    intros j Hj. destruct (Nat.eq_dec j k) as [->|Hne].
    + rewrite nth_update_eq by lia.
      destruct (Qltb (1 # 2) (nth k b 0)); auto.
    + rewrite nth_update_ne by lia. apply Hdone. lia.
  - rewrite Hloop. cbn [bind]. eexists. split; [reflexivity|].
    rewrite Ha in Hsnap. cbn [Nat.add] in Hsnap.
    split.
    + unfold valid_tables. cbn [m_left m_right m_alpha].
      split; [|split; [|split]]; try assumption.
      intros i Hi. destruct (Hent i Hi) as (HL & HR & _).
      split; [|split]; try assumption.
      destruct (Hsnap i Hi) as [-> | ->]; lra.
    + cbn [m_alpha]. exact Hsnap.
Qed.

Lemma PiecewiseConstant_init_body_ok (input_x output_x : list Q) (i : nat)
      (I : Interpolation) :
  (2 <= length input_x)%nat -> (i < length output_x)%nat ->
  length (m_left I) = length output_x ->
  length (m_right I) = length output_x ->
  length (m_alpha I) = length output_x ->
  exists L,
    PiecewiseConstant.init_body input_x output_x i I =
      Ok {| m_left := update (m_left I) i L;
            m_right := update (m_right I) i L;
            m_alpha := update (m_alpha I) i 0 |} /\
    (L < length input_x - 1)%nat.
Proof.
  intros Hn Hi Hl Hr Ha. unfold PiecewiseConstant.init_body.
  rewrite (read_nth output_x i 0) by assumption. cbn [bind].
  destruct (gsl_interp_bsearch_spec input_x (nth i output_x 0) 0
              (length input_x - 1)) as [L [HL [Hrange _]]]; try lia.
  rewrite HL. cbn [bind].
  rewrite !write_in by lia. cbn [bind].
  rewrite assert_entry_ok by (repeat split; try lia; lra).
  cbn [bind]. exists L. split; [reflexivity | lia].
Qed.

(** Piecewise constant: [left = right] and the weight is [0]. *)
Lemma PiecewiseConstant_init_valid (input_x output_x : list Q) :
  strictly_increasing input_x -> (2 <= length input_x)%nat ->
  exists I, PiecewiseConstant.init input_x output_x = Ok I /\
            valid_tables (length input_x) (length output_x) I /\
            forall i, (i < length output_x)%nat ->
                      nth i (m_left I) 0%nat = nth i (m_right I) 0%nat /\
                      nth i (m_alpha I) 0 = 0.
Proof.
  intros Hs Hn. unfold PiecewiseConstant.init.
  replace (length input_x <? 2)%nat with false
    by (symmetry; apply Nat.ltb_ge; lia).
  rewrite (check_increasing_ok input_x Hs). cbn [bind].
  set (m := length output_x).
  destruct (length_resize m) as (Hl & Hr & Ha).
  destruct (for_loop_inv
              (filled_upto (fun _ L R alpha =>
                              (L < length input_x - 1)%nat /\ R = L /\
                              alpha = 0) m)
              (PiecewiseConstant.init_body input_x output_x) m 0%nat
              (resize m))
    as [I [HI (Hl' & Hr' & Ha' & Hfill)]].
  - split; [|split; [|split]]; auto. intros ? ?. lia.
  - intros k J Hk (Hl' & Hr' & Ha' & Hfill).
    destruct (PiecewiseConstant_init_body_ok input_x output_x k J Hn)
      as (L & Hbody & HL); try (fold m; lia).
    eexists. split; [exact Hbody|].
    apply filled_upto_step; [lia | | auto].
    exact (conj Hl' (conj Hr' (conj Ha' Hfill))).
  - exists I. split; [assumption|]. cbn [Nat.add] in Hfill. split.
    + split; [|split; [|split]]; try assumption.
      intros i Hi. destruct (Hfill i Hi) as (HL & HR & Halpha).
      rewrite HR, Halpha. split; [|split]; try lia; lra.
    + intros i Hi. destruct (Hfill i Hi) as (HL & HR & Halpha). auto.
Qed.

(** ** The periodic policy *)

(** At the first grid point the periodic policy takes the first bracket
    with weight [0]. *)
Lemma periodic_entry_first (input_x : list Q) (period : Q) :
  strictly_increasing input_x -> (2 <= length input_x)%nat ->
  exists alpha,
    LinearPeriodic.entry input_x period (nth 0 input_x 0) =
      Ok (0%nat, 1%nat, alpha) /\ alpha == 0.
Proof.
  intros Hs Hn. unfold LinearPeriodic.entry.
  rewrite (read_nth input_x 0 0) by lia. cbn [bind].
  set (x0 := nth 0 input_x 0).
  case_Qltb x0 x0 Hx; [lra|].
  destruct (gsl_interp_bsearch_spec input_x x0 0 (length input_x))
    as [L [HL [Hrange [Hlo Hhi]]]]; try lia.
  assert (L = 0%nat) as ->.
  { destruct Hlo as [Hlo|Hlo]; [assumption|].
    destruct (Nat.eq_dec L 0) as [|Hne]; [assumption|].
    pose proof (strictly_increasing_lt input_x Hs 0 L ltac:(lia) ltac:(lia)).
    fold x0 in H. lra. }
  rewrite HL. cbn [bind].
  replace (0 + 1 <? length input_x)%nat with true
    by (symmetry; apply Nat.ltb_lt; lia).
  cbn [Nat.add].
  rewrite (read_nth input_x 0 0) by lia. cbn [bind].
  rewrite (read_nth input_x 1 0) by lia. cbn [bind].
  cbn [Nat.ltb Nat.leb]. fold x0.
  eexists. split; [reflexivity|].
  pose proof (Hs 0%nat ltac:(lia)) as H01. fold x0 in H01.
  field. lra.
Qed.

(** One period after the first grid point it takes the wrap-around bracket
    (last point, first point), with a weight that is [1] in exact
    arithmetic. *)
Lemma periodic_entry_period (input_x : list Q) (period : Q) :
  strictly_increasing input_x -> (2 <= length input_x)%nat ->
  nth (length input_x - 1) input_x 0 < nth 0 input_x 0 + period ->
  exists alpha,
    LinearPeriodic.entry input_x period (nth 0 input_x 0 + period) =
      Ok ((length input_x - 1)%nat, 0%nat, alpha) /\ alpha == 1.
Proof.
  intros Hs Hn Hp. unfold LinearPeriodic.entry.
  rewrite (read_nth input_x 0 0) by lia. cbn [bind].
  set (x0 := nth 0 input_x 0) in *.
  set (n := length input_x) in *.
  pose proof (strictly_increasing_lt input_x Hs 0 (n - 1)
                ltac:(lia) ltac:(lia)) as Hlast.
  fold x0 in Hlast.
  case_Qltb (x0 + period) x0 Hx; [lra|].
  destruct (gsl_interp_bsearch_spec input_x (x0 + period) 0 n)
    as [L [HL [Hrange [Hlo Hhi]]]]; try lia.
  assert (L = n - 1)%nat as ->.
  { destruct Hhi as [Hhi|Hhi]; [lia|].
    destruct (Nat.eq_dec L (n - 1)) as [|Hne]; [assumption|].
    pose proof (strictly_increasing_le input_x Hs (Datatypes.S L) (n - 1)
                  ltac:(lia) ltac:(lia)).
    lra. }
  rewrite HL. cbn [bind].
  replace (n - 1 + 1 <? n)%nat with false
    by (symmetry; apply Nat.ltb_ge; lia).
  rewrite (read_nth input_x (n - 1) 0) by lia. cbn [bind].
  rewrite (read_nth input_x 0 0) by lia. cbn [bind].
  replace (n - 1 <? 0)%nat with false
    by (symmetry; apply Nat.ltb_ge; lia).
  fold x0.
  case_Qltb x0 (x0 + period) Hx0; [|lra].
  eexists. split; [reflexivity|].
  field. lra.
Qed.

(** In exact arithmetic periodic-linear interpolation is continuous across
    the period boundary: the queries [input_x[0]] and [input_x[0] + period]
    get weights equal to [0] and to [1], and the same value. *)
Lemma periodic_wrap_continuity_exact (input_x values : list Q) (period : Q) :
  strictly_increasing input_x -> (2 <= length input_x)%nat ->
  nth (length input_x - 1) input_x 0 < nth 0 input_x 0 + period ->
  length values = length input_x ->
  exists I a b,
    LinearPeriodic.init input_x
      [nth 0 input_x 0; nth 0 input_x 0 + period] period = Ok I /\
    interpolate I values = Ok [a; b] /\
    a == b.
Proof.
  intros Hs Hn Hp Hv.
  destruct (periodic_entry_first input_x period Hs Hn) as [a0 [He0 Ha0]].
  destruct (periodic_entry_period input_x period Hs Hn Hp) as [a1 [He1 Ha1]].
  unfold LinearPeriodic.init.
  replace (length input_x <? 2)%nat with false
    by (symmetry; apply Nat.ltb_ge; lia).
  rewrite (check_increasing_ok input_x Hs).
  cbn [bind length for_loop].
  unfold LinearPeriodic.init_body at 1.
  cbn [read nth_error bind]. rewrite He0. cbn [bind].
  rewrite assert_entry_ok by (repeat split; try lia; lra).
  cbn [bind resize m_left m_right m_alpha repeat write length Nat.ltb Nat.leb
       update].
  unfold LinearPeriodic.init_body.
  cbn [read nth_error bind m_left m_right m_alpha]. rewrite He1. cbn [bind].
  rewrite assert_entry_ok by (repeat split; try lia; lra).
  cbn [bind write length Nat.ltb Nat.leb update].
  eexists. eexists. eexists. split; [reflexivity|].
  unfold interpolate.
  cbn [m_left m_right m_alpha length for_loop repeat bind read nth_error].
  rewrite (read_nth values 0 0) by lia. cbn [bind].
  rewrite (read_nth values 1 0) by lia. cbn [bind].
  rewrite (read_nth values (length input_x - 1) 0) by lia. cbn [bind].
  cbn [write length Nat.ltb Nat.leb update].
  split; [reflexivity|].
  rewrite Ha0, Ha1. ring.
Qed.

(** C7. In binary64 the continuity across the period boundary is lost, and
    with it the constructor.  On the grid [[0.1, 0.2]] with period [0.9]
    (strictly increasing, [input_x[last] < input_x[0] + period]) the query
    [input_x[0]] gets the bracket (0, 1) with weight [0], and the query
    [input_x[0] + period] gets the wrap-around bracket (1, 0) with the
    weight [(x - x_l) / ((period - x_l) + x0) = 1.0000000000000002]: the
    routine's own [assert(alpha >= 0.0 and alpha <= 1.0)] fails, so
    [LinearPeriodic::init] does not return.  With the assertion compiled
    out, the two blends of the values [[10, 20]] are [10] and
    [9.999999999999998]. *)
Theorem C7_periodic_wrap_weight_exceeds_one :
  ((0.1 <? 0.2) = true /\ (0.2 <? 0.1 + 0.9) = true /\
   Binary64.LinearPeriodic.entry [0.1; 0.2] 0.9 0.1 = Ok (0%nat, 1%nat, 0) /\
   Binary64.LinearPeriodic.entry [0.1; 0.2] 0.9 (0.1 + 0.9) =
     Ok (1%nat, 0%nat, 1.0000000000000002) /\
   (1 <? 1.0000000000000002) = true /\
   Binary64.LinearPeriodic.init [0.1; 0.2] [0.1; 0.1 + 0.9] 0.9 =
     Raise AssertionFailure /\
   10 + 0 * (20 - 10) = 10 /\
   20 + 1.0000000000000002 * (10 - 20) = 9.9999999999999982)%float.
Proof.
  split; [reflexivity|]. split; [reflexivity|].
  split; [vm_compute; reflexivity|]. split; [vm_compute; reflexivity|].
  split; [reflexivity|]. split; [vm_compute; reflexivity|].
  split; reflexivity.
Qed.

Lemma two_point_grid_increasing : strictly_increasing [0; 1].
Proof.
  intros i Hi. simpl in Hi.
  destruct i as [|i]; simpl; try reflexivity; lia.
Qed.

(** ** Evaluation *)

(** With valid tables [interpolate] returns one blend per output point. *)
Lemma interpolate_ok (I : Interpolation) (values : list Q) (m : nat) :
  valid_tables (length values) m I ->
  exists r, interpolate I values = Ok r /\
            length r = m /\
            forall k, (k < m)%nat ->
                      nth k r 0 =
                        nth (nth k (m_left I) 0%nat) values 0 +
                        nth k (m_alpha I) 0 *
                          (nth (nth k (m_right I) 0%nat) values 0 -
                           nth (nth k (m_left I) 0%nat) values 0).
Proof.
  intros (Hl & Hr & Ha & Hvalid). unfold interpolate. rewrite Ha.
  destruct (for_loop_inv
              (fun k r =>
                 length r = m /\
                 forall j, (j < k)%nat ->
                           nth j r 0 =
                             nth (nth j (m_left I) 0%nat) values 0 +
                             nth j (m_alpha I) 0 *
                               (nth (nth j (m_right I) 0%nat) values 0 -
                                nth (nth j (m_left I) 0%nat) values 0))
              (fun k result =>
                 L <- read (m_left I) k ;;
                 R <- read (m_right I) k ;;
                 Alpha <- read (m_alpha I) k ;;
                 vL <- read values L ;;
                 vR <- read values R ;;
                 write result k (vL + Alpha * (vR - vL)))
              m 0%nat (repeat 0 m)) as [r [Hloop [Hlen Hval]]].
  - split; [apply repeat_length|]. intros ? ?. lia.
  - intros k t Hk [Ht Hdone].
    destruct (Hvalid k ltac:(lia)) as (HL & HR & _).
    rewrite (read_nth (m_left I) k 0%nat) by lia. cbn [bind].
    rewrite (read_nth (m_right I) k 0%nat) by lia. cbn [bind].
    rewrite (read_nth (m_alpha I) k 0) by lia. cbn [bind].
    rewrite (read_nth values _ 0 HL). cbn [bind].
    rewrite (read_nth values _ 0 HR). cbn [bind].
    rewrite write_in by lia.
    eexists. split; [reflexivity|].
    rewrite length_update. split; [assumption|].
    intros j Hj. destruct (Nat.eq_dec j k) as [->|Hne].
    + now rewrite nth_update_eq by lia.
    + rewrite nth_update_ne by lia. apply Hdone. lia.
  - exists r. auto.
Qed.

(** The entry the linear policy stores for a grid point queried on its own
    grid: the bracket [(i, i)] with weight [0] for every point but the last,
    the last bracket with weight [1] for the last point. *)
Lemma linear_entry_at_grid_point (xs : list Q) (i L R : nat) (alpha : Q) :
  strictly_increasing xs -> (2 <= length xs)%nat -> (i < length xs)%nat ->
  linear_entry xs (nth i xs 0) L R alpha ->
  ((i < length xs - 1)%nat -> L = i /\ R = i /\ alpha = 0) /\
  (i = (length xs - 1)%nat ->
   L = (length xs - 2)%nat /\ R = (length xs - 1)%nat /\ alpha == 1).
Proof.
  intros Hs Hn Hi (Hbr & HR1 & HR0 & Hreg & Hext & Hsame).
  set (n := length xs) in *.
  split.
  - (* any other grid point: the bracket that starts there, weight 0 *)
    intro Hne.
    assert (L = i).
    { apply (bracket_clamped_unique xs (nth i xs 0)); auto.
      pose proof (strictly_increasing_le xs Hs 0 i ltac:(lia) ltac:(lia)).
      pose proof (strictly_increasing_lt xs Hs i (n - 1) ltac:(lia)
                    ltac:(lia)).
      pose proof (Hs i ltac:(lia)).
      unfold bracket_clamped. fold n. cbv zeta.
      split; [lia|]. split; [intro; lra|]. split; [intro; lra|].
      intros _ _. split; [apply Qle_refl | assumption]. }
    subst L.
    pose proof (HR0 (Qle_refl _)) as ->.
    split; [reflexivity|]. split; [reflexivity|]. now apply Hsame.
  - (* the last grid point: the last bracket, weight 1 *)
    intros ->.
    assert (L = n - 2)%nat as ->.
    { destruct Hbr as (_ & _ & Hhi & _). apply Hhi. apply Qle_refl. }
    pose proof (Hs (n - 2)%nat ltac:(lia)) as Hlt.
    replace (Datatypes.S (n - 2)) with (n - 1)%nat in Hlt by lia.
    pose proof (HR1 Hlt) as ->.
    replace (n - 2 + 1)%nat with (n - 1)%nat in * by lia.
    split; [reflexivity|]. split; [reflexivity|].
    rewrite Hreg by (try lia; apply Qle_refl).
    field. lra.
Qed.

(** X1. Self-interpolation.  The linear interpolation of a non-empty
    strictly increasing grid onto itself succeeds; every grid point but the
    last comes back as itself (bracket [(k, k)], weight [0]), and the last
    one comes back as the blend
    [x[n-2] + alpha * (x[n-1] - x[n-2])] of the last bracket with a weight
    [alpha] equal to [1]: that is [x[n-1]] in exact arithmetic, and
    [x[n-1]] up to the rounding of the difference and of the sum in
    binary64. *)
Theorem self_interpolation_values (input_x : list Q) :
  strictly_increasing input_x -> input_x <> [] ->
  exists I r,
    init_linear input_x input_x = Ok I /\
    interpolate I input_x = Ok r /\
    length r = length input_x /\
    (forall k, (k < length input_x)%nat ->
               (k < length input_x - 1)%nat \/ length input_x = 1%nat ->
               nth k r 0 == nth k input_x 0) /\
    ((2 <= length input_x)%nat ->
     exists alpha,
       alpha == 1 /\
       nth (length input_x - 1) r 0 =
         nth (length input_x - 2) input_x 0 +
         alpha * (nth (length input_x - 1) input_x 0 -
                  nth (length input_x - 2) input_x 0)).
Proof.
  intros Hs Hne.
  destruct input_x as [|a [|b rest]]; [congruence | |].
  - (* a single point: the trivial case *)
    eexists. eexists. split; [reflexivity|]. split; [reflexivity|].
    split; [reflexivity|]. split.
    + intros k Hk _. simpl in Hk.
      assert (k = 0)%nat as -> by lia. cbn. ring.
    + intro H. simpl in H. lia.
  - set (xs := a :: b :: rest) in *.
    assert (Hn : (2 <= length xs)%nat) by (simpl; lia).
    destruct (init_linear_ok xs xs Hs Hn) as (I & HI & Htab).
    assert (Hvalid : valid_tables (length xs) (length xs) I).
    { destruct Htab as (Hl & Hr & Ha & Hent).
      split; [|split; [|split]]; try assumption.
      intros i Hi. apply (linear_entry_valid xs (nth i xs 0)); auto. }
    destruct (interpolate_ok I xs (length xs) Hvalid) as (r & Hr & Hlen & Hval).
    exists I, r. split; [assumption|]. split; [assumption|].
    split; [assumption|].
    destruct Htab as (_ & _ & _ & Hent).
    split.
    + intros k Hk [Hlow|Hone]; [|lia].
      destruct (linear_entry_at_grid_point xs k _ _ _ Hs Hn Hk (Hent k Hk))
        as [Hin _].
      destruct (Hin Hlow) as (HL & HR & Ha).
      rewrite (Hval k Hk), HL, HR, Ha. ring.
    + intros _.
      assert (Hk : (length xs - 1 < length xs)%nat) by lia.
      destruct (linear_entry_at_grid_point xs (length xs - 1) _ _ _ Hs Hn Hk
                  (Hent _ Hk)) as [_ Hlast].
      destruct (Hlast eq_refl) as (HL & HR & Ha).
      exists (nth (length xs - 1) (m_alpha I) 0). split; [exact Ha|].
      rewrite (Hval _ Hk), HL, HR. reflexivity.
Qed.

Lemma self_interpolation_values_witness :
  exists I r,
    init_linear [0; 1; 2; 3] [0; 1; 2; 3] = Ok I /\
    interpolate I [0; 1; 2; 3] = Ok r /\
    length r = 4%nat /\
    (forall k, (k < 4)%nat -> (k < 4 - 1)%nat \/ 4%nat = 1%nat ->
               nth k r 0 == nth k [0; 1; 2; 3] 0) /\
    ((2 <= 4)%nat ->
     exists alpha,
       alpha == 1 /\
       nth (4 - 1) r 0 =
         nth (4 - 2) [0; 1; 2; 3] 0 +
         alpha * (nth (4 - 1) [0; 1; 2; 3] 0 - nth (4 - 2) [0; 1; 2; 3] 0)).
Proof.
  apply (self_interpolation_values [0; 1; 2; 3]).
  - exact small_grid_increasing.
  - discriminate.
Defined.

(** ** The bracket scan of the column routines *)

Lemma skipn_cons_nth_error {A : Type} (a : list A) (n : nat) (y : A) :
  nth_error a n = Some y -> skipn n a = y :: skipn (Datatypes.S n) a.
Proof.
  revert n; induction a as [|h t IH]; intros [|n] H; simpl in *;
    try discriminate.
  - now injection H as ->.
  - now apply IH.
Qed.

Lemma skipn_none_nth_error {A : Type} (a : list A) (n : nat) :
  nth_error a n = None -> skipn n a = [].
Proof.
  intro H. apply skipn_all2. now apply nth_error_None.
Qed.

(** The scan is the source's loop: read [a[mcurr+1]], stop unless it lies
    below [z], otherwise go on from [mcurr+1]. *)
Lemma bracket_scan_unfold (a : list Q) (z : Q) (mcurr : nat) :
  bracket_scan a z mcurr =
    (y <- read a (mcurr + 1) ;;
     if Qltb y z then bracket_scan a z (Datatypes.S mcurr) else Ok mcurr).
Proof.
  unfold bracket_scan, read.
  replace (mcurr + 1)%nat with (Datatypes.S mcurr) by lia.
  destruct (nth_error a (Datatypes.S mcurr)) as [y|] eqn:E.
  - rewrite (skipn_cons_nth_error _ _ _ E). reflexivity.
  - rewrite (skipn_none_nth_error _ _ E). reflexivity.
Qed.

(** Started at [m0] with a level at or above [z] ahead, the scan stops at
    the first index [m >= m0] with [z <= a[m+1]], inside the array. *)
Lemma bracket_scan_spec (a : list Q) (z : Q) :
  forall d m0 top,
    (top - m0 <= d)%nat -> (m0 < top)%nat -> (top < length a)%nat ->
    z <= nth top a 0 ->
    exists m, bracket_scan a z m0 = Ok m /\
              (m0 <= m < top)%nat /\
              z <= nth (Datatypes.S m) a 0 /\
              forall j, (m0 < j <= m)%nat -> nth j a 0 < z.
Proof.
  induction d as [|d IH]; intros m0 top Hd Hm Htop Hz; [lia|].
  rewrite bracket_scan_unfold.
  rewrite (read_nth a (m0 + 1) 0) by lia. cbn [bind].
  replace (m0 + 1)%nat with (Datatypes.S m0) by lia.
  case_Qltb (nth (Datatypes.S m0) a 0) z Hy.
  - assert (Datatypes.S m0 <> top) by (intro Heq; rewrite Heq in Hy; lra).
    destruct (IH (Datatypes.S m0) top) as (m & Hm' & Hr & Hle & Hbelow);
      try lia; try assumption.
    exists m. split; [assumption|]. split; [lia|]. split; [assumption|].
    intros j Hj. destruct (Nat.eq_dec j (Datatypes.S m0)) as [->|Hne].
    + assumption.
    + apply Hbelow. lia.
  - exists m0. split; [reflexivity|]. split; [lia|]. split; [assumption|].
    intros j Hj. lia.
Qed.

(** With no level at or above [z] ahead the scan runs off the array. *)
Lemma bracket_scan_overrun (a : list Q) (z : Q) :
  forall d m0,
    (length a - m0 <= d)%nat ->
    (forall j, (m0 < j < length a)%nat -> nth j a 0 < z) ->
    bracket_scan a z m0 = Raise OutOfBounds.
Proof.
  induction d as [|d IH]; intros m0 Hd Hbelow.
  - rewrite bracket_scan_unfold. rewrite read_out by lia. reflexivity.
  - rewrite bracket_scan_unfold.
    destruct (Nat.lt_ge_cases (m0 + 1) (length a)) as [Hin|Hout].
    + rewrite (read_nth a (m0 + 1) 0) by lia. cbn [bind].
      rewrite (proj2 (Qltb_true _ _) (Hbelow (m0 + 1)%nat ltac:(lia))).
      apply IH; [lia|]. intros j Hj. apply Hbelow. lia.
    + rewrite read_out by lia. reflexivity.
Qed.

(** ** Legal levels *)

Lemma isLegalLevel_ok (g : IceGrid) (z : Q) :
  - (1 # 1000000) <= z -> z <= Lz g + (1 # 1000000) ->
  IceModelVec3.isLegalLevel g z = Ok tt.
Proof.
  intros H0 H1. unfold IceModelVec3.isLegalLevel.
  case_Qltb z (0 - (1 # 1000000)) Ha; [lra|].
  case_Qltb (Lz g + (1 # 1000000)) z Hb; [lra|]. reflexivity.
Qed.

Lemma isLegalLevel_error (g : IceGrid) (z : Q) :
  z < - (1 # 1000000) \/ Lz g + (1 # 1000000) < z ->
  exists code, IceModelVec3.isLegalLevel g z = Raise (PetscError code).
Proof.
  intros H. unfold IceModelVec3.isLegalLevel.
  case_Qltb z (0 - (1 # 1000000)) Ha; [eauto|].
  case_Qltb (Lz g + (1 # 1000000)) z Hb; [eauto|].
  destruct H; lra.
Qed.

(** ** [getValZ] *)

Section GetValZ.
Variable v : IceModelVec3.t.
Variables i j : Z.
Let g := IceModelVec3.grid v.
Let levels := zlevels g.
Let col := IceModelVec3.array v i j.
Hypothesis Hgrid : grid_ok g.
Hypothesis Hcol : length col = Mz g.

Lemma getValZ_illegal (z : Q) :
  z < - (1 # 1000000) \/ Lz g + (1 # 1000000) < z ->
  exists code, IceModelVec3.getValZ v i j z = Raise (PetscError code).
Proof.
  intro H. unfold IceModelVec3.getValZ. fold g.
  destruct (isLegalLevel_error g z H) as [code ->]. cbn [bind]. eauto.
Qed.

Lemma getValZ_top (z : Q) :
  z <= Lz g + (1 # 1000000) -> nth (Mz g - 1) levels 0 <= z ->
  IceModelVec3.getValZ v i j z = Ok (nth (Mz g - 1) col 0).
Proof.
  intros Hlegal Hz. destruct Hgrid as (Hlen & HMz & Hs & Hbase & Htop).
  fold levels in Hlen, Hs, Hbase, Htop.
  pose proof (strictly_increasing_lt levels Hs 0 (Mz g - 1) ltac:(lia)
                ltac:(lia)) as Hpos.
  unfold IceModelVec3.getValZ. fold g. fold col.
  rewrite isLegalLevel_ok by lra. cbn [bind].
  case_Qleb (Lz g) z E; [|lra].
  apply read_nth. lia.
Qed.

Lemma getValZ_bottom (z : Q) :
  - (1 # 1000000) <= z -> z <= 0 ->
  IceModelVec3.getValZ v i j z = Ok (nth 0 col 0).
Proof.
  intros Hlegal Hz. destruct Hgrid as (Hlen & HMz & Hs & Hbase & Htop).
  fold levels in Hlen, Hs, Hbase, Htop.
  pose proof (strictly_increasing_lt levels Hs 0 (Mz g - 1) ltac:(lia)
                ltac:(lia)) as Hpos.
  unfold IceModelVec3.getValZ. fold g. fold col.
  rewrite isLegalLevel_ok by lra. cbn [bind].
  case_Qleb (Lz g) z E; [lra|].
  case_Qleb z 0 E0; [|lra].
  apply read_nth. lia.
Qed.

Lemma getValZ_interior (z : Q) :
  0 < z -> z < nth (Mz g - 1) levels 0 ->
  exists m, (m + 1 < Mz g)%nat /\
            nth m levels 0 < z /\ z <= nth (m + 1) levels 0 /\
            IceModelVec3.getValZ v i j z =
              Ok (linear_between (nth m levels 0) (nth (m + 1) levels 0)
                                 (nth m col 0) (nth (m + 1) col 0) z).
Proof.
  intros H0 H1. destruct Hgrid as (Hlen & HMz & Hs & Hbase & Htop).
  fold levels in Hlen, Hs, Hbase, Htop.
  unfold IceModelVec3.getValZ. fold g. fold col. fold levels.
  rewrite isLegalLevel_ok by lra. cbn [bind].
  case_Qleb (Lz g) z E; [lra|].
  case_Qleb z 0 E0; [lra|].
  destruct (bracket_scan_spec levels z (Mz g) 0 (Mz g - 1))
    as (m & Hm & Hr & Hle & Hbelow); try lia; try lra.
  rewrite Hm. cbn [bind].
  rewrite (read_nth levels m 0) by lia. cbn [bind].
  rewrite (read_nth levels (m + 1) 0) by lia. cbn [bind].
  rewrite (read_nth col m 0) by lia. cbn [bind].
  rewrite (read_nth col (m + 1) 0) by lia. cbn [bind].
  exists m. replace (Datatypes.S m) with (m + 1)%nat in Hle by lia.
  split; [lia|]. split; [|split; [assumption | reflexivity]].
  destruct (Nat.eq_dec m 0) as [->|Hne]; [lra|].
  apply Hbelow. lia.
Qed.

End GetValZ.

(** C3. On an ice field whose stored levels increase strictly from [0] to
    [Lz], [getValZ(i, j, z)] fails with a PETSc error when [z < -1e-6] or
    [z > Lz + 1e-6]; for a legal [z] it returns the top stored value when
    [z >= levels[Mz-1]], the bottom stored value when [z <= 0], and
    otherwise the linear interpolant between the two stored levels that
    enclose [z].  With levels [0,10,20,30] and the column
    [100,200,300,400]: [getValZ] at 25 is 350, [getValZ] at 35 is an error,
    and [getValColumnPL] at [0,25,40] is [100, 350, 400]. *)
Theorem C3_getValZ_clamps_and_interpolates :
  (forall (v : IceModelVec3.t) (i j : Z) (z : Q),
      grid_ok (IceModelVec3.grid v) ->
      length (IceModelVec3.array v i j) = Mz (IceModelVec3.grid v) ->
      (z < - (1 # 1000000) \/ Lz (IceModelVec3.grid v) + (1 # 1000000) < z ->
       exists code, IceModelVec3.getValZ v i j z = Raise (PetscError code)) /\
      (- (1 # 1000000) <= z ->
       z <= Lz (IceModelVec3.grid v) + (1 # 1000000) ->
       (nth (Mz (IceModelVec3.grid v) - 1)
            (zlevels (IceModelVec3.grid v)) 0 <= z ->
        IceModelVec3.getValZ v i j z =
          Ok (nth (Mz (IceModelVec3.grid v) - 1)
                  (IceModelVec3.array v i j) 0)) /\
       (z <= 0 ->
        IceModelVec3.getValZ v i j z =
          Ok (nth 0 (IceModelVec3.array v i j) 0)) /\
       (0 < z ->
        z < nth (Mz (IceModelVec3.grid v) - 1)
                (zlevels (IceModelVec3.grid v)) 0 ->
        exists m,
          (m + 1 < Mz (IceModelVec3.grid v))%nat /\
          nth m (zlevels (IceModelVec3.grid v)) 0 < z /\
          z <= nth (m + 1) (zlevels (IceModelVec3.grid v)) 0 /\
          IceModelVec3.getValZ v i j z =
            Ok (linear_between
                  (nth m (zlevels (IceModelVec3.grid v)) 0)
                  (nth (m + 1) (zlevels (IceModelVec3.grid v)) 0)
                  (nth m (IceModelVec3.array v i j) 0)
                  (nth (m + 1) (IceModelVec3.array v i j) 0) z)))) /\
  (forall i j : Z,
      (exists r, IceModelVec3.getValZ scenario_field i j 25 = Ok r /\
                 r == 350) /\
      (exists code,
          IceModelVec3.getValZ scenario_field i j 35 =
            Raise (PetscError code)) /\
      (exists r,
          IceModelVec3.getValColumnPL scenario_field i j [0; 25; 40] = Ok r /\
          Forall2 Qeq r [100; 350; 400])).
Proof.
  split.
  - intros v i j z Hgrid Hcol. split; [|intros Hlo Hhi; split; [|split]].
    + apply getValZ_illegal.
    + intro Hz. apply getValZ_top; assumption.
    + intro Hz. apply getValZ_bottom; assumption.
    + intros H0 H1. apply getValZ_interior; assumption.
  - intros i j. split; [|split].
    + eexists. split; [vm_compute; reflexivity | reflexivity].
    + eexists. vm_compute. reflexivity.
    + eexists. split; [vm_compute; reflexivity|].
      repeat constructor; reflexivity.
Qed.

Lemma scenario_grid_ok : grid_ok scenario_grid.
Proof.
  unfold grid_ok, scenario_grid. cbn [zlevels Mz Lz length].
  split; [reflexivity|]. split; [lia|]. split; [|split; reflexivity].
  intros k Hk. simpl in Hk.
  destruct k as [|[|[|k]]]; simpl; try reflexivity; lia.
Qed.

Lemma C3_getValZ_clamps_and_interpolates_witness :
  IceModelVec3.getValZ scenario_field 0 0 (-(1)) = Raise (PetscError 1) /\
  IceModelVec3.getValZ scenario_field 0 0 30 = Ok 400.
Proof.
  destruct (proj1 C3_getValZ_clamps_and_interpolates scenario_field 0%Z 0%Z 30
              scenario_grid_ok eq_refl) as [_ H].
  destruct (H ltac:(vm_compute; discriminate) ltac:(vm_compute; discriminate))
    as [Htop _].
  split.
  - reflexivity.
  - apply Htop. vm_compute. discriminate.
Defined.

(** ** [getValColumnQUAD] *)

(** Lagrange's form is the one quadratic through the three points. *)
Lemma quadratic_through_unique (z0 z1 z2 f0 f1 f2 a b c : Q) :
  ~ z0 == z1 -> ~ z0 == z2 -> ~ z1 == z2 ->
  a + b * z0 + c * (z0 * z0) == f0 ->
  a + b * z1 + c * (z1 * z1) == f1 ->
  a + b * z2 + c * (z2 * z2) == f2 ->
  forall z, a + b * z + c * (z * z) == quadratic_through z0 z1 z2 f0 f1 f2 z.
Proof.
  intros H01 H02 H12 E0 E1 E2 z. unfold quadratic_through.
  rewrite <- E0, <- E1, <- E2. field.
  repeat split; intro H; [apply H12 | apply H02 | apply H01 | apply H02
                          | apply H01 | apply H12]; lra.
Qed.

Lemma quadratic_through_nodes (z0 z1 z2 f0 f1 f2 : Q) :
  ~ z0 == z1 -> ~ z0 == z2 -> ~ z1 == z2 ->
  quadratic_through z0 z1 z2 f0 f1 f2 z0 == f0 /\
  quadratic_through z0 z1 z2 f0 f1 f2 z1 == f1 /\
  quadratic_through z0 z1 z2 f0 f1 f2 z2 == f2.
Proof.
  intros H01 H02 H12. unfold quadratic_through.
  repeat split; field;
    repeat split; intro H;
    solve [apply H12; lra | apply H02; lra | apply H01; lra].
Qed.

(** In exact arithmetic the divided-difference form of the source is that
    quadratic. *)
Lemma newton_form_is_quadratic (z0 z1 z2 f0 f1 f2 z : Q) :
  z0 < z1 -> z1 < z2 ->
  newton_form z0 z1 z2 f0 f1 f2 z == quadratic_through z0 z1 z2 f0 f1 f2 z.
Proof.
  intros H01 H12. unfold newton_form, quadratic_through. cbv zeta. field.
  repeat split; intro H; lra.
Qed.

Lemma lower_bracket_unique (levels : list Q) (z : Q) (m m' : nat) :
  lower_bracket levels z m -> lower_bracket levels z m' -> m = m'.
Proof.
  intros (Hm & Hle & Hbelow) (Hm' & Hle' & Hbelow').
  destruct (Nat.lt_trichotomy m m') as [Hlt|[Heq|Hgt]]; [|assumption|].
  - pose proof (Hbelow' (m + 1)%nat ltac:(lia)). lra.
  - pose proof (Hbelow (m' + 1)%nat ltac:(lia)). lra.
Qed.

Lemma check_levelsIN_ok (code : nat) (levelsIN : list Q) :
  strictly_increasing levelsIN -> check_levelsIN code levelsIN = Ok tt.
Proof.
  intro Hs. unfold check_levelsIN.
  destruct (for_loop_inv (fun _ _ => True)
              (fun k (_ : unit) =>
                 a <- read levelsIN k ;;
                 b <- read levelsIN (k + 1) ;;
                 if Qleb b a then Raise (PetscError code) else Ok tt)
              (length levelsIN - 1) 0%nat tt I) as [[] [H _]]; [|exact H].
  intros k [] Hk _. exists tt. split; [|exact I].
  rewrite (read_nth levelsIN k 0) by lia. cbn [bind].
  rewrite (read_nth levelsIN (k + 1) 0) by lia. cbn [bind].
  case_Qleb (nth (k + 1) levelsIN 0) (nth k levelsIN 0) E; [|reflexivity].
  pose proof (Hs k ltac:(lia)) as Hlt.
  replace (Datatypes.S k) with (k + 1)%nat in Hlt by lia. lra.
Qed.

Lemma getValColumn_checks_ok (g : IceGrid) (levelsIN : list Q) :
  strictly_increasing levelsIN -> (0 < length levelsIN)%nat ->
  legal_level g (nth 0 levelsIN 0) ->
  IceModelVec3.getValColumn_checks g levelsIN = Ok tt.
Proof.
  intros Hs Hn [Hlo Hhi]. unfold IceModelVec3.getValColumn_checks.
  rewrite (read_nth levelsIN 0 0) by lia. cbn [bind].
  rewrite isLegalLevel_ok by assumption. cbn [bind].
  now apply check_levelsIN_ok.
Qed.

Section GetValColumnQUAD.
Variable g : IceGrid.
Variables col levelsIN : list Q.
Let levels := zlevels g.
Let n := length levelsIN.
Hypothesis Hgrid : grid_ok g.
Hypothesis Hcol : length col = Mz g.
Hypothesis HlevelsIN : strictly_increasing levelsIN.

Lemma getValColumnQUAD_body_ok (k : nat) (s : nat * list Q) :
  (k < n)%nat -> quad_invariant g col levelsIN k s ->
  exists s', IceModelVec3.getValColumnQUAD_body g col levelsIN k s = Ok s' /\
             quad_invariant g col levelsIN (Datatypes.S k) s'.
Proof.
  destruct s as [mcurr out]. intros Hk (Hout & Hm & Hbelow & Hdone).
  fold levels in Hbelow, Hdone. fold n in Hout, Hbelow.
  destruct Hgrid as (Hlen & HMz & Hs & Hbase & Htop).
  fold levels in Hlen, Hs, Hbase, Htop.
  unfold IceModelVec3.getValColumnQUAD_body. fold levels.
  rewrite (read_nth levelsIN k 0) by (fold n; lia). cbn [bind].
  set (z := nth k levelsIN 0).
  rewrite (read_nth levels (Mz g - 1) 0) by lia. cbn [bind].
  assert (Hlater : forall q, (Datatypes.S k <= q < n)%nat ->
                             z < nth q levelsIN 0).
  { intros q Hq. apply strictly_increasing_lt; auto; fold n; lia. }
  assert (Hkeep : forall q v, (q < k)%nat ->
                              nth q (update out k v) 0 = nth q out 0).
  { intros q v Hq. apply nth_update_ne. lia. }
  case_Qltb (nth (Mz g - 1) levels 0) z Htopz.
  - (* above the top stored level *)
    rewrite (read_nth col (Mz g - 1) 0) by lia. cbn [bind].
    rewrite write_in by lia. cbn [bind].
    eexists. split; [reflexivity|].
    unfold quad_invariant. fold levels. fold n. rewrite length_update.
    split; [assumption|]. split; [assumption|]. split.
    + intros j q Hj Hq. apply Hbelow; lia.
    + intros q Hq. destruct (Nat.eq_dec q k) as [->|Hne].
      * rewrite nth_update_eq by lia. fold z.
        unfold quad_value. fold levels. rewrite Hlen. cbv zeta.
        split; [reflexivity | intro; lra].
      * rewrite Hkeep by lia. apply Hdone. lia.
  - (* inside the stored levels *)
    destruct (bracket_scan_spec levels z (Mz g) mcurr (Mz g - 1))
      as (m & Hscan & Hr & Hle & Hnew); try lia; try assumption.
    rewrite Hscan. cbn [bind].
    rewrite (read_nth levels m 0) by lia. cbn [bind].
    rewrite (read_nth col m 0) by lia. cbn [bind].
    replace (Datatypes.S m) with (m + 1)%nat in Hle by lia.
    assert (Hbr : lower_bracket levels z m).
    { split; [lia|]. split; [assumption|].
      intros j Hj. destruct (Nat.le_gt_cases j mcurr).
      - apply (Hbelow j k); lia.
      - apply Hnew. lia. }
    assert (Hnext : forall j q, (0 < j <= m)%nat ->
                                (Datatypes.S k <= q < n)%nat ->
                                nth j levels 0 < nth q levelsIN 0).
    { intros j q Hj Hq. destruct Hbr as (_ & _ & Hb).
      apply Qlt_trans with z; [apply Hb; lia | apply Hlater; lia]. }
    destruct (Mz g - 2 <=? m)%nat eqn:Elin.
    + (* the top bracket: linear *)
      apply Nat.leb_le in Elin.
      rewrite (read_nth levels (m + 1) 0) by lia. cbn [bind].
      rewrite (read_nth col (m + 1) 0) by lia. cbn [bind].
      rewrite write_in by lia. cbn [bind].
      eexists. split; [reflexivity|].
      unfold quad_invariant. fold levels. fold n. rewrite length_update.
      split; [assumption|]. split; [lia|]. split; [assumption|].
      intros q Hq. destruct (Nat.eq_dec q k) as [->|Hne].
      * rewrite nth_update_eq by lia. fold z.
        unfold quad_value. fold levels. rewrite Hlen. cbv zeta.
        split; [intro; lra|]. intros _. exists m.
        split; [assumption|]. split; [intro; lia|]. intros _. reflexivity.
      * rewrite Hkeep by lia. apply Hdone. lia.
    + (* a lower bracket: the quadratic through three levels *)
      apply Nat.leb_gt in Elin.
      rewrite (read_nth levels (m + 1) 0) by lia. cbn [bind].
      rewrite (read_nth levels (m + 2) 0) by lia. cbn [bind].
      rewrite (read_nth col (m + 1) 0) by lia. cbn [bind].
      rewrite (read_nth col (m + 2) 0) by lia. cbn [bind].
      rewrite write_in by lia. cbn [bind].
      eexists. split; [reflexivity|].
      unfold quad_invariant. fold levels. fold n. rewrite length_update.
      split; [assumption|]. split; [lia|]. split; [assumption|].
      intros q Hq. destruct (Nat.eq_dec q k) as [->|Hne].
      * rewrite nth_update_eq by lia. fold z.
        unfold quad_value. fold levels. rewrite Hlen. cbv zeta.
        split; [intro; lra|]. intros _. exists m.
        split; [assumption|]. split; [|intro; lia]. intros _.
        reflexivity.
      * rewrite Hkeep by lia. apply Hdone. lia.
Qed.

Lemma getValColumnQUAD_loop_ok :
  exists s, for_loop (IceModelVec3.getValColumnQUAD_body g col levelsIN)
                     0 n (0%nat, repeat 0 n) = Ok s /\
            quad_invariant g col levelsIN n s.
Proof.
  destruct (for_loop_inv (quad_invariant g col levelsIN)
              (IceModelVec3.getValColumnQUAD_body g col levelsIN)
              n 0%nat (0%nat, repeat 0 n)) as [s [Hs Hinv]].
  - destruct Hgrid as (Hlen & HMz & _).
    split; [apply repeat_length|]. split; [lia|].
    split; intros; lia.
  - intros k t Hk Ht. apply getValColumnQUAD_body_ok; [lia | assumption].
  - exists s. auto.
Qed.

End GetValColumnQUAD.

(** C4. [getValColumnQUAD] on an ice field, for strictly increasing legal
    query levels: a query level strictly above the top stored level gets the
    top stored value; a query level whose lower bracket index [mcurr] is
    below [Mz - 2] gets the Newton divided-difference form
    [f0 + s * (b + c * s)] of the quadratic through the stored samples at
    [mcurr], [mcurr+1] and [mcurr+2], as the routine evaluates it (in exact
    arithmetic the value of that quadratic, [newton_form_is_quadratic]); a
    query level with [mcurr >= Mz - 2] gets the linear interpolant between
    the samples at [mcurr] and [mcurr+1]. *)
Theorem C4_getValColumnQUAD_values
        (v : IceModelVec3.t) (i j : Z) (levelsIN : list Q) (k : nat) :
  grid_ok (IceModelVec3.grid v) ->
  length (IceModelVec3.array v i j) = Mz (IceModelVec3.grid v) ->
  strictly_increasing levelsIN ->
  (forall q, (q < length levelsIN)%nat ->
             legal_level (IceModelVec3.grid v) (nth q levelsIN 0)) ->
  (k < length levelsIN)%nat ->
  exists valsOUT,
    IceModelVec3.getValColumnQUAD v i j levelsIN = Ok valsOUT /\
    length valsOUT = length levelsIN /\
    quad_value (zlevels (IceModelVec3.grid v)) (IceModelVec3.array v i j)
               (nth k levelsIN 0) (nth k valsOUT 0).
Proof.
  intros Hgrid Hcol Hs Hlegal Hk.
  unfold IceModelVec3.getValColumnQUAD.
  rewrite getValColumn_checks_ok; auto; try lia; [|apply Hlegal; lia].
  cbn [bind].
  destruct (getValColumnQUAD_loop_ok (IceModelVec3.grid v)
              (IceModelVec3.array v i j) levelsIN Hgrid Hcol Hs)
    as ([mcurr out] & Hloop & Hout & _ & _ & Hdone).
  rewrite Hloop. cbn [bind snd].
  exists out. split; [reflexivity|]. split; [assumption|].
  apply Hdone. assumption.
Qed.

Lemma scenario_queries_increasing : strictly_increasing [0; 5; 25].
Proof.
  intros q Hq. simpl in Hq.
  destruct q as [|[|q]]; simpl; try reflexivity; lia.
Qed.

Lemma C4_getValColumnQUAD_values_witness :
  exists valsOUT,
    IceModelVec3.getValColumnQUAD scenario_field 0 0 [0; 5; 25] = Ok valsOUT /\
    length valsOUT = 3%nat /\
    quad_value [0; 10; 20; 30] [100; 200; 300; 400] 5 (nth 1 valsOUT 0).
Proof.
  apply (C4_getValColumnQUAD_values scenario_field 0%Z 0%Z [0; 5; 25] 1%nat).
  - exact scenario_grid_ok.
  - reflexivity.
  - exact scenario_queries_increasing.
  - intros q Hq. simpl in Hq.
    destruct q as [|[|[|q]]]; try lia; split; vm_compute; discriminate.
  - simpl. lia.
Defined.

(** In binary64 the Newton form is not the value of the quadratic through
    the samples: on the levels [0, 0.1, 0.3, 1] with the column
    [0.2, 0.9, 0.4, 0.5] the query level [0.1] (legal, lower bracket
    [mcurr = 0 < Mz - 2]) is the stored level [levels[1]], where every
    polynomial through the samples takes the sample [0.9]; the routine
    returns [0.9000000000000001]. *)
Lemma C4_quadratic_value_counterexample :
  (Binary64.IceModelVec3.getValColumnQUAD rounding_field 0 0 [0.1] =
     Ok [0.90000000000000013] /\
   nth 1 (Binary64.zlevels rounding_grid) 0 = 0.1 /\
   nth 1 (Binary64.IceModelVec3.array rounding_field 0%Z 0%Z) 0 = 0.9 /\
   (0.9 <? 0.90000000000000013) = true)%float.
Proof.
  split; [vm_compute; reflexivity|].
  split; [reflexivity|]. split; reflexivity.
Qed.

(** ** [setValColumnPL] *)

(** The monotonicity loop either accepts, and then the levels it compared
    increase strictly, or raises its error. *)
Lemma check_levelsIN_loop (code : nat) (levelsIN : list Q) :
  forall count lo,
    (lo + count <= length levelsIN - 1)%nat ->
    (for_loop (fun k (_ : unit) =>
                 a <- read levelsIN k ;;
                 b <- read levelsIN (k + 1) ;;
                 if Qleb b a then Raise (PetscError code) else Ok tt)
              lo count tt = Ok tt /\
     forall k, (lo <= k < lo + count)%nat ->
               nth k levelsIN 0 < nth (k + 1) levelsIN 0) \/
    for_loop (fun k (_ : unit) =>
                a <- read levelsIN k ;;
                b <- read levelsIN (k + 1) ;;
                if Qleb b a then Raise (PetscError code) else Ok tt)
             lo count tt = Raise (PetscError code).
Proof.
  induction count as [|c IH]; intros lo Hlo.
  - left. split; [reflexivity|]. intros k Hk. lia.
  - cbn [for_loop].
    rewrite (read_nth levelsIN lo 0) by lia. cbn [bind].
    rewrite (read_nth levelsIN (lo + 1) 0) by lia. cbn [bind].
    case_Qleb (nth (lo + 1) levelsIN 0) (nth lo levelsIN 0) E.
    + right. reflexivity.
    + cbn [bind].
      destruct (IH (Datatypes.S lo) ltac:(lia)) as [[Hok Hinc]|Herr].
      * left. split; [assumption|]. intros k Hk.
        destruct (Nat.eq_dec k lo) as [->|Hne]; [assumption|].
        apply Hinc. lia.
      * right. assumption.
Qed.

Lemma check_levelsIN_rejects (code : nat) (levelsIN : list Q) :
  ~ strictly_increasing levelsIN ->
  check_levelsIN code levelsIN = Raise (PetscError code).
Proof.
  intro Hnot. unfold check_levelsIN.
  destruct (check_levelsIN_loop code levelsIN (length levelsIN - 1) 0
              ltac:(lia)) as [[_ Hinc]|Herr]; [|assumption].
  exfalso. apply Hnot. intros k Hk.
  replace (Datatypes.S k) with (k + 1)%nat by lia. apply Hinc. lia.
Qed.

(** The validation of [setValColumnPL] raises a PETSc error on a column
    that does not increase strictly, starts above [0 + 1e-3] or ends below
    [Lz - 1e-3]. *)
Lemma setValColumnPL_checks_reject (g : IceGrid) (levelsIN : list Q) :
  ~ strictly_increasing levelsIN \/
  (levelsIN <> [] /\
   (0 + (1 # 1000) < nth 0 levelsIN 0 \/
    nth (length levelsIN - 1) levelsIN 0 < Lz g - (1 # 1000))) ->
  exists code,
    IceModelVec3.setValColumnPL_checks g levelsIN = Raise (PetscError code).
Proof.
  intro H.
  assert (Hne : (0 < length levelsIN)%nat).
  { destruct levelsIN as [|a l]; [|simpl; lia].
    exfalso. destruct H as [H|[H _]]; [|congruence].
    apply H. intros k Hk. simpl in Hk. lia. }
  unfold IceModelVec3.setValColumnPL_checks.
  rewrite (read_nth levelsIN 0 0) by lia. cbn [bind].
  case_Qltb (0 + (1 # 1000)) (nth 0 levelsIN 0) E1; [cbn [bind]; eauto|].
  cbn [bind].
  rewrite (read_nth levelsIN (length levelsIN - 1) 0) by lia. cbn [bind].
  case_Qltb (nth (length levelsIN - 1) levelsIN 0) (Lz g - (1 # 1000)) E2;
    [cbn [bind]; eauto|].
  cbn [bind].
  destruct H as [H|[_ [H|H]]]; try lra.
  rewrite (check_levelsIN_rejects 3 levelsIN H). eauto.
Qed.

(** C5. [setValColumnPL] on an ice field raises a PETSc error when
    [levelsIN] is not strictly increasing, when [levelsIN[0] > 0 + eps] or
    when [levelsIN[nlevels-1] < Lz - eps], with [eps = 1e-3] the tolerance of
    the routine; in each of these cases the field is returned as it was,
    the validation coming before every write. *)
Theorem C5_setValColumnPL_rejects_without_writing
        (v : IceModelVec3.t) (i j : Z) (levelsIN valsIN : list Q) :
  ~ strictly_increasing levelsIN \/
  (levelsIN <> [] /\
   (0 + (1 # 1000) < nth 0 levelsIN 0 \/
    nth (length levelsIN - 1) levelsIN 0 <
      Lz (IceModelVec3.grid v) - (1 # 1000))) ->
  exists code,
    IceModelVec3.setValColumnPL v i j levelsIN valsIN =
      (Raise (PetscError code), v).
Proof.
  intro H. unfold IceModelVec3.setValColumnPL.
  destruct (setValColumnPL_checks_reject (IceModelVec3.grid v) levelsIN H)
    as [code ->].
  exists code. reflexivity.
Qed.

Lemma C5_setValColumnPL_rejects_without_writing_witness :
  exists code,
    IceModelVec3.setValColumnPL scenario_field 0 0 [0; 10; 20] [1; 2; 3] =
      (Raise (PetscError code), scenario_field).
Proof.
  apply (C5_setValColumnPL_rejects_without_writing
           scenario_field 0%Z 0%Z [0; 10; 20] [1; 2; 3]).
  right. split; [discriminate|]. right. vm_compute. reflexivity.
Defined.

(** The tolerance of the checks of [setValColumnPL] is [1e-3], not the
    [1e-6] of the legality check: the input column [[2^-11, 30]] starts
    above [0 + 1e-6], is accepted, and the call rewrites the stored column
    (the stored level [0] gets a value extrapolated below [valsIN[0] = 1]). *)
Lemma C5_tolerance_counterexample :
  0 + (1 # 1000000) < nth 0 [1 # 2048; 30] 0 /\
  exists v',
    IceModelVec3.setValColumnPL scenario_field 0 0 [1 # 2048; 30] [1; 2] =
      (Ok tt, v') /\
    nth 0 (IceModelVec3.array v' 0%Z 0%Z) 0 < 1 /\
    IceModelVec3.array v' 0%Z 0%Z <>
      IceModelVec3.array scenario_field 0%Z 0%Z.
Proof.
  split; [reflexivity|].
  eexists. split; [vm_compute; reflexivity|].
  split; [reflexivity|].
  vm_compute. discriminate.
Qed.

(** C9. The bracket scan of [setValColumnPL] can leave [levelsIN]: the
    input column [0, 9.9995] passes every check of the routine on the grid
    [0, 10] (it increases strictly, starts at [0 <= 1e-3] and ends at
    [9.9995 >= Lz - 1e-3]), the level [0] is set, and for the stored level
    [10] the scan moves past [levelsIN[1] = 9.9995 < 10] and reads
    [levelsIN[2]], one past the end. *)
Theorem C9_setValColumnPL_scan_reads_past_the_end :
  grid_ok short_grid /\
  strictly_increasing short_levelsIN /\
  IceModelVec3.setValColumnPL_checks short_grid short_levelsIN = Ok tt /\
  bracket_scan short_levelsIN 0 0 = Ok 0%nat /\
  bracket_scan short_levelsIN 10 0 = Raise OutOfBounds /\
  fst (IceModelVec3.setValColumnPL short_field 0 0 short_levelsIN [1; 2]) =
    Raise OutOfBounds.
Proof.
  split; [|split; [|split; [|split; [|split]]]]; try (vm_compute; reflexivity).
  - unfold grid_ok, short_grid. cbn [zlevels Mz Lz length].
    split; [reflexivity|]. split; [lia|]. split; [|split; reflexivity].
    intros k Hk. simpl in Hk. destruct k as [|k]; [reflexivity | lia].
  - intros k Hk. unfold short_levelsIN in *. simpl in Hk.
    destruct k as [|k]; [reflexivity | lia].
Qed.

(** ** The degenerate grids *)

(** C10. With fewer than two input points every [init] writes the entry of
    output index 0 whatever the size of the output grid: on an empty output
    grid the three vectors are empty after [resize(0)] and the write
    [m_left[0] = 0] falls outside them. *)
Theorem C10_trivial_case_writes_outside_empty_tables :
  forall (input_x : list Q) (period : Q),
    (length input_x < 2)%nat ->
    init_linear input_x [] = Raise OutOfBounds /\
    PiecewiseConstant.init input_x [] = Raise OutOfBounds /\
    LinearPeriodic.init input_x [] period = Raise OutOfBounds.
Proof.
  intros input_x period Hn.
  unfold init_linear, PiecewiseConstant.init, LinearPeriodic.init.
  rewrite (proj2 (Nat.ltb_lt _ _) Hn).
  repeat split; reflexivity.
Qed.

Lemma C10_trivial_case_writes_outside_empty_tables_witness :
  init_linear [1] [] = Raise OutOfBounds /\
  PiecewiseConstant.init [1] [] = Raise OutOfBounds /\
  LinearPeriodic.init [1] [] 1 = Raise OutOfBounds.
Proof.
  apply (C10_trivial_case_writes_outside_empty_tables [1] 1).
  simpl. lia.
Defined.

(** C8. The self-interpolation of the empty grid does not return: the
    constructor of the linear policy, given an empty [input_x] as both
    grids, takes the trivial case and writes [m_left[0]] in an empty
    vector.  (On a non-empty strictly increasing grid the call succeeds:
    [self_interpolation_values].) *)
Theorem C8_self_interpolation_of_empty_grid_faults :
  strictly_increasing [] /\
  LinearInterpolation.make [] [] = Raise OutOfBounds.
Proof.
  split; [|reflexivity].
  intros k Hk. simpl in Hk. lia.
Qed.

(** C2. The periodic policy breaks its own assertion on a query far from the
    grid: with [input_x = [0, 1]], period [2] and the query [-5], the
    bracket is (1, 0) and the weight is [1 - (0 - (-5)) / ((2 - 1) + 0) = -4],
    so [assert(alpha >= 0.0 and alpha <= 1.0)] fails.  (The linear,
    nearest-neighbour and piecewise-constant policies do meet the
    postcondition: [init_linear_valid], [NearestNeighbor_init_valid],
    [PiecewiseConstant_init_valid].) *)
Theorem C2_periodic_weight_leaves_unit_interval :
  strictly_increasing [0; 1] /\
  (exists alpha,
      LinearPeriodic.entry [0; 1] 2 (-(5)) = Ok (1%nat, 0%nat, alpha) /\
      alpha == -(4)) /\
  LinearPeriodic.init [0; 1] [-(5)] 2 = Raise AssertionFailure.
Proof.
  split; [exact two_point_grid_increasing|]. split.
  - eexists. split; [vm_compute; reflexivity | reflexivity].
  - vm_compute. reflexivity.
Qed.

(** ** Vertical extension *)

(** The copy loop of [extend_vertically_private] on one column. *)
Lemma copy_levels_ok (old : list Q) (old_Mz : nat) :
  forall col,
    (old_Mz <= length old)%nat -> (old_Mz <= length col)%nat ->
    exists col',
      for_loop (fun k col => x <- read old k ;; write col k x) 0 old_Mz col =
        Ok col' /\
      length col' = length col /\
      forall k, (k < old_Mz)%nat -> nth_error col' k = nth_error old k.
Proof.
  intros col Hold Hcol.
  destruct (for_loop_inv
              (fun k c => length c = length col /\
                          forall q, (q < k)%nat ->
                                    nth_error c q = nth_error old q)
              (fun k col => x <- read old k ;; write col k x)
              old_Mz 0%nat col) as [col' [Hloop [Hlen Hcopy]]].
  - split; [reflexivity|]. intros ? ?. lia.
  - intros k c Hk [Hc Hdone].
    rewrite (read_nth old k 0) by lia. cbn [bind].
    rewrite write_in by lia.
    eexists. split; [reflexivity|].
    rewrite length_update. split; [assumption|].
    intros q Hq. destruct (Nat.eq_dec q k) as [->|Hne].
    + rewrite (nth_error_nth' (update c k (nth k old 0)) 0)
        by (rewrite length_update; lia).
      rewrite nth_update_eq by lia.
      symmetry. apply nth_error_nth'. lia.
    + rewrite <- (Hdone q ltac:(lia)).
      rewrite (nth_error_nth' (update c k (nth k old 0)) 0)
        by (rewrite length_update; lia).
      rewrite nth_update_ne by lia.
      symmetry. apply nth_error_nth'. lia.
  - exists col'. auto.
Qed.

(** The fill loop of [extend_vertically] on one column. *)
Lemma fill_levels_ok (fill : Q) (old_Mz new_Mz : nat) :
  forall col,
    (old_Mz <= new_Mz)%nat -> length col = new_Mz ->
    exists col',
      for_loop (fun k col => write col k fill) old_Mz (new_Mz - old_Mz) col =
        Ok col' /\
      length col' = new_Mz /\
      (forall k, (k < old_Mz)%nat -> nth_error col' k = nth_error col k) /\
      (forall k, (old_Mz <= k < new_Mz)%nat -> nth_error col' k = Some fill).
Proof.
  intros col Hle Hcol.
  destruct (for_loop_inv
              (fun k c => length c = new_Mz /\
                          (forall q, (q < old_Mz)%nat ->
                                     nth_error c q = nth_error col q) /\
                          (forall q, (old_Mz <= q < k)%nat ->
                                     nth_error c q = Some fill))
              (fun k col => write col k fill)
              (new_Mz - old_Mz) old_Mz col)
    as [col' [Hloop [Hlen [Hkeep Hfill]]]].
  - split; [assumption|]. split; [reflexivity|]. intros ? ?. lia.
  - intros k c Hk [Hc [Hkeep Hdone]].
    rewrite write_in by lia.
    eexists. split; [reflexivity|].
    rewrite length_update. split; [assumption|]. split.
    + intros q Hq. rewrite <- (Hkeep q Hq).
      rewrite (nth_error_nth' (update c k fill) 0)
        by (rewrite length_update; lia).
      rewrite nth_update_ne by lia.
      symmetry. apply nth_error_nth'. lia.
    + intros q Hq.
      rewrite (nth_error_nth' (update c k fill) 0)
        by (rewrite length_update; lia).
      destruct (Nat.eq_dec q k) as [->|Hne].
      * now rewrite nth_update_eq by lia.
      * rewrite nth_update_ne by lia.
        rewrite <- (Hdone q ltac:(lia)).
        symmetry. apply nth_error_nth'. lia.
  - exists col'. split; [assumption|]. split; [assumption|].
    split; [assumption|].
    intros k Hk. apply Hfill. lia.
Qed.

Lemma set_column_of_same (a : Z -> Z -> list Q) (i j : Z) (col : list Q) :
  IceModelVec3.set_column_of a i j col i j = col.
Proof.
  unfold IceModelVec3.set_column_of. now rewrite !Z.eqb_refl.
Qed.

Lemma set_column_of_other (a : Z -> Z -> list Q) (i j i' j' : Z)
      (col : list Q) :
  (i', j') <> (i, j) -> IceModelVec3.set_column_of a i j col i' j' = a i' j'.
Proof.
  intro H. unfold IceModelVec3.set_column_of.
  destruct (i' =? i)%Z eqn:Ei; [|reflexivity].
  destruct (j' =? j)%Z eqn:Ej; [|reflexivity].
  apply Z.eqb_eq in Ei, Ej. congruence.
Qed.

(** The double loop over the owned cells rewrites the column of every owned
    cell once, from its contents before the loop, and no other column. *)
Lemma for_owned_ok (g : IceGrid)
      (body : Z -> Z -> list Q -> outcome (list Q))
      (P : Z -> Z -> list Q -> Prop) (a : Z -> Z -> list Q) :
  (forall i j, owned g i j ->
               exists col', body i j (a i j) = Ok col' /\ P i j col') ->
  exists a', IceModelVec3.for_owned g body a = Ok a' /\
             forall i j, owned g i j -> P i j (a' i j).
Proof.
  intro Hbody. unfold IceModelVec3.for_owned.
  set (Inv := fun (di dj : nat) (b : Z -> Z -> list Q) =>
                forall i j, (passed g di dj i j -> P i j (b i j)) /\
                            (~ passed g di dj i j -> b i j = a i j)).
  destruct (for_loop_inv (fun di b => Inv di 0%nat b)
              (fun di a =>
                 let i := (xs g + Z.of_nat di)%Z in
                 for_loop (fun dj a =>
                             let j := (ys g + Z.of_nat dj)%Z in
                             col <- body i j (a i j) ;;
                             Ok (IceModelVec3.set_column_of a i j col))
                          0 (ym g) a)
              (xm g) 0%nat a) as [a' [Hloop Hinv]].
  - intros i j. split; [|reflexivity].
    intros [[Hi Hj] Hp]. lia.
  - intros di b Hdi Hb. cbv zeta.
    destruct (for_loop_inv (fun dj c => Inv di dj c)
                (fun dj a =>
                   let j := (ys g + Z.of_nat dj)%Z in
                   col <- body (xs g + Z.of_nat di)%Z j
                               (a (xs g + Z.of_nat di)%Z j) ;;
                   Ok (IceModelVec3.set_column_of a (xs g + Z.of_nat di)%Z j
                                                  col))
                (ym g) 0%nat b Hb) as [c [Hrow Hc]].
    + intros dj c Hdj Hc. cbv zeta.
      set (i := (xs g + Z.of_nat di)%Z). set (j := (ys g + Z.of_nat dj)%Z).
      assert (Hown : owned g i j) by (unfold owned; subst i j; lia).
      assert (Hnot : ~ passed g di dj i j)
        by (intros [_ Hp]; subst i j; lia).
      rewrite (proj2 (Hc i j) Hnot).
      destruct (Hbody i j Hown) as [col' [Hcol' HP]].
      rewrite Hcol'. cbn [bind].
      eexists. split; [reflexivity|].
      intros i' j'. split.
      * intros [Hown' Hp].
        assert (Hcase : (i', j') = (i, j) \/ passed g di dj i' j').
        { destruct (Z.eq_dec i' i) as [Hi|Hi].
          - destruct (Z.eq_dec j' j) as [Hj|Hj].
            + left. congruence.
            + right. split; [assumption|]. subst i j. lia.
          - right. split; [assumption|]. subst i j. lia. }
        destruct Hcase as [Heq|Hpassed].
        -- injection Heq as -> ->. now rewrite set_column_of_same.
        -- rewrite set_column_of_other.
           ++ apply (Hc i' j'). assumption.
           ++ intro Heq. injection Heq as -> ->. apply Hnot. assumption.
      * intros Hnp.
        rewrite set_column_of_other.
        -- apply (Hc i' j'). intros [Hown' Hp]. apply Hnp.
           split; [assumption|]. lia.
        -- intro Heq. injection Heq as -> ->. apply Hnp.
           split; [assumption|]. subst i j. lia.
    + exists c. split; [exact Hrow|].
      intros i j. destruct (Hc i j) as [Hin Hout]. split.
      * intros [Hown Hp]. apply Hin. split; [assumption|].
        destruct Hown as [Hi Hj]. lia.
      * intros Hnp. apply Hout. intros [Hown Hp]. apply Hnp.
        split; [assumption|]. destruct Hown as [Hi Hj]. lia.
  - exists a'. split; [exact Hloop|].
    intros i j Hown. apply (Hinv i j). split; [assumption|].
    destruct Hown as [Hi Hj]. lia.
Qed.

Section ExtendVertically.

Variable ghostComm : IceModelVec3.t -> IceModelVec3.t.
Hypothesis ghostComm_owned :
  forall v i j, owned (IceModelVec3.grid v) i j ->
                IceModelVec3.array (ghostComm v) i j = IceModelVec3.array v i j.

Lemma extend_vertically_private_ok (junk : Z -> Z -> nat -> Q) (old_Mz : nat)
      (v : IceModelVec3.t) :
  (old_Mz <= Mz (IceModelVec3.grid v))%nat ->
  (forall i j, owned (IceModelVec3.grid v) i j ->
               (old_Mz <= length (IceModelVec3.array v i j))%nat) ->
  exists v1,
    IceModelVec3.extend_vertically_private junk old_Mz v = Ok v1 /\
    IceModelVec3.grid v1 = IceModelVec3.grid v /\
    IceModelVec3.localp v1 = IceModelVec3.localp v /\
    forall i j, owned (IceModelVec3.grid v) i j ->
                length (IceModelVec3.array v1 i j) = Mz (IceModelVec3.grid v) /\
                forall k, (k < old_Mz)%nat ->
                          nth_error (IceModelVec3.array v1 i j) k =
                            nth_error (IceModelVec3.array v i j) k.
Proof.
  intros Hle Hold. unfold IceModelVec3.extend_vertically_private.
  set (g := IceModelVec3.grid v) in *.
  destruct (for_owned_ok g
              (fun i j col =>
                 for_loop (fun k col =>
                             x <- read (IceModelVec3.array v i j) k ;;
                             write col k x)
                          0 old_Mz col)
              (fun i j col' =>
                 length col' = Mz g /\
                 forall k, (k < old_Mz)%nat ->
                           nth_error col' k =
                             nth_error (IceModelVec3.array v i j) k)
              (IceModelVec3.DACreateVector (Mz g) junk))
    as [a_new [Hloop Hcells]].
  - intros i j Hown.
    assert (Hfresh : length (IceModelVec3.DACreateVector (Mz g) junk i j) =
                     Mz g).
    { unfold IceModelVec3.DACreateVector.
      now rewrite length_map, length_seq. }
    destruct (copy_levels_ok (IceModelVec3.array v i j) old_Mz
                (IceModelVec3.DACreateVector (Mz g) junk i j))
      as (col' & Hcopy & Hlen & Hsame); [auto | lia |].
    exists col'. split; [assumption|]. split; [lia | assumption].
  - rewrite Hloop. cbn [bind]. eexists. split; [reflexivity|].
    cbn [IceModelVec3.grid IceModelVec3.localp IceModelVec3.array]. auto.
Qed.

Lemma fill_new_levels_ok (old_Mz : nat) (filler : Z -> Z -> Q)
      (v : IceModelVec3.t) :
  (old_Mz <= Mz (IceModelVec3.grid v))%nat ->
  (forall i j, owned (IceModelVec3.grid v) i j ->
               length (IceModelVec3.array v i j) = Mz (IceModelVec3.grid v)) ->
  exists v',
    IceModelVec3.fill_new_levels ghostComm old_Mz filler v = Ok v' /\
    forall i j, owned (IceModelVec3.grid v) i j ->
                extended_column (Mz (IceModelVec3.grid v)) old_Mz (filler i j)
                                (IceModelVec3.array v i j)
                                (IceModelVec3.array v' i j).
Proof.
  intros Hle Hlen. unfold IceModelVec3.fill_new_levels.
  set (g := IceModelVec3.grid v) in *.
  destruct (for_owned_ok g
              (fun i j col =>
                 for_loop (fun k col => write col k (filler i j))
                          old_Mz (Mz g - old_Mz) col)
              (fun i j col' =>
                 extended_column (Mz g) old_Mz (filler i j)
                                 (IceModelVec3.array v i j) col')
              (IceModelVec3.array v)) as [a [Hloop Hcells]].
  - intros i j Hown.
    destruct (fill_levels_ok (filler i j) old_Mz (Mz g)
                (IceModelVec3.array v i j) Hle (Hlen i j Hown))
      as (col' & Hfill & Hl & Hkeep & Hnew).
    exists col'. split; [assumption|]. split; [|split]; assumption.
  - rewrite Hloop. cbn [bind]. eexists. split; [reflexivity|].
    intros i j Hown.
    destruct (IceModelVec3.localp v).
    + rewrite ghostComm_owned by exact Hown.
      cbn [IceModelVec3.array]. apply Hcells. assumption.
    + cbn [IceModelVec3.array]. apply Hcells. assumption.
Qed.

Lemma extend_vertically_with_ok (junk : Z -> Z -> nat -> Q) (old_Mz : nat)
      (filler : Z -> Z -> Q) (v : IceModelVec3.t) :
  (old_Mz <= Mz (IceModelVec3.grid v))%nat ->
  (forall i j, owned (IceModelVec3.grid v) i j ->
               (old_Mz <= length (IceModelVec3.array v i j))%nat) ->
  exists v',
    (v1 <- IceModelVec3.extend_vertically_private junk old_Mz v ;;
     IceModelVec3.fill_new_levels ghostComm old_Mz filler v1) = Ok v' /\
    forall i j, owned (IceModelVec3.grid v) i j ->
                extended_column (Mz (IceModelVec3.grid v)) old_Mz (filler i j)
                                (IceModelVec3.array v i j)
                                (IceModelVec3.array v' i j).
Proof.
  intros Hle Hold.
  destruct (extend_vertically_private_ok junk old_Mz v Hle Hold)
    as (v1 & Hpriv & Hg & _ & Hcopy).
  rewrite Hpriv. cbn [bind].
  destruct (fill_new_levels_ok old_Mz filler v1) as (v' & Hfill & Hcells).
  - rewrite Hg. assumption.
  - intros i j Hown. rewrite Hg in *. apply Hcopy. assumption.
  - exists v'. split; [assumption|].
    intros i j Hown. rewrite Hg in Hcells.
    destruct (Hcells i j Hown) as (Hl & Hkeep & Hnew).
    destruct (Hcopy i j Hown) as (_ & Hsame).
    split; [assumption|]. split; [|assumption].
    intros k Hk. rewrite (Hkeep k Hk). apply Hsame. assumption.
Qed.

(** C6. [extend_vertically(old_Mz, fill_value)] leaves in every owned
    column the stored values at the indices below [old_Mz] as they were and
    sets the indices from [old_Mz] up to the new [Mz] to [fill_value]; the
    variant with a 2-D field sets the new indices of the column (i, j) to
    the field's value at (i, j). *)
Theorem C6_extend_vertically_preserves_and_fills
        (junk : Z -> Z -> nat -> Q) (old_Mz : nat) (v : IceModelVec3.t) :
  (old_Mz <= Mz (IceModelVec3.grid v))%nat ->
  (forall i j, owned (IceModelVec3.grid v) i j ->
               (old_Mz <= length (IceModelVec3.array v i j))%nat) ->
  (forall fill_value : Q,
      exists v',
        IceModelVec3.extend_vertically ghostComm junk old_Mz fill_value v =
          Ok v' /\
        forall i j, owned (IceModelVec3.grid v) i j ->
                    extended_column (Mz (IceModelVec3.grid v)) old_Mz fill_value
                                    (IceModelVec3.array v i j)
                                    (IceModelVec3.array v' i j)) /\
  (forall fill_values : Z -> Z -> Q,
      exists v',
        IceModelVec3.extend_vertically_2d ghostComm junk old_Mz fill_values v =
          Ok v' /\
        forall i j, owned (IceModelVec3.grid v) i j ->
                    extended_column (Mz (IceModelVec3.grid v)) old_Mz
                                    (fill_values i j)
                                    (IceModelVec3.array v i j)
                                    (IceModelVec3.array v' i j)).
Proof.
  intros Hle Hold. split.
  - intro fill_value.
    apply (extend_vertically_with_ok junk old_Mz (fun _ _ => fill_value) v);
      assumption.
  - intro fill_values.
    apply (extend_vertically_with_ok junk old_Mz fill_values v); assumption.
Qed.

End ExtendVertically.

Lemma C6_extend_vertically_preserves_and_fills_witness :
  exists v',
    IceModelVec3.extend_vertically (fun v => v) (fun _ _ _ => 0) 2 7
                                   field_before_extension = Ok v' /\
    forall i j, owned scenario_grid i j ->
                extended_column 4 2 7 [100; 200] (IceModelVec3.array v' i j).
Proof.
  apply (proj1 (C6_extend_vertically_preserves_and_fills
                  (fun v => v) (fun v i j _ => eq_refl)
                  (fun _ _ _ => 0) 2 field_before_extension
                  ltac:(simpl; lia) ltac:(intros; simpl; lia))).
Defined.

(** ** [setValColumnPL] on a column that covers the stored levels *)

Lemma for_loop_st_inv {S : Type} (Inv : nat -> S -> Prop)
      (body : nat -> S -> outcome S) :
  forall count lo s,
    Inv lo s ->
    (forall k t, (lo <= k < lo + count)%nat -> Inv k t ->
                 exists t', body k t = Ok t' /\ Inv (Datatypes.S k) t') ->
    exists s', for_loop_st body lo count s = (Ok tt, s') /\
               Inv (lo + count)%nat s'.
Proof.
  induction count as [|c IH]; intros lo s H0 Hstep; cbn [for_loop_st].
  - exists s. rewrite Nat.add_0_r. auto.
  - destruct (Hstep lo s) as [t [Hb Ht]]; [lia | assumption |].
    rewrite Hb.
    destruct (IH (Datatypes.S lo) t Ht) as [s' [Hl Hs']].
    + intros k u Hk Hu. apply Hstep; [lia | assumption].
    + exists s'. split; [assumption|].
      now replace (lo + Datatypes.S c)%nat with (Datatypes.S lo + c)%nat by lia.
Qed.

Section SetValColumnPL.
Variable g : IceGrid.
Variables levelsIN valsIN : list Q.
Let levels := zlevels g.
Let nlevels := length levelsIN.
Hypothesis Hgrid : grid_ok g.
Hypothesis HlevelsIN : strictly_increasing levelsIN.
Hypothesis HvalsIN : length valsIN = nlevels.
Hypothesis Hfirst : nth 0 levelsIN 0 <= 0.
Hypothesis Hlast : Lz g <= nth (nlevels - 1) levelsIN 0.

Lemma covering_column_has_two_levels : (2 <= nlevels)%nat.
Proof using Hgrid Hfirst Hlast.
  clear HvalsIN HlevelsIN.
  destruct Hgrid as (Hlen & HMz & Hs & Hbase & Htop).
  fold levels in Hlen, Hs, Hbase, Htop.
  pose proof (strictly_increasing_lt levels Hs 0 (Mz g - 1) ltac:(lia)
                ltac:(lia)) as Hpos.
  destruct (Nat.lt_ge_cases nlevels 2) as [Hsmall|]; [|assumption].
  exfalso. replace (nlevels - 1)%nat with 0%nat in Hlast by lia. lra.
Qed.

Lemma setValColumnPL_body_ok (k : nat) (s : nat * list Q) :
  (k < Mz g)%nat -> set_invariant g levelsIN valsIN k s ->
  exists s', IceModelVec3.setValColumnPL_body g levelsIN valsIN k s = Ok s' /\
             set_invariant g levelsIN valsIN (Datatypes.S k) s'.
Proof using Hgrid HlevelsIN HvalsIN Hfirst Hlast.
  destruct s as [mcurr col]. intros Hk (Hcol & Hm & Hbelow & Hdone).
  fold levels in Hbelow, Hdone. fold nlevels in Hm.
  pose proof covering_column_has_two_levels as Hn.
  destruct Hgrid as (Hlen & HMz & Hs & Hbase & Htop).
  fold levels in Hlen, Hs, Hbase, Htop.
  unfold IceModelVec3.setValColumnPL_body. fold levels.
  rewrite (read_nth levels k 0) by lia. cbn [bind].
  set (z := nth k levels 0).
  assert (Hz0 : 0 <= z).
  { pose proof (strictly_increasing_le levels Hs 0 k ltac:(lia) ltac:(lia)).
    subst z. lra. }
  assert (Hztop : z <= nth (nlevels - 1) levelsIN 0).
  { pose proof (strictly_increasing_le levels Hs k (Mz g - 1) ltac:(lia)
                  ltac:(lia)).
    subst z. lra. }
  destruct (bracket_scan_spec levelsIN z nlevels mcurr (nlevels - 1))
    as (m & Hscan & Hr & Hle & Hnew); try (fold nlevels; lia);
    try assumption.
  rewrite Hscan. cbn [bind].
  rewrite (read_nth levelsIN m 0) by (fold nlevels; lia). cbn [bind].
  rewrite (read_nth levelsIN (m + 1) 0) by (fold nlevels; lia). cbn [bind].
  rewrite (read_nth valsIN m 0) by lia. cbn [bind].
  rewrite (read_nth valsIN (m + 1) 0) by lia. cbn [bind].
  rewrite write_in by lia. cbn [bind].
  replace (Datatypes.S m) with (m + 1)%nat in Hle by lia.
  assert (Hbr : lower_bracket levelsIN z m).
  { split; [fold nlevels; lia|]. split; [assumption|].
    intros j Hj. destruct (Nat.le_gt_cases j mcurr).
    - apply (Hbelow j k); lia.
    - apply Hnew. lia. }
  eexists. split; [reflexivity|].
  unfold set_invariant. fold levels. fold nlevels. rewrite length_update.
  split; [assumption|]. split; [lia|]. split.
  - intros j q Hj Hq. destruct Hbr as (_ & _ & Hb).
    apply Qlt_trans with z; [apply Hb; lia|].
    apply strictly_increasing_lt; auto; lia.
  - intros q Hq. destruct (Nat.eq_dec q k) as [->|Hne].
    + rewrite nth_update_eq by lia. fold z.
      exists m. split; [assumption|]. split; [|reflexivity].
      destruct (Nat.eq_dec m 0) as [->|Hm0]; [lra|].
      apply Qlt_le_weak. destruct Hbr as (_ & _ & Hb). apply Hb. lia.
    + rewrite nth_update_ne by lia. apply Hdone. lia.
Qed.

End SetValColumnPL.

(** X3. [setValColumnPL] on a column that covers the stored levels, as its
    comment requires ([levelsIN[0] <= 0] and [levelsIN[nlevels-1] >= Lz]):
    every access stays inside the arrays, the call succeeds, and every
    stored level receives the linear interpolant of the input bracket that
    encloses it. *)
Theorem setValColumnPL_covering_column_interpolates
        (v : IceModelVec3.t) (i j : Z) (levelsIN valsIN : list Q) :
  grid_ok (IceModelVec3.grid v) ->
  length (IceModelVec3.array v i j) = Mz (IceModelVec3.grid v) ->
  strictly_increasing levelsIN ->
  length valsIN = length levelsIN ->
  nth 0 levelsIN 0 <= 0 ->
  Lz (IceModelVec3.grid v) <= nth (length levelsIN - 1) levelsIN 0 ->
  exists v',
    IceModelVec3.setValColumnPL v i j levelsIN valsIN = (Ok tt, v') /\
    length (IceModelVec3.array v' i j) = Mz (IceModelVec3.grid v) /\
    forall k, (k < Mz (IceModelVec3.grid v))%nat ->
              set_value levelsIN valsIN
                        (nth k (zlevels (IceModelVec3.grid v)) 0)
                        (nth k (IceModelVec3.array v' i j) 0).
Proof.
  intros Hgrid Hcol Hs Hvals Hfirst Hlast.
  pose proof (covering_column_has_two_levels (IceModelVec3.grid v) levelsIN
                Hgrid Hfirst Hlast) as Hn.
  unfold IceModelVec3.setValColumnPL.
  assert (Hchecks : IceModelVec3.setValColumnPL_checks
                      (IceModelVec3.grid v) levelsIN = Ok tt).
  { unfold IceModelVec3.setValColumnPL_checks.
    rewrite (read_nth levelsIN 0 0) by lia. cbn [bind].
    case_Qltb (0 + (1 # 1000)) (nth 0 levelsIN 0) E1; [lra|]. cbn [bind].
    rewrite (read_nth levelsIN (length levelsIN - 1) 0) by lia. cbn [bind].
    case_Qltb (nth (length levelsIN - 1) levelsIN 0)
              (Lz (IceModelVec3.grid v) - (1 # 1000)) E2; [lra|].
    cbn [bind]. now apply check_levelsIN_ok. }
  rewrite Hchecks.
  destruct (for_loop_st_inv
              (set_invariant (IceModelVec3.grid v) levelsIN valsIN)
              (IceModelVec3.setValColumnPL_body (IceModelVec3.grid v)
                                                levelsIN valsIN)
              (Mz (IceModelVec3.grid v)) 0%nat
              (0%nat, IceModelVec3.array v i j))
    as ([mcurr col] & Hloop & Hlen & _ & _ & Hdone).
  - split; [assumption|]. split; [lia|]. split; intros; lia.
  - intros k t Hk Ht.
    apply setValColumnPL_body_ok; auto. lia.
  - rewrite Hloop. eexists. split; [reflexivity|].
    cbn [IceModelVec3.array]. rewrite set_column_of_same.
    split; [assumption|]. exact Hdone.
Qed.

Lemma scenario_levels_increasing : strictly_increasing [0; 10; 20; 30].
Proof.
  intros q Hq. simpl in Hq.
  destruct q as [|[|[|q]]]; simpl; try reflexivity; lia.
Qed.

Lemma setValColumnPL_covering_column_interpolates_witness :
  exists v',
    IceModelVec3.setValColumnPL scenario_field 0 0 [0; 10; 20; 30]
                                [1; 2; 3; 4] = (Ok tt, v') /\
    length (IceModelVec3.array v' 0%Z 0%Z) = 4%nat /\
    forall k, (k < 4)%nat ->
              set_value [0; 10; 20; 30] [1; 2; 3; 4]
                        (nth k [0; 10; 20; 30] 0)
                        (nth k (IceModelVec3.array v' 0%Z 0%Z) 0).
Proof.
  apply (setValColumnPL_covering_column_interpolates
           scenario_field 0%Z 0%Z [0; 10; 20; 30] [1; 2; 3; 4]).
  - exact scenario_grid_ok.
  - reflexivity.
  - exact scenario_levels_increasing.
  - reflexivity.
  - vm_compute. discriminate.
  - vm_compute. discriminate.
Defined.

(** ** The periodic policy inside the grid *)

(** For a query inside the grid the periodic policy takes the regular
    bracket and the weight of the linear policy. *)
Lemma periodic_entry_inside (input_x : list Q) (period x : Q) :
  strictly_increasing input_x -> (2 <= length input_x)%nat ->
  nth 0 input_x 0 <= x -> x < nth (length input_x - 1) input_x 0 ->
  exists L alpha,
    LinearPeriodic.entry input_x period x = Ok (L, (L + 1)%nat, alpha) /\
    (L + 1 < length input_x)%nat /\
    nth L input_x 0 <= x /\ x < nth (L + 1) input_x 0 /\
    alpha = (x - nth L input_x 0) / (nth (L + 1) input_x 0 - nth L input_x 0).
Proof.
  intros Hs Hn Hlo Hhi. unfold LinearPeriodic.entry.
  set (n := length input_x) in *.
  rewrite (read_nth input_x 0 0) by lia. cbn [bind].
  set (x0 := nth 0 input_x 0) in *.
  case_Qltb x x0 Hx; [lra|].
  destruct (gsl_interp_bsearch_spec input_x x 0 n)
    as [L [HL [Hrange [Hbelow Habove]]]]; try lia.
  rewrite HL. cbn [bind].
  assert (HxL : nth L input_x 0 <= x).
  { destruct Hbelow as [->|]; [fold x0; lra | assumption]. }
  assert (E : (L + 1 < n)%nat).
  { destruct (Nat.lt_ge_cases (L + 1) n) as [|Hge]; [assumption|].
    assert (HLn : L = (n - 1)%nat) by lia.
    rewrite HLn in HxL. lra. }
  rewrite (proj2 (Nat.ltb_lt _ _) E).
  rewrite (read_nth input_x L 0) by lia. cbn [bind].
  rewrite (read_nth input_x (L + 1) 0) by lia. cbn [bind].
  replace (L <? L + 1)%nat with true
    by (symmetry; apply Nat.ltb_lt; lia).
  exists L. eexists. split; [reflexivity|].
  split; [assumption|]. split; [assumption|]. split; [|reflexivity].
  replace (L + 1)%nat with (Datatypes.S L) by lia.
  destruct Habove as [|]; [lia | assumption].
Qed.

Lemma LinearPeriodic_init_inside (input_x output_x : list Q) (period : Q) :
  strictly_increasing input_x -> (2 <= length input_x)%nat ->
  (forall i, (i < length output_x)%nat ->
             nth 0 input_x 0 <= nth i output_x 0 /\
             nth i output_x 0 < nth (length input_x - 1) input_x 0) ->
  exists I, LinearPeriodic.init input_x output_x period = Ok I /\
            valid_tables (length input_x) (length output_x) I.
Proof.
  intros Hs Hn Hwin. unfold LinearPeriodic.init.
  replace (length input_x <? 2)%nat with false
    by (symmetry; apply Nat.ltb_ge; lia).
  rewrite (check_increasing_ok input_x Hs). cbn [bind].
  set (m := length output_x) in *.
  destruct (length_resize m) as (Hl & Hr & Ha).
  destruct (for_loop_inv
              (filled_upto (fun _ => valid_entry (length input_x)) m)
              (LinearPeriodic.init_body input_x output_x period) m 0%nat
              (resize m)) as [I [HI Hinv]].
  - split; [|split; [|split]]; auto. intros ? ?. lia.
  - intros k J Hk (Hl' & Hr' & Ha' & Hfill).
    unfold LinearPeriodic.init_body.
    rewrite (read_nth output_x k 0) by (fold m; lia). cbn [bind].
    destruct (Hwin k ltac:(lia)) as [Hlo Hhi].
    destruct (periodic_entry_inside input_x period (nth k output_x 0)
                Hs Hn Hlo Hhi) as (L & alpha & He & HL & HxL & HxR & Halpha).
    assert (Hv : valid_entry (length input_x) L (L + 1) alpha).
    { destruct (Qdiv_weight (nth k output_x 0 - nth L input_x 0)
                  (nth (L + 1) input_x 0 - nth L input_x 0)) as [H0 H1];
        try lra.
      rewrite Halpha. split; [lia|]. split; [lia|]. split; assumption. }
    rewrite He. cbn [bind].
    rewrite (assert_entry_ok _ _ _ _ Hv). cbn [bind].
    rewrite !write_in by lia. cbn [bind].
    eexists. split; [reflexivity|].
    apply filled_upto_step; [lia | | exact Hv].
    exact (conj Hl' (conj Hr' (conj Ha' Hfill))).
  - exists I. split; [assumption|]. exact Hinv.
Qed.

(** X2. The postcondition of the four policies.  On a strictly increasing grid
    of at least two points the linear, nearest-neighbour and
    piecewise-constant policies succeed for every output grid, with valid
    indices and weights in [0, 1] (weights 0 or 1 for nearest neighbour,
    [left = right] and weight 0 for piecewise constant); the periodic policy
    does for queries inside the grid, [input_x[0] <= x < input_x[last]],
    where it takes the regular bracket of [x]. *)
Theorem policies_postcondition (input_x output_x : list Q) (period : Q) :
  strictly_increasing input_x -> (2 <= length input_x)%nat ->
  (exists I, init_linear input_x output_x = Ok I /\
             valid_tables (length input_x) (length output_x) I) /\
  (exists I, NearestNeighbor.init input_x output_x = Ok I /\
             valid_tables (length input_x) (length output_x) I /\
             forall i, (i < length output_x)%nat ->
                       nth i (m_alpha I) 0 = 0 \/ nth i (m_alpha I) 0 = 1) /\
  (exists I, PiecewiseConstant.init input_x output_x = Ok I /\
             valid_tables (length input_x) (length output_x) I /\
             forall i, (i < length output_x)%nat ->
                       nth i (m_left I) 0%nat = nth i (m_right I) 0%nat /\
                       nth i (m_alpha I) 0 = 0) /\
  ((forall i, (i < length output_x)%nat ->
              nth 0 input_x 0 <= nth i output_x 0 /\
              nth i output_x 0 < nth (length input_x - 1) input_x 0) ->
   exists I, LinearPeriodic.init input_x output_x period = Ok I /\
             valid_tables (length input_x) (length output_x) I).
Proof.
  intros Hs Hn. split; [|split; [|split]].
  - now apply init_linear_valid.
  - now apply NearestNeighbor_init_valid.
  - now apply PiecewiseConstant_init_valid.
  - intros Hwin. now apply LinearPeriodic_init_inside.
Qed.

Lemma policies_postcondition_witness :
  (exists I, init_linear [0; 1; 2; 3] [1 # 2; 3 # 2; 2] = Ok I /\
             valid_tables 4 3 I) /\
  (exists I, NearestNeighbor.init [0; 1; 2; 3] [1 # 2; 3 # 2; 2] = Ok I /\
             valid_tables 4 3 I /\
             forall i, (i < 3)%nat ->
                       nth i (m_alpha I) 0 = 0 \/ nth i (m_alpha I) 0 = 1) /\
  (exists I, PiecewiseConstant.init [0; 1; 2; 3] [1 # 2; 3 # 2; 2] = Ok I /\
             valid_tables 4 3 I /\
             forall i, (i < 3)%nat ->
                       nth i (m_left I) 0%nat = nth i (m_right I) 0%nat /\
                       nth i (m_alpha I) 0 = 0) /\
  (exists I, LinearPeriodic.init [0; 1; 2; 3] [1 # 2; 3 # 2; 2] 4 = Ok I /\
             valid_tables 4 3 I).
Proof.
  destruct (policies_postcondition [0; 1; 2; 3] [1 # 2; 3 # 2; 2] 4
              small_grid_increasing ltac:(simpl; lia))
    as (H1 & H2 & H3 & H4).
  split; [exact H1|]. split; [exact H2|]. split; [exact H3|].
  apply H4. intros i Hi. simpl in Hi.
  destruct i as [|[|[|i]]]; try lia;
    split; first [reflexivity | (vm_compute; discriminate)].
Defined.

(** * Further properties of the coordinate interpolator *)

(** ** Rejected grids *)

(** The loop that compares neighbours either accepts, and then the points
    it compared increase strictly, or raises its fault. *)
Lemma monotonicity_loop (f : fault) (l : list Q) :
  forall count lo,
    (lo + count <= length l - 1)%nat ->
    (for_loop (fun k (_ : unit) =>
                 a <- read l k ;;
                 b <- read l (k + 1) ;;
                 if Qleb b a then Raise f else Ok tt)
              lo count tt = Ok tt /\
     forall k, (lo <= k < lo + count)%nat -> nth k l 0 < nth (k + 1) l 0) \/
    for_loop (fun k (_ : unit) =>
                a <- read l k ;;
                b <- read l (k + 1) ;;
                if Qleb b a then Raise f else Ok tt)
             lo count tt = Raise f.
Proof.
  induction count as [|c IH]; intros lo Hlo.
  - left. split; [reflexivity|]. intros k Hk. lia.
  - cbn [for_loop].
    rewrite (read_nth l lo 0) by lia. cbn [bind].
    rewrite (read_nth l (lo + 1) 0) by lia. cbn [bind].
    case_Qleb (nth (lo + 1) l 0) (nth lo l 0) E.
    + right. reflexivity.
    + cbn [bind].
      destruct (IH (Datatypes.S lo) ltac:(lia)) as [[Hok Hinc]|Herr].
      * left. split; [assumption|]. intros k Hk.
        destruct (Nat.eq_dec k lo) as [->|Hne]; [assumption|].
        apply Hinc. lia.
      * right. assumption.
Qed.

Lemma check_increasing_rejects (input_x : list Q) :
  ~ strictly_increasing input_x ->
  check_increasing input_x = Raise RuntimeError.
Proof.
  intro Hnot. unfold check_increasing.
  destruct (monotonicity_loop RuntimeError input_x (length input_x - 1) 0
              ltac:(lia)) as [[_ Hinc]|Herr]; [|assumption].
  exfalso. apply Hnot. intros k Hk.
  replace (Datatypes.S k) with (k + 1)%nat by lia. apply Hinc. lia.
Qed.

(** X4. A grid of two or more points that is not strictly increasing is
    rejected by every policy: the constructor throws [RuntimeError],
    whatever the output grid, before any bracket is computed. *)
Theorem unsorted_grid_is_rejected (input_x output_x : list Q) (period : Q) :
  (2 <= length input_x)%nat -> ~ strictly_increasing input_x ->
  init_linear input_x output_x = Raise RuntimeError /\
  NearestNeighbor.init input_x output_x = Raise RuntimeError /\
  PiecewiseConstant.init input_x output_x = Raise RuntimeError /\
  LinearPeriodic.init input_x output_x period = Raise RuntimeError.
Proof.
  intros Hn Hnot.
  assert (Hlin : init_linear input_x output_x = Raise RuntimeError).
  { unfold init_linear.
    replace (length input_x <? 2)%nat with false
      by (symmetry; apply Nat.ltb_ge; lia).
    now rewrite (check_increasing_rejects input_x Hnot). }
  split; [assumption|]. split; [|split].
  - unfold NearestNeighbor.init. now rewrite Hlin.
  - unfold PiecewiseConstant.init.
    replace (length input_x <? 2)%nat with false
      by (symmetry; apply Nat.ltb_ge; lia).
    now rewrite (check_increasing_rejects input_x Hnot).
  - unfold LinearPeriodic.init.
    replace (length input_x <? 2)%nat with false
      by (symmetry; apply Nat.ltb_ge; lia).
    now rewrite (check_increasing_rejects input_x Hnot).
Qed.

Lemma unsorted_grid_is_rejected_witness :
  init_linear [0; 2; 1] [1] = Raise RuntimeError /\
  NearestNeighbor.init [0; 2; 1] [1] = Raise RuntimeError /\
  PiecewiseConstant.init [0; 2; 1] [1] = Raise RuntimeError /\
  LinearPeriodic.init [0; 2; 1] [1] 3 = Raise RuntimeError.
Proof.
  apply (unsorted_grid_is_rejected [0; 2; 1] [1] 3).
  - simpl. lia.
  - intro H. specialize (H 1%nat ltac:(simpl; lia)).
    vm_compute in H. discriminate.
Defined.

(** ** The nearest-neighbour tables *)

(** [NearestNeighbor::init] keeps the brackets of the linear policy and
    replaces each weight by [1] when it exceeds one half and by [0]
    otherwise. *)
Lemma NearestNeighbor_init_snaps (input_x output_x : list Q)
      (I0 : Interpolation) :
  init_linear input_x output_x = Ok I0 ->
  exists I, NearestNeighbor.init input_x output_x = Ok I /\
            m_left I = m_left I0 /\ m_right I = m_right I0 /\
            length (m_alpha I) = length (m_alpha I0) /\
            forall i, (i < length (m_alpha I0))%nat ->
                      nth i (m_alpha I) 0 =
                        if Qltb (1 # 2) (nth i (m_alpha I0) 0) then 1 else 0.
Proof.
  intro H0. unfold NearestNeighbor.init. rewrite H0. cbn [bind].
  set (m := length (m_alpha I0)).
  destruct (for_loop_inv
              (fun k a =>
                 length a = m /\
                 (forall j, (j < k)%nat ->
                            nth j a 0 =
                              if Qltb (1 # 2) (nth j (m_alpha I0) 0)
                              then 1 else 0) /\
                 (forall j, (k <= j)%nat -> nth j a 0 = nth j (m_alpha I0) 0))
              (fun j alpha =>
                 aj <- read alpha j ;;
                 write alpha j (if Qltb (1 # 2) aj then 1 else 0))
              m 0%nat (m_alpha I0))
    as [a [Hloop [Hlen [Hsnap _]]]].
  - split; [reflexivity|]. split; [intros ? ?; lia | reflexivity].
  - intros k b Hk [Hb [Hdone Hrest]].
    rewrite (read_nth b k 0) by lia. cbn [bind].
    rewrite write_in by lia.
    eexists. split; [reflexivity|].
    rewrite length_update. split; [assumption|]. split.
    + intros j Hj. destruct (Nat.eq_dec j k) as [->|Hne].
      * rewrite nth_update_eq by lia. now rewrite (Hrest k (le_n k)).
      * rewrite nth_update_ne by lia. apply Hdone. lia.
    + intros j Hj. rewrite nth_update_ne by lia. apply Hrest. lia.
  - rewrite Hloop. cbn [bind]. eexists. split; [reflexivity|].
    cbn [m_left m_right m_alpha]. auto.
Qed.

Lemma NearestNeighbor_init_keeps_valid (input_x output_x : list Q)
      (I0 : Interpolation) (n m : nat) :
  init_linear input_x output_x = Ok I0 -> valid_tables n m I0 ->
  exists I, NearestNeighbor.init input_x output_x = Ok I /\
            valid_tables n m I.
Proof.
  intros H0 (Hl & Hr & Ha & Hv).
  destruct (NearestNeighbor_init_snaps input_x output_x I0 H0)
    as (I & HI & HL & HR & Hlen & Hsnap).
  exists I. split; [assumption|].
  unfold valid_tables. rewrite HL, HR, Hlen.
  split; [|split; [|split]]; try assumption.
  intros i Hi. destruct (Hv i Hi) as (H1 & H2 & _).
  rewrite (Hsnap i ltac:(lia)).
  split; [assumption|]. split; [assumption|].
  destruct (Qltb (1 # 2) (nth i (m_alpha I0) 0)); split; lra.
Qed.

(** ** The single-point grid *)

Lemma update_repeat_same {A : Type} (x : A) (m : nat) :
  update (repeat x m) 0 x = repeat x m.
Proof. destruct m; reflexivity. Qed.

Lemma trivial_case_ok (m : nat) :
  (0 < m)%nat -> trivial_case (resize m) = Ok (resize m).
Proof.
  intro Hm. unfold trivial_case, resize. cbn [m_left m_right m_alpha].
  rewrite !write_in by (rewrite repeat_length; lia). cbn [bind].
  now rewrite !update_repeat_same.
Qed.

Lemma resize_valid (n m : nat) :
  (0 < n)%nat -> valid_tables n m (resize m).
Proof.
  intro Hn. destruct (length_resize m) as (Hl & Hr & Ha).
  split; [|split; [|split]]; try assumption.
  intros i Hi. unfold resize. cbn [m_left m_right m_alpha].
  rewrite !nth_repeat_lt by assumption.
  split; [lia|]. split; [lia|]. split; lra.
Qed.

(** With valid tables into a one-point array every result is that point's
    value. *)
Lemma interpolates_single_value (res : outcome Interpolation) (I : Interpolation)
      (v : Q) (m : nat) :
  res = Ok I -> valid_tables 1 m I ->
  interpolates_to_constant res [v] m v.
Proof.
  intros Hres Hvalid.
  destruct (interpolate_ok I [v] m Hvalid) as (r & Hr & Hlen & Hval).
  exists I, r. split; [assumption|]. split; [assumption|].
  split; [assumption|].
  intros k Hk. rewrite (Hval k Hk).
  destruct Hvalid as (_ & _ & _ & Hv).
  destruct (Hv k Hk) as (HL & HR & _). cbn [length] in HL, HR.
  replace (nth k (m_left I) 0%nat) with 0%nat by lia.
  replace (nth k (m_right I) 0%nat) with 0%nat by lia.
  cbn [nth]. ring.
Qed.

(** X5. On a grid of one point and a non-empty output grid every policy
    takes the trivial case, succeeds, and interpolates the single value
    [v] to [v] at every output point, wherever the output points lie. *)
Theorem single_point_grid_is_constant
        (x0 v period : Q) (output_x : list Q) :
  output_x <> [] ->
  interpolates_to_constant (init_linear [x0] output_x)
                           [v] (length output_x) v /\
  interpolates_to_constant (NearestNeighbor.init [x0] output_x)
                           [v] (length output_x) v /\
  interpolates_to_constant (PiecewiseConstant.init [x0] output_x)
                           [v] (length output_x) v /\
  interpolates_to_constant (LinearPeriodic.init [x0] output_x period)
                           [v] (length output_x) v.
Proof.
  intro Hne.
  assert (Hm : (0 < length output_x)%nat)
    by (destruct output_x; [congruence | simpl; lia]).
  assert (Hlin : init_linear [x0] output_x = Ok (resize (length output_x))).
  { unfold init_linear. cbn [length Nat.ltb Nat.leb].
    now apply trivial_case_ok. }
  split; [|split; [|split]].
  - apply (interpolates_single_value _ (resize (length output_x)));
      [assumption | apply resize_valid; lia].
  - destruct (NearestNeighbor_init_keeps_valid [x0] output_x _ 1
                (length output_x) Hlin (resize_valid 1 _ ltac:(lia)))
      as (I & HI & Hvalid).
    now apply (interpolates_single_value _ I).
  - apply (interpolates_single_value _ (resize (length output_x)));
      [|apply resize_valid; lia].
    unfold PiecewiseConstant.init. cbn [length Nat.ltb Nat.leb].
    now apply trivial_case_ok.
  - apply (interpolates_single_value _ (resize (length output_x)));
      [|apply resize_valid; lia].
    unfold LinearPeriodic.init. cbn [length Nat.ltb Nat.leb].
    now apply trivial_case_ok.
Qed.

Lemma single_point_grid_is_constant_witness :
  interpolates_to_constant (init_linear [5] [-(1); 7]) [42] 2 42 /\
  interpolates_to_constant (NearestNeighbor.init [5] [-(1); 7]) [42] 2 42 /\
  interpolates_to_constant (PiecewiseConstant.init [5] [-(1); 7]) [42] 2 42 /\
  interpolates_to_constant (LinearPeriodic.init [5] [-(1); 7] 1) [42] 2 42.
Proof.
  apply (single_point_grid_is_constant 5 42 1 [-(1); 7]).
  discriminate.
Defined.

(** ** What the linear and the nearest-neighbour policies return *)

Lemma linear_entry_has_shape (xs : list Q) (x : Q) (L R : nat) (alpha : Q) :
  strictly_increasing xs -> (2 <= length xs)%nat ->
  linear_entry xs x L R alpha -> linear_entry_shape xs x L R alpha.
Proof.
  intros Hs Hn ((HL & Hlo & Hhi & Hin) & HR1 & HR0 & Hreg & Hext & Hsame).
  unfold linear_entry_shape. cbv zeta.
  set (n := length xs) in *.
  destruct (Qlt_le_dec x (nth 0 xs 0)) as [Hbelow|Hfrom].
  - (* below the grid *)
    left. pose proof (Hlo Hbelow) as ->.
    pose proof (HR0 ltac:(lra)) as ->.
    split; [lra|]. split; [reflexivity|]. split; [reflexivity|].
    now apply Hsame.
  - destruct (Qlt_le_dec x (nth (n - 1) xs 0)) as [Hin1|Hafter].
    + (* inside the grid *)
      destruct (Hin Hfrom Hin1) as [HxL HxR].
      right. right.
      split; [assumption|]. split; [assumption|]. split; [lia|].
      replace (Datatypes.S L) with (L + 1)%nat in HxR by lia.
      split; [assumption|]. split; [assumption|].
      destruct (Qlt_le_dec (nth L xs 0) x) as [Hgt|Hle].
      * right. pose proof (HR1 Hgt) as ->.
        split; [assumption|]. split; [reflexivity|].
        apply Hreg; [lia | lra].
      * left. pose proof (HR0 Hle) as ->.
        split; [lra|]. split; [reflexivity|]. now apply Hsame.
    + (* at or after the last point *)
      right. left. pose proof (Hhi Hafter) as ->.
      pose proof (Hs (n - 2)%nat ltac:(lia)) as Hlt.
      replace (Datatypes.S (n - 2)) with (n - 1)%nat in Hlt by lia.
      pose proof (HR1 ltac:(lra)) as ->.
      replace (n - 2 + 1)%nat with (n - 1)%nat in * by lia.
      split; [assumption|]. split; [reflexivity|]. split; [reflexivity|].
      destruct (Qlt_le_dec (nth (n - 1) xs 0) x) as [Hgt|Hle].
      * rewrite Hext by (try lia; assumption). reflexivity.
      * rewrite Hreg by (try lia; assumption).
        assert (Hx : x == nth (n - 1) xs 0) by lra.
        rewrite Hx. field. lra.
Qed.

Lemma linear_shape_result (xs values : list Q) (x : Q) (L R : nat)
      (alpha : Q) :
  strictly_increasing xs -> (2 <= length xs)%nat ->
  linear_entry_shape xs x L R alpha ->
  linear_result xs values x
                (nth L values 0 + alpha * (nth R values 0 - nth L values 0)).
Proof.
  intros Hs Hn Hshape. unfold linear_result. cbv zeta.
  unfold linear_entry_shape in Hshape. cbv zeta in Hshape.
  set (n := length xs) in *.
  pose proof (strictly_increasing_lt xs Hs 0 (n - 1) ltac:(lia) ltac:(lia))
    as Hspan.
  destruct Hshape as [(Hx & -> & -> & ->)|[(Hx & -> & -> & Ha)|
                      (H0 & H1 & HL & HxL & HxR & Hcase)]].
  - (* at or below the first point *)
    split; [intros _; ring|]. split; [intro; lra|].
    intros Hfrom _. exists 0%nat.
    pose proof (Hs 0%nat ltac:(lia)) as H01.
    split; [lia|]. split; [assumption|]. split; [cbn [Nat.add]; lra|].
    split; [intros _; ring | intro; lra].
  - (* at or above the last point *)
    split; [intro; lra|]. split; [|intros _ ?; lra].
    intros _. exists alpha.
    replace (n - 2 + 1)%nat with (n - 1)%nat by lia.
    split; [exact Ha | reflexivity].
  - (* inside the grid *)
    pose proof (strictly_increasing_le xs Hs 0 L ltac:(lia) ltac:(lia))
      as H0L.
    split; [|split; [intro; lra|]].
    + intro Hx0.
      assert (L = 0%nat) as ->.
      { destruct (Nat.eq_dec L 0) as [|Hne]; [assumption|].
        pose proof (strictly_increasing_lt xs Hs 0 L ltac:(lia) ltac:(lia)).
        lra. }
      destruct Hcase as [(_ & -> & ->)|(Hgt & _ & _)]; [ring | lra].
    + intros _ _. exists L.
      split; [assumption|]. split; [assumption|]. split; [assumption|].
      destruct Hcase as [(Hx & -> & ->)|(Hgt & -> & ->)].
      * split; [intros _; ring | intro; lra].
      * split; [intro; lra | intros _; reflexivity].
Qed.

(** X7. The linear policy clamps outside the grid and interpolates inside:
    for a strictly increasing grid of at least two points and values of the
    grid's length, every output point at or below the first grid point gets
    the first value; every output point at or above the last grid point
    gets the blend [values[n-2] + alpha * (values[n-1] - values[n-2])] with
    a weight equal to [1] (the last value, up to rounding in binary64); an
    output point on a grid point inside the grid gets the value there, and
    any other output point inside the grid gets the linear interpolant of
    the bracket that encloses it. *)
Theorem linear_policy_clamps_and_interpolates
        (input_x output_x values : list Q) :
  strictly_increasing input_x -> (2 <= length input_x)%nat ->
  length values = length input_x ->
  exists I r,
    init_linear input_x output_x = Ok I /\
    interpolate I values = Ok r /\
    length r = length output_x /\
    forall i, (i < length output_x)%nat ->
              linear_result input_x values (nth i output_x 0) (nth i r 0).
Proof.
  intros Hs Hn Hv.
  destruct (init_linear_ok input_x output_x Hs Hn)
    as (I & HI & Hl & Hr & Ha & Hent).
  assert (Hvalid : valid_tables (length values) (length output_x) I).
  { rewrite Hv. split; [|split; [|split]]; try assumption.
    intros i Hi. apply (linear_entry_valid input_x (nth i output_x 0)); auto. }
  destruct (interpolate_ok I values _ Hvalid) as (r & Hres & Hlen & Hval).
  exists I, r. repeat (split; [assumption|]).
  intros i Hi. rewrite (Hval i Hi).
  apply linear_shape_result; auto.
  apply linear_entry_has_shape; auto.
Qed.

Lemma linear_policy_clamps_and_interpolates_witness :
  exists I r,
    init_linear [0; 1; 2; 3] [-(1); 5] = Ok I /\
    interpolate I [10; 20; 30; 40] = Ok r /\
    length r = 2%nat /\
    forall i, (i < 2)%nat ->
              linear_result [0; 1; 2; 3] [10; 20; 30; 40]
                            (nth i [-(1); 5] 0) (nth i r 0).
Proof.
  apply (linear_policy_clamps_and_interpolates
           [0; 1; 2; 3] [-(1); 5] [10; 20; 30; 40]).
  - exact small_grid_increasing.
  - simpl. lia.
  - reflexivity.
Defined.



(** ** What the piecewise-constant policy returns *)

Lemma PiecewiseConstant_init_body_bracket (input_x output_x : list Q)
      (i : nat) (I : Interpolation) :
  strictly_increasing input_x -> (2 <= length input_x)%nat ->
  (i < length output_x)%nat ->
  length (m_left I) = length output_x ->
  length (m_right I) = length output_x ->
  length (m_alpha I) = length output_x ->
  exists L,
    PiecewiseConstant.init_body input_x output_x i I =
      Ok {| m_left := update (m_left I) i L;
            m_right := update (m_right I) i L;
            m_alpha := update (m_alpha I) i 0 |} /\
    bracket_clamped input_x (nth i output_x 0) L.
Proof.
  intros Hs Hn Hi Hl Hr Ha. unfold PiecewiseConstant.init_body.
  rewrite (read_nth output_x i 0) by assumption. cbn [bind].
  destruct (gsl_interp_bsearch_spec input_x (nth i output_x 0) 0
              (length input_x - 1)) as [L [HL [Hrange [Hlo Hhi]]]]; try lia.
  rewrite HL. cbn [bind].
  rewrite !write_in by lia. cbn [bind].
  rewrite assert_entry_ok by (repeat split; try lia; lra).
  cbn [bind]. exists L. split; [reflexivity|].
  now apply bracket_of_search.
Qed.

(** X10. The piecewise-constant policy returns the sample at the left end
    of the clamped bracket: the value [values[L]] with [L] the bracket index
    at or below the output point, between [0] and [size-2].  So an output
    point below the second grid point gets the first value, and an output
    point at or above the last grid point gets the value before the last:
    the last value is never returned. *)
Theorem piecewise_constant_returns_left_sample
        (input_x output_x values : list Q) :
  strictly_increasing input_x -> (2 <= length input_x)%nat ->
  length values = length input_x ->
  exists I r,
    PiecewiseConstant.init input_x output_x = Ok I /\
    interpolate I values = Ok r /\
    length r = length output_x /\
    forall i, (i < length output_x)%nat ->
              (exists L, bracket_clamped input_x (nth i output_x 0) L /\
                         nth i (m_left I) 0%nat = L /\
                         nth i r 0 == nth L values 0) /\
              (nth i output_x 0 < nth 1 input_x 0 ->
               nth i r 0 == nth 0 values 0) /\
              (nth (length input_x - 1) input_x 0 <= nth i output_x 0 ->
               nth i r 0 == nth (length input_x - 2) values 0).
Proof.
  intros Hs Hn Hv. unfold PiecewiseConstant.init.
  replace (length input_x <? 2)%nat with false
    by (symmetry; apply Nat.ltb_ge; lia).
  rewrite (check_increasing_ok input_x Hs). cbn [bind].
  set (m := length output_x).
  destruct (length_resize m) as (Hl & Hr & Ha).
  destruct (for_loop_inv
              (filled_upto (fun i L R alpha =>
                              bracket_clamped input_x (nth i output_x 0) L /\
                              R = L /\ alpha = 0) m)
              (PiecewiseConstant.init_body input_x output_x) m 0%nat
              (resize m))
    as [I [HI (Hl' & Hr' & Ha' & Hfill)]].
  - split; [|split; [|split]]; auto. intros ? ?. lia.
  - intros k J Hk (Hl' & Hr' & Ha' & Hfill).
    destruct (PiecewiseConstant_init_body_bracket input_x output_x k J Hs Hn)
      as (L & Hbody & HL); try (fold m; lia).
    eexists. split; [exact Hbody|].
    apply filled_upto_step; [lia | | auto].
    exact (conj Hl' (conj Hr' (conj Ha' Hfill))).
  - cbn [Nat.add] in Hfill.
    assert (Hvalid : valid_tables (length values) m I).
    { rewrite Hv. split; [|split; [|split]]; try assumption.
      intros i Hi. destruct (Hfill i Hi) as ((HL & _) & HR & Halpha).
      rewrite HR, Halpha. split; [lia|]. split; [lia|]. split; lra. }
    destruct (interpolate_ok I values m Hvalid) as (r & Hres & Hlen & Hval).
    exists I, r. repeat (split; [assumption|]).
    intros i Hi. destruct (Hfill i Hi) as (Hbr & HR & Halpha).
    assert (Hri : nth i r 0 == nth (nth i (m_left I) 0%nat) values 0).
    { rewrite (Hval i Hi), HR, Halpha. ring. }
    split; [|split].
    + eexists. split; [exact Hbr|]. split; [reflexivity | assumption].
    + intro Hx. rewrite Hri.
      destruct Hbr as (HL & Hlo & Hhi & Hin).
      set (L := nth i (m_left I) 0%nat) in *.
      destruct (Nat.eq_dec L 0) as [->|Hne]; [reflexivity|].
      exfalso.
      pose proof (strictly_increasing_le input_x Hs 1 L ltac:(lia)
                    ltac:(lia)) as H1L.
      pose proof (strictly_increasing_lt input_x Hs 0 1 ltac:(lia)
                    ltac:(lia)) as H01.
      pose proof (strictly_increasing_le input_x Hs 1 (length input_x - 1)
                    ltac:(lia) ltac:(lia)) as H1n.
      destruct (Qlt_le_dec (nth i output_x 0) (nth 0 input_x 0)) as [Hb|Hf].
      * apply Hne. now apply Hlo.
      * destruct (Hin Hf ltac:(lra)) as [HxL _]. lra.
    + intro Hx. rewrite Hri.
      destruct Hbr as (_ & _ & Hhi & _). now rewrite (Hhi Hx).
Qed.

Lemma piecewise_constant_returns_left_sample_witness :
  exists I r,
    PiecewiseConstant.init [0; 1; 2; 3] [3 # 2; 3] = Ok I /\
    interpolate I [10; 20; 30; 40] = Ok r /\
    length r = 2%nat /\
    forall i, (i < 2)%nat ->
              (exists L, bracket_clamped [0; 1; 2; 3] (nth i [3 # 2; 3] 0) L /\
                         nth i (m_left I) 0%nat = L /\
                         nth i r 0 == nth L [10; 20; 30; 40] 0) /\
              (nth i [3 # 2; 3] 0 < nth 1 [0; 1; 2; 3] 0 ->
               nth i r 0 == nth 0 [10; 20; 30; 40] 0) /\
              (nth (4 - 1) [0; 1; 2; 3] 0 <= nth i [3 # 2; 3] 0 ->
               nth i r 0 == nth (4 - 2) [10; 20; 30; 40] 0).
Proof.
  apply (piecewise_constant_returns_left_sample
           [0; 1; 2; 3] [3 # 2; 3] [10; 20; 30; 40]).
  - exact small_grid_increasing.
  - simpl. lia.
  - reflexivity.
Defined.

(** * Further properties of the column store *)

(** ** [getValColumnPL] *)

Lemma grid_ok_levels (g : IceGrid) : grid_ok g -> levels_ok g.
Proof. intros (Hlen & HMz & Hs & _). repeat split; assumption. Qed.

Section GetValColumnPL.
Variable g : IceGrid.
Variables col levelsIN : list Q.
Let levels := zlevels g.
Let n := length levelsIN.
Hypothesis Hgrid : levels_ok g.
Hypothesis Hcol : length col = Mz g.
Hypothesis HlevelsIN : strictly_increasing levelsIN.

Lemma getValColumnPL_body_ok (k : nat) (s : nat * list Q) :
  (k < n)%nat -> pl_invariant g col levelsIN k s ->
  exists s', IceModelVec3.getValColumnPL_body g col levelsIN k s = Ok s' /\
             pl_invariant g col levelsIN (Datatypes.S k) s'.
Proof.
  destruct s as [mcurr out]. intros Hk (Hout & Hm & Hbelow & Hdone).
  fold levels in Hbelow, Hdone. fold n in Hout, Hbelow.
  destruct Hgrid as (Hlen & HMz & Hs).
  fold levels in Hlen, Hs.
  unfold IceModelVec3.getValColumnPL_body. fold levels.
  rewrite (read_nth levelsIN k 0) by (fold n; lia). cbn [bind].
  set (z := nth k levelsIN 0).
  rewrite (read_nth levels (Mz g - 1) 0) by lia. cbn [bind].
  assert (Hlater : forall q, (Datatypes.S k <= q < n)%nat ->
                             z < nth q levelsIN 0).
  { intros q Hq. apply strictly_increasing_lt; auto; fold n; lia. }
  case_Qltb (nth (Mz g - 1) levels 0) z Htopz.
  - rewrite (read_nth col (Mz g - 1) 0) by lia. cbn [bind].
    rewrite write_in by lia. cbn [bind].
    eexists. split; [reflexivity|].
    unfold pl_invariant. fold levels. fold n. rewrite length_update.
    split; [assumption|]. split; [assumption|]. split.
    + intros j q Hj Hq. apply Hbelow; lia.
    + intros q Hq. destruct (Nat.eq_dec q k) as [->|Hne].
      * rewrite nth_update_eq by lia. fold z.
        unfold pl_value. fold levels. rewrite Hlen. cbv zeta.
        split; [reflexivity | intro; lra].
      * rewrite nth_update_ne by lia. apply Hdone. lia.
  - destruct (bracket_scan_spec levels z (Mz g) mcurr (Mz g - 1))
      as (m & Hscan & Hr & Hle & Hnew); try lia; try assumption.
    rewrite Hscan. cbn [bind].
    rewrite (read_nth levels m 0) by lia. cbn [bind].
    rewrite (read_nth levels (m + 1) 0) by lia. cbn [bind].
    rewrite (read_nth col m 0) by lia. cbn [bind].
    rewrite (read_nth col (m + 1) 0) by lia. cbn [bind].
    rewrite write_in by lia. cbn [bind].
    replace (Datatypes.S m) with (m + 1)%nat in Hle by lia.
    assert (Hbr : lower_bracket levels z m).
    { split; [lia|]. split; [assumption|].
      intros j Hj. destruct (Nat.le_gt_cases j mcurr).
      - apply (Hbelow j k); lia.
      - apply Hnew. lia. }
    eexists. split; [reflexivity|].
    unfold pl_invariant. fold levels. fold n. rewrite length_update.
    split; [assumption|]. split; [lia|]. split.
    + intros j q Hj Hq. destruct Hbr as (_ & _ & Hb).
      apply Qlt_trans with z; [apply Hb; lia | apply Hlater; lia].
    + intros q Hq. destruct (Nat.eq_dec q k) as [->|Hne].
      * rewrite nth_update_eq by lia. fold z.
        unfold pl_value. fold levels. rewrite Hlen. cbv zeta.
        split; [intro; lra|]. intros _. exists m.
        split; [assumption | reflexivity].
      * rewrite nth_update_ne by lia. apply Hdone. lia.
Qed.

Lemma getValColumnPL_loop_ok :
  exists s, for_loop (IceModelVec3.getValColumnPL_body g col levelsIN)
                     0 n (0%nat, repeat 0 n) = Ok s /\
            pl_invariant g col levelsIN n s.
Proof.
  destruct (for_loop_inv (pl_invariant g col levelsIN)
              (IceModelVec3.getValColumnPL_body g col levelsIN)
              n 0%nat (0%nat, repeat 0 n)) as [s [Hs Hinv]].
  - destruct Hgrid as (Hlen & HMz & _).
    split; [apply repeat_length|]. split; [lia|].
    split; intros; lia.
  - intros k t Hk Ht. apply getValColumnPL_body_ok; [lia | assumption].
  - exists s. auto.
Qed.

End GetValColumnPL.

(** With a legal first level and strictly increasing levels the batch
    read returns one value per query level, as its loop leaves them. *)
Lemma getValColumnPL_ok (v : IceModelVec3.t) (i j : Z) (levelsIN : list Q) :
  grid_ok (IceModelVec3.grid v) ->
  length (IceModelVec3.array v i j) = Mz (IceModelVec3.grid v) ->
  strictly_increasing levelsIN -> (0 < length levelsIN)%nat ->
  legal_level (IceModelVec3.grid v) (nth 0 levelsIN 0) ->
  exists valsOUT,
    IceModelVec3.getValColumnPL v i j levelsIN = Ok valsOUT /\
    length valsOUT = length levelsIN /\
    forall k, (k < length levelsIN)%nat ->
              pl_value (zlevels (IceModelVec3.grid v))
                       (IceModelVec3.array v i j)
                       (nth k levelsIN 0) (nth k valsOUT 0).
Proof.
  intros Hgrid Hcol Hs Hn Hlegal.
  unfold IceModelVec3.getValColumnPL.
  rewrite getValColumn_checks_ok by assumption. cbn [bind].
  destruct (getValColumnPL_loop_ok (IceModelVec3.grid v)
              (IceModelVec3.array v i j) levelsIN
              (grid_ok_levels _ Hgrid) Hcol Hs)
    as ([mcurr out] & Hloop & Hout & _ & _ & Hdone).
  rewrite Hloop. cbn [bind snd].
  exists out. split; [reflexivity|]. split; assumption.
Qed.

(** X12. [getValColumnPL] on an ice field, for strictly increasing query
    levels the first of which is legal: the call succeeds with one value
    per query level; a query level above the top stored level gets the top
    stored value, also when it lies beyond [Lz + 1e-6], and any other
    query level gets the linear interpolant of its bracket of stored levels
    (for a first level between [-1e-6] and [0] that is the line through
    the two lowest samples, continued below the base). *)
Theorem getValColumnPL_values
        (v : IceModelVec3.t) (i j : Z) (levelsIN : list Q) :
  grid_ok (IceModelVec3.grid v) ->
  length (IceModelVec3.array v i j) = Mz (IceModelVec3.grid v) ->
  strictly_increasing levelsIN -> (0 < length levelsIN)%nat ->
  legal_level (IceModelVec3.grid v) (nth 0 levelsIN 0) ->
  exists valsOUT,
    IceModelVec3.getValColumnPL v i j levelsIN = Ok valsOUT /\
    length valsOUT = length levelsIN /\
    forall k, (k < length levelsIN)%nat ->
              pl_value (zlevels (IceModelVec3.grid v))
                       (IceModelVec3.array v i j)
                       (nth k levelsIN 0) (nth k valsOUT 0).
Proof.
  intros Hgrid Hcol Hs Hn Hlegal.
  destruct (getValColumnPL_ok v i j levelsIN Hgrid Hcol Hs Hn Hlegal)
    as (valsOUT & Hrun & Hlen & Hval).
  exists valsOUT. split; [exact Hrun|]. split; [exact Hlen | exact Hval].
Qed.

Lemma getValColumnPL_values_witness :
  exists valsOUT,
    IceModelVec3.getValColumnPL scenario_field 0 0 [0; 5; 25] = Ok valsOUT /\
    length valsOUT = 3%nat /\
    forall k, (k < 3)%nat ->
              pl_value [0; 10; 20; 30] [100; 200; 300; 400]
                       (nth k [0; 5; 25] 0) (nth k valsOUT 0).
Proof.
  apply (getValColumnPL_values scenario_field 0%Z 0%Z [0; 5; 25]).
  - exact scenario_grid_ok.
  - reflexivity.
  - exact scenario_queries_increasing.
  - simpl. lia.
  - split; vm_compute; discriminate.
Defined.

(** ** Reading a column back at the stored levels *)

Lemma linear_between_left (z0 z1 f0 f1 : Q) :
  z0 < z1 -> linear_between z0 z1 f0 f1 z0 == f0.
Proof. intro H. unfold linear_between. field. lra. Qed.

(** The bracket of the stored level [k] is the one that ends at it (the
    first one for the lowest level). *)
Lemma lower_bracket_at_level (levels : list Q) (k m : nat) :
  strictly_increasing levels -> (k < length levels)%nat ->
  lower_bracket levels (nth k levels 0) m -> m = Nat.pred k.
Proof.
  intros Hs Hk (Hm & Hle & Hbelow).
  assert (k <= m + 1)%nat.
  { destruct (Nat.le_gt_cases k (m + 1)) as [|Hgt]; [assumption|].
    pose proof (strictly_increasing_lt levels Hs (m + 1) k Hgt Hk). lra. }
  assert (m < k \/ m = 0)%nat as [Hlt|Hz]; [| lia |].
  - destruct (Nat.eq_dec m 0) as [|Hne]; [now right|]. left.
    destruct (Nat.lt_ge_cases m k) as [|Hge]; [assumption|].
    pose proof (Hbelow m ltac:(lia)).
    pose proof (strictly_increasing_le levels Hs k m Hge ltac:(lia)). lra.
  - subst m. destruct k as [|[|k]]; [reflexivity | reflexivity | lia].
Qed.

(** The weight of a level at the upper end of its bracket. *)
Lemma weight_at_upper_end (z0 z1 : Q) : z0 < z1 -> (z1 - z0) / (z1 - z0) == 1.
Proof. intro H. field. lra. Qed.

(** What [getValColumnPL] returns at a stored level: the lowest sample at
    the lowest level, and above it the blend of the bracket that ends at
    the level, with a weight equal to [1]. *)
Lemma pl_value_at_level (levels col : list Q) (k : nat) (val : Q) :
  strictly_increasing levels -> (2 <= length levels)%nat ->
  (k < length levels)%nat ->
  pl_value levels col (nth k levels 0) val ->
  (k = 0%nat -> val == nth 0 col 0) /\
  ((0 < k)%nat ->
   exists incr,
     incr == 1 /\
     val = nth (k - 1) col 0 + incr * (nth k col 0 - nth (k - 1) col 0)).
Proof.
  intros Hs Hn Hk [_ Hin].
  pose proof (strictly_increasing_le levels Hs k (length levels - 1)
                ltac:(lia) ltac:(lia)) as Htop.
  destruct (Hin Htop) as (m & Hbr & ->).
  pose proof (lower_bracket_at_level levels k m Hs Hk Hbr) as Hm.
  destruct k as [|k]; cbn [Nat.pred] in Hm; subst m.
  - split; [|intro; lia]. intros _.
    apply linear_between_left.
    apply (strictly_increasing_lt levels Hs 0 1); lia.
  - split; [intro; lia|]. intros _.
    replace (Datatypes.S k - 1)%nat with k by lia.
    replace (k + 1)%nat with (Datatypes.S k) by lia.
    eexists. split; [|reflexivity].
    apply weight_at_upper_end. apply Hs. lia.
Qed.

(** [getValZ] at a stored level: the stored value at the lowest and at the
    highest level, and in between the blend of the bracket that ends at the
    level, with a weight equal to [1]. *)
Lemma getValZ_at_level (v : IceModelVec3.t) (i j : Z) (k : nat) :
  grid_ok (IceModelVec3.grid v) ->
  length (IceModelVec3.array v i j) = Mz (IceModelVec3.grid v) ->
  (k < Mz (IceModelVec3.grid v))%nat ->
  exists r,
    IceModelVec3.getValZ v i j (nth k (zlevels (IceModelVec3.grid v)) 0) =
      Ok r /\
    (k = 0%nat \/ k = (Mz (IceModelVec3.grid v) - 1)%nat ->
     r = nth k (IceModelVec3.array v i j) 0) /\
    ((0 < k < Mz (IceModelVec3.grid v) - 1)%nat ->
     exists incr,
       incr == 1 /\
       r = nth (k - 1) (IceModelVec3.array v i j) 0 +
           incr * (nth k (IceModelVec3.array v i j) 0 -
                   nth (k - 1) (IceModelVec3.array v i j) 0)).
Proof.
  intros Hgrid Hcol Hk.
  pose proof Hgrid as (Hlen & HMz & Hs & Hbase & Htop).
  set (g := IceModelVec3.grid v) in *.
  set (levels := zlevels g) in *.
  set (z := nth k levels 0).
  pose proof (strictly_increasing_le levels Hs 0 k ltac:(lia) ltac:(lia))
    as H0k.
  pose proof (strictly_increasing_le levels Hs k (Mz g - 1) ltac:(lia)
                ltac:(lia)) as Hktop.
  fold z in H0k, Hktop.
  destruct (Nat.eq_dec k (Mz g - 1)) as [Hlast|Hnotlast].
  - exists (nth (Mz g - 1) (IceModelVec3.array v i j) 0).
    split; [|split; [intros _; now rewrite Hlast | intro; lia]].
    apply getValZ_top; try assumption; fold g; fold levels; [lra|].
    subst z. rewrite Hlast. apply Qle_refl.
  - destruct (Nat.eq_dec k 0) as [Hfirst|Hnotfirst].
    + exists (nth 0 (IceModelVec3.array v i j) 0).
      split; [|split; [intros _; now rewrite Hfirst | intro; lia]].
      apply getValZ_bottom; try assumption; fold g; fold levels.
      * lra.
      * subst z. rewrite Hfirst. lra.
    + pose proof (strictly_increasing_lt levels Hs 0 k ltac:(lia)
                    ltac:(lia)) as Hpos.
      pose proof (strictly_increasing_lt levels Hs k (Mz g - 1) ltac:(lia)
                    ltac:(lia)) as Hbelow.
      fold z in Hpos, Hbelow.
      destruct (getValZ_interior v i j Hgrid Hcol z ltac:(lra) Hbelow)
        as (m & Hm & Hlo & Hhi & Hval).
      fold g in Hm, Hlo, Hhi, Hval. fold levels in Hlo, Hhi, Hval.
      assert (m < k)%nat
        by (apply (strictly_increasing_index levels Hs); try lia; assumption).
      assert (k <= m + 1)%nat.
      { destruct (Nat.le_gt_cases k (m + 1)) as [|Hgt]; [assumption|].
        pose proof (strictly_increasing_lt levels Hs (m + 1) k Hgt
                      ltac:(lia)).
        fold z in H0. lra. }
      assert (Hk' : k = (m + 1)%nat) by lia.
      eexists. split; [exact Hval|]. split; [intros [|]; lia|].
      intros _. subst z. rewrite Hk'.
      replace (m + 1 - 1)%nat with m by lia.
      eexists. split; [|reflexivity].
      apply weight_at_upper_end.
      apply (strictly_increasing_lt levels Hs m (m + 1)); lia.
Qed.

(** X13. Reading a column back at the stored levels.  [getValZ] at the
    level [zlevels[k]] returns the stored value at the lowest and at the
    highest level; at a level in between it returns the blend
    [arr[k-1] + incr * (arr[k] - arr[k-1])] of the bracket that ends at the
    level, with a weight [incr] equal to [1].  [getValColumnPL] queried at
    all the stored levels returns the lowest stored value first and that
    blend at every higher level, the highest included.  The blend is the
    stored value [arr[k]] in exact arithmetic, and in binary64 up to the
    rounding of the difference and of the sum. *)
Theorem stored_levels_read_back (v : IceModelVec3.t) (i j : Z) :
  grid_ok (IceModelVec3.grid v) ->
  length (IceModelVec3.array v i j) = Mz (IceModelVec3.grid v) ->
  (forall k, (k < Mz (IceModelVec3.grid v))%nat ->
             exists r,
               IceModelVec3.getValZ v i j
                 (nth k (zlevels (IceModelVec3.grid v)) 0) = Ok r /\
               (k = 0%nat \/ k = (Mz (IceModelVec3.grid v) - 1)%nat ->
                r = nth k (IceModelVec3.array v i j) 0) /\
               ((0 < k < Mz (IceModelVec3.grid v) - 1)%nat ->
                exists incr,
                  incr == 1 /\
                  r = nth (k - 1) (IceModelVec3.array v i j) 0 +
                      incr * (nth k (IceModelVec3.array v i j) 0 -
                              nth (k - 1) (IceModelVec3.array v i j) 0))) /\
  (exists valsOUT,
      IceModelVec3.getValColumnPL v i j (zlevels (IceModelVec3.grid v)) =
        Ok valsOUT /\
      length valsOUT = Mz (IceModelVec3.grid v) /\
      nth 0 valsOUT 0 == nth 0 (IceModelVec3.array v i j) 0 /\
      forall k, (0 < k < Mz (IceModelVec3.grid v))%nat ->
                exists incr,
                  incr == 1 /\
                  nth k valsOUT 0 =
                    nth (k - 1) (IceModelVec3.array v i j) 0 +
                    incr * (nth k (IceModelVec3.array v i j) 0 -
                            nth (k - 1) (IceModelVec3.array v i j) 0)).
Proof.
  intros Hgrid Hcol.
  pose proof Hgrid as (Hlen & HMz & Hs & Hbase & Htop).
  assert (Hlegal : legal_level (IceModelVec3.grid v)
                               (nth 0 (zlevels (IceModelVec3.grid v)) 0)).
  { pose proof (strictly_increasing_lt _ Hs 0 (Mz (IceModelVec3.grid v) - 1)
                  ltac:(lia) ltac:(lia)).
    split; lra. }
  split.
  - intros k Hk. now apply getValZ_at_level.
  - destruct (getValColumnPL_ok v i j _ Hgrid Hcol Hs ltac:(lia) Hlegal)
      as (vals & Hrun & Hl & Hval).
    exists vals. split; [assumption|]. split; [lia|]. split.
    + apply (pl_value_at_level (zlevels (IceModelVec3.grid v))
               (IceModelVec3.array v i j) 0 _ Hs ltac:(lia) ltac:(lia)
               (Hval 0%nat ltac:(lia))).
      reflexivity.
    + intros k Hk.
      apply (pl_value_at_level (zlevels (IceModelVec3.grid v))
               (IceModelVec3.array v i j) k _ Hs ltac:(lia) ltac:(lia)
               (Hval k ltac:(lia))).
      lia.
Qed.

Lemma stored_levels_read_back_witness :
  (forall k, (k < 4)%nat ->
             exists r,
               IceModelVec3.getValZ scenario_field 0 0
                 (nth k [0; 10; 20; 30] 0) = Ok r /\
               (k = 0%nat \/ k = (4 - 1)%nat ->
                r = nth k [100; 200; 300; 400] 0) /\
               ((0 < k < 4 - 1)%nat ->
                exists incr,
                  incr == 1 /\
                  r = nth (k - 1) [100; 200; 300; 400] 0 +
                      incr * (nth k [100; 200; 300; 400] 0 -
                              nth (k - 1) [100; 200; 300; 400] 0))) /\
  (exists valsOUT,
      IceModelVec3.getValColumnPL scenario_field 0 0 [0; 10; 20; 30] =
        Ok valsOUT /\
      length valsOUT = 4%nat /\
      nth 0 valsOUT 0 == nth 0 [100; 200; 300; 400] 0 /\
      forall k, (0 < k < 4)%nat ->
                exists incr,
                  incr == 1 /\
                  nth k valsOUT 0 =
                    nth (k - 1) [100; 200; 300; 400] 0 +
                    incr * (nth k [100; 200; 300; 400] 0 -
                            nth (k - 1) [100; 200; 300; 400] 0)).
Proof.
  apply (stored_levels_read_back scenario_field 0%Z 0%Z
           scenario_grid_ok eq_refl).
Defined.

(** ** Whole columns *)

(** A counted loop that stops at the first iteration that raises. *)
Lemma for_loop_raise {S : Type} (Inv : nat -> S -> Prop)
      (body : nat -> S -> outcome S) (f : fault) :
  forall count lo s bad,
    Inv lo s ->
    (lo <= bad < lo + count)%nat ->
    (forall k t, (lo <= k < bad)%nat -> Inv k t ->
                 exists t', body k t = Ok t' /\ Inv (Datatypes.S k) t') ->
    (forall t, Inv bad t -> body bad t = Raise f) ->
    for_loop body lo count s = Raise f.
Proof.
  induction count as [|c IH]; intros lo s bad H0 Hb Hstep Hbad; cbn [for_loop].
  - lia.
  - destruct (Nat.eq_dec lo bad) as [->|Hne].
    + now rewrite (Hbad s H0).
    + destruct (Hstep lo s) as [t [Hk Ht]]; [lia | assumption |].
      rewrite Hk. cbn [bind].
      apply (IH (Datatypes.S lo) t bad); auto; try lia.
      intros k u Hku Hu. apply Hstep; [lia | assumption].
Qed.

Lemma fill_column_ok (c : Q) (n : nat) :
  forall col, length col = n ->
              for_loop (fun k col => write col k c) 0 n col = Ok (repeat c n).
Proof.
  intros col Hcol.
  destruct (for_loop_inv
              (fun k l => length l = n /\
                          forall q, (q < k)%nat -> nth q l 0 = c)
              (fun k col => write col k c) n 0%nat col)
    as [col' [Hloop [Hlen Hall]]].
  - split; [assumption|]. intros ? ?. lia.
  - intros k l Hk [Hl Hdone]. rewrite write_in by lia.
    eexists. split; [reflexivity|]. rewrite length_update.
    split; [assumption|].
    intros q Hq. destruct (Nat.eq_dec q k) as [->|Hne].
    + now rewrite nth_update_eq by lia.
    + rewrite nth_update_ne by lia. apply Hdone. lia.
  - rewrite Hloop. f_equal.
    apply (nth_ext _ _ 0 0); [now rewrite repeat_length|].
    intros q Hq. rewrite Hall by lia.
    symmetry. apply nth_repeat_lt. lia.
Qed.

(** X15. [setColumn(i, j, c)] makes the column (i, j) constant and leaves
    every other column alone; afterwards [getValZ] at every legal level of
    that column returns [c]. *)
Theorem setColumn_makes_column_constant
        (v : IceModelVec3.t) (i j : Z) (c : Q) :
  grid_ok (IceModelVec3.grid v) ->
  length (IceModelVec3.array v i j) = Mz (IceModelVec3.grid v) ->
  exists v',
    IceModelVec3.setColumn v i j c = Ok v' /\
    IceModelVec3.grid v' = IceModelVec3.grid v /\
    IceModelVec3.array v' i j = repeat c (Mz (IceModelVec3.grid v)) /\
    (forall i' j', (i', j') <> (i, j) ->
                   IceModelVec3.array v' i' j' = IceModelVec3.array v i' j') /\
    forall z, legal_level (IceModelVec3.grid v) z ->
              exists r, IceModelVec3.getValZ v' i j z = Ok r /\ r == c.
Proof.
  intros Hgrid Hcol. unfold IceModelVec3.setColumn.
  rewrite (fill_column_ok c _ _ Hcol). cbn [bind].
  eexists. split; [reflexivity|].
  cbn [IceModelVec3.grid IceModelVec3.array].
  split; [reflexivity|]. split; [apply set_column_of_same|].
  split; [intros i' j' Hne; now apply set_column_of_other|].
  intros z [Hlo Hhi].
  set (v' := {| IceModelVec3.grid := IceModelVec3.grid v;
                IceModelVec3.array :=
                  IceModelVec3.set_column_of (IceModelVec3.array v) i j
                    (repeat c (Mz (IceModelVec3.grid v)));
                IceModelVec3.localp := IceModelVec3.localp v |}).
  assert (Hcol' : IceModelVec3.array v' i j =
                  repeat c (Mz (IceModelVec3.grid v)))
    by apply set_column_of_same.
  assert (Hlen' : length (IceModelVec3.array v' i j) =
                  Mz (IceModelVec3.grid v'))
    by (rewrite Hcol'; apply repeat_length).
  assert (Hgrid' : grid_ok (IceModelVec3.grid v')) by exact Hgrid.
  pose proof Hgrid as (Hlen & HMz & Hs & Hbase & Htop).
  assert (Hnth : forall k, (k < Mz (IceModelVec3.grid v))%nat ->
                           nth k (IceModelVec3.array v' i j) 0 = c)
    by (intros k Hk; rewrite Hcol'; now apply nth_repeat_lt).
  destruct (Qlt_le_dec z (Lz (IceModelVec3.grid v))) as [Hbelow|Hattop].
  - destruct (Qlt_le_dec 0 z) as [Hpos|Hbase'].
    + destruct (getValZ_interior v' i j Hgrid' Hlen' z Hpos
                  ltac:(cbn [IceModelVec3.grid v']; lra))
        as (m & Hm & _ & _ & Hval).
      cbn [IceModelVec3.grid v'] in Hm.
      eexists. split; [exact Hval|].
      rewrite !Hnth by lia. unfold linear_between. ring.
    + exists c. split; [|reflexivity].
      rewrite <- (Hnth 0%nat ltac:(lia)).
      apply getValZ_bottom; assumption.
  - exists c. split; [|reflexivity].
    rewrite <- (Hnth (Mz (IceModelVec3.grid v) - 1)%nat ltac:(lia)).
    apply (getValZ_top v' i j Hgrid' Hlen' z); [assumption|].
    cbn [IceModelVec3.grid v']. lra.
Qed.

Lemma setColumn_makes_column_constant_witness :
  exists v',
    IceModelVec3.setColumn scenario_field 0 0 7 = Ok v' /\
    IceModelVec3.grid v' = scenario_grid /\
    IceModelVec3.array v' 0%Z 0%Z = repeat 7 4 /\
    (forall i' j', (i', j') <> (0%Z, 0%Z) ->
                   IceModelVec3.array v' i' j' = [100; 200; 300; 400]) /\
    forall z, legal_level scenario_grid z ->
              exists r, IceModelVec3.getValZ v' 0 0 z = Ok r /\ r == 7.
Proof.
  apply (setColumn_makes_column_constant scenario_field 0%Z 0%Z 7).
  - exact scenario_grid_ok.
  - reflexivity.
Defined.

(** X16. [setInternalColumn] followed by [getInternalColumn] is the
    identity on an array of [Mz] values: the column read back is the array
    written, and no other column changes.  An array shorter than [Mz] is
    read past its end. *)
Theorem setInternalColumn_getInternalColumn
        (v : IceModelVec3.t) (i j : Z) (valsIN : list Q) :
  length (IceModelVec3.array v i j) = Mz (IceModelVec3.grid v) ->
  (length valsIN = Mz (IceModelVec3.grid v) ->
   exists v',
     IceModelVec3.setInternalColumn v i j valsIN = Ok v' /\
     IceModelVec3.getInternalColumn v' i j = Ok valsIN /\
     forall i' j', (i', j') <> (i, j) ->
                   IceModelVec3.getInternalColumn v' i' j' =
                     IceModelVec3.getInternalColumn v i' j') /\
  ((length valsIN < Mz (IceModelVec3.grid v))%nat ->
   IceModelVec3.setInternalColumn v i j valsIN = Raise OutOfBounds).
Proof.
  intro Hcol. split.
  - intro Hvals. unfold IceModelVec3.setInternalColumn.
    destruct (copy_levels_ok valsIN (Mz (IceModelVec3.grid v))
                (IceModelVec3.array v i j))
      as (col' & Hloop & Hlen & Hsame); try lia.
    rewrite Hloop. cbn [bind]. eexists. split; [reflexivity|].
    unfold IceModelVec3.getInternalColumn. cbn [IceModelVec3.array].
    split.
    + rewrite set_column_of_same. f_equal.
      apply nth_error_ext. intro k.
      destruct (Nat.lt_ge_cases k (Mz (IceModelVec3.grid v))) as [Hk|Hk].
      * now apply Hsame.
      * rewrite (proj2 (nth_error_None col' k)) by lia.
        symmetry. apply nth_error_None. lia.
    + intros i' j' Hne. now rewrite set_column_of_other.
  - intro Hshort. unfold IceModelVec3.setInternalColumn.
    rewrite (for_loop_raise
               (fun _ col => length col = Mz (IceModelVec3.grid v))
               (fun k col => x <- read valsIN k ;; write col k x)
               OutOfBounds (Mz (IceModelVec3.grid v)) 0%nat
               (IceModelVec3.array v i j) (length valsIN));
      try assumption; try reflexivity; try lia.
    + intros k t Hk Ht.
      rewrite (read_nth valsIN k 0) by lia. cbn [bind].
      rewrite write_in by lia. eexists. split; [reflexivity|].
      now rewrite length_update.
    + intros t Ht. now rewrite read_out by lia.
Qed.

Lemma setInternalColumn_getInternalColumn_witness :
  exists v',
    IceModelVec3.setInternalColumn scenario_field 0 0 [1; 2; 3; 4] = Ok v' /\
    IceModelVec3.getInternalColumn v' 0 0 = Ok [1; 2; 3; 4] /\
    forall i' j', (i', j') <> (0%Z, 0%Z) ->
                  IceModelVec3.getInternalColumn v' i' j' =
                    IceModelVec3.getInternalColumn scenario_field i' j'.
Proof.
  apply (proj1 (setInternalColumn_getInternalColumn
                  scenario_field 0%Z 0%Z [1; 2; 3; 4] eq_refl)).
  reflexivity.
Defined.

(** ** [getValZ] on every legal level, and the star stencil *)

Lemma getValZ_legal (v : IceModelVec3.t) (i j : Z) (z : Q) :
  grid_ok (IceModelVec3.grid v) ->
  length (IceModelVec3.array v i j) = Mz (IceModelVec3.grid v) ->
  legal_level (IceModelVec3.grid v) z ->
  exists r, IceModelVec3.getValZ v i j z = Ok r.
Proof.
  intros Hgrid Hcol [Hlo Hhi].
  pose proof Hgrid as (Hlen & HMz & Hs & Hbase & Htop).
  destruct (Qlt_le_dec z (Lz (IceModelVec3.grid v))) as [Hbelow|Hattop].
  - destruct (Qlt_le_dec 0 z) as [Hpos|Hbase'].
    + destruct (getValZ_interior v i j Hgrid Hcol z Hpos ltac:(lra))
        as (m & _ & _ & _ & Hval).
      eexists. exact Hval.
    + eexists. apply getValZ_bottom; assumption.
  - eexists. apply getValZ_top; try assumption. lra.
Qed.

(** The bracket and the weight [getPlaneStarZ] computes give, on every
    column of the field, the value [getValZ] returns for that column. *)
Lemma star_bracket_matches_getValZ (g : IceGrid) (z : Q) :
  grid_ok g -> legal_level g z ->
  exists kbz incr,
    IceModelVec3.star_bracket g z = Ok (kbz, incr) /\
    forall (v : IceModelVec3.t) (i j : Z),
      IceModelVec3.grid v = g ->
      length (IceModelVec3.array v i j) = Mz g ->
      exists r s,
        IceModelVec3.getValZ v i j z = Ok r /\
        IceModelVec3.star_value g kbz incr (IceModelVec3.array v i j) = Ok s /\
        s == r.
Proof.
  intros Hgrid [Hlo Hhi].
  pose proof Hgrid as (Hlen & HMz & Hs & Hbase & Htop).
  pose proof (strictly_increasing_lt _ Hs 0 (Mz g - 1) ltac:(lia) ltac:(lia))
    as Hspan.
  unfold IceModelVec3.star_bracket.
  case_Qleb (Lz g) z Etop.
  - (* at or above the top *)
    eexists. eexists. split; [reflexivity|].
    intros v i j Hg Hcol.
    unfold IceModelVec3.getValZ, IceModelVec3.star_value. rewrite Hg.
    rewrite isLegalLevel_ok by assumption. cbn [bind].
    rewrite (proj2 (Qleb_true _ _) Etop).
    replace (Mz g - 1 <? Mz g - 1)%nat with false
      by (symmetry; apply Nat.ltb_ge; lia).
    rewrite (read_nth _ (Mz g - 1) 0) by lia.
    eexists. eexists. split; [reflexivity|]. split; reflexivity.
  - case_Qleb z 0 Ebase.
    + (* at or below the base *)
      eexists. eexists. split; [reflexivity|].
      intros v i j Hg Hcol.
      unfold IceModelVec3.getValZ, IceModelVec3.star_value. rewrite Hg.
      rewrite isLegalLevel_ok by assumption. cbn [bind].
      rewrite (proj2 (Qleb_false _ _) Etop).
      rewrite (proj2 (Qleb_true _ _) Ebase).
      replace (0 <? Mz g - 1)%nat with true
        by (symmetry; apply Nat.ltb_lt; lia).
      rewrite (read_nth _ 0 0) by lia. cbn [bind].
      rewrite (read_nth _ (0 + 1) 0) by lia. cbn [bind].
      eexists. eexists. split; [reflexivity|]. split; [reflexivity|]. ring.
    + (* between two stored levels *)
      destruct (bracket_scan_spec (zlevels g) z (Mz g) 0 (Mz g - 1))
        as (m & Hscan & Hr & _ & _); try lia; try lra.
      rewrite Hscan. cbn [bind].
      rewrite (read_nth (zlevels g) m 0) by lia. cbn [bind].
      rewrite (read_nth (zlevels g) (m + 1) 0) by lia. cbn [bind].
      eexists. eexists. split; [reflexivity|].
      intros v i j Hg Hcol.
      unfold IceModelVec3.getValZ, IceModelVec3.star_value. rewrite Hg.
      rewrite isLegalLevel_ok by assumption. cbn [bind].
      rewrite (proj2 (Qleb_false _ _) Etop).
      rewrite (proj2 (Qleb_false _ _) Ebase).
      rewrite Hscan. cbn [bind].
      rewrite (read_nth (zlevels g) m 0) by lia. cbn [bind].
      rewrite (read_nth (zlevels g) (m + 1) 0) by lia. cbn [bind].
      replace (m <? Mz g - 1)%nat with true
        by (symmetry; apply Nat.ltb_lt; lia).
      rewrite (read_nth _ m 0) by lia. cbn [bind].
      rewrite (read_nth _ (m + 1) 0) by lia. cbn [bind].
      eexists. eexists. split; [reflexivity|]. split; reflexivity.
Qed.

(** X17. [getPlaneStarZ] is [getValZ] on the five columns of the star: on
    a local (ghosted) field, for a legal level [z] and with the five columns
    allocated, it succeeds and each of its five values equals what [getValZ]
    returns at [z] for that column.  On a global field it raises the PETSc
    error 1, and for an illegal level it raises the error of the legality
    check, whatever the field holds. *)
Theorem getPlaneStarZ_agrees_with_getValZ
        (v : IceModelVec3.t) (i j : Z) (z : Q) :
  grid_ok (IceModelVec3.grid v) ->
  (legal_level (IceModelVec3.grid v) z ->
   IceModelVec3.localp v = true ->
   (forall i' j',
       (Z.abs (i' - i) + Z.abs (j' - j) <= 1)%Z ->
       length (IceModelVec3.array v i' j') = Mz (IceModelVec3.grid v)) ->
   exists star,
     IceModelVec3.getPlaneStarZ v i j z = Ok star /\
     (exists r, IceModelVec3.getValZ v i j z = Ok r /\
                IceModelVec3.ij star == r) /\
     (exists r, IceModelVec3.getValZ v (i + 1) j z = Ok r /\
                IceModelVec3.ip1 star == r) /\
     (exists r, IceModelVec3.getValZ v (i - 1) j z = Ok r /\
                IceModelVec3.im1 star == r) /\
     (exists r, IceModelVec3.getValZ v i (j + 1) z = Ok r /\
                IceModelVec3.jp1 star == r) /\
     (exists r, IceModelVec3.getValZ v i (j - 1) z = Ok r /\
                IceModelVec3.jm1 star == r)) /\
  (legal_level (IceModelVec3.grid v) z ->
   IceModelVec3.localp v = false ->
   IceModelVec3.getPlaneStarZ v i j z = Raise (PetscError 1)) /\
  (z < - (1 # 1000000) \/ Lz (IceModelVec3.grid v) + (1 # 1000000) < z ->
   exists code, IceModelVec3.getPlaneStarZ v i j z = Raise (PetscError code)).
Proof.
  intro Hgrid. split; [|split].
  - intros Hlegal Hlocal Hcols.
    destruct (star_bracket_matches_getValZ _ z Hgrid Hlegal)
      as (kbz & incr & Hbr & Hmatch).
    unfold IceModelVec3.getPlaneStarZ. cbv zeta.
    destruct Hlegal as [Hlo Hhi].
    rewrite isLegalLevel_ok by assumption. cbn [bind].
    rewrite Hlocal. cbn [bind]. rewrite Hbr. cbn [bind].
    destruct (Hmatch v i j eq_refl (Hcols i j ltac:(lia)))
      as (r0 & s0 & Hr0 & Hs0 & E0).
    destruct (Hmatch v (i + 1)%Z j eq_refl (Hcols (i + 1)%Z j ltac:(lia)))
      as (r1 & s1 & Hr1 & Hs1 & E1).
    destruct (Hmatch v (i - 1)%Z j eq_refl (Hcols (i - 1)%Z j ltac:(lia)))
      as (r2 & s2 & Hr2 & Hs2 & E2).
    destruct (Hmatch v i (j + 1)%Z eq_refl (Hcols i (j + 1)%Z ltac:(lia)))
      as (r3 & s3 & Hr3 & Hs3 & E3).
    destruct (Hmatch v i (j - 1)%Z eq_refl (Hcols i (j - 1)%Z ltac:(lia)))
      as (r4 & s4 & Hr4 & Hs4 & E4).
    rewrite Hs0, Hs1, Hs2, Hs3, Hs4. cbn [bind].
    eexists. split; [reflexivity|].
    cbn [IceModelVec3.ij IceModelVec3.ip1 IceModelVec3.im1 IceModelVec3.jp1
         IceModelVec3.jm1].
    repeat split; eauto.
  - intros [Hlo Hhi] Hglobal.
    unfold IceModelVec3.getPlaneStarZ. cbv zeta.
    rewrite isLegalLevel_ok by assumption. cbn [bind].
    rewrite Hglobal. reflexivity.
  - intro Hillegal.
    unfold IceModelVec3.getPlaneStarZ. cbv zeta.
    destruct (isLegalLevel_error _ z Hillegal) as [code ->].
    cbn [bind]. eauto.
Qed.

Lemma getPlaneStarZ_agrees_with_getValZ_witness :
  IceModelVec3.getPlaneStarZ scenario_field 0 0 25 = Raise (PetscError 1).
Proof.
  apply (proj1 (proj2 (getPlaneStarZ_agrees_with_getValZ
                         scenario_field 0%Z 0%Z 25 scenario_grid_ok))).
  - split; vm_compute; discriminate.
  - reflexivity.
Defined.

(** ** Horizontal slices and surface values *)

Lemma set_cell_same (a : Z -> Z -> Q) (i j : Z) (x : Q) :
  IceModelVec3.set_cell a i j x i j = x.
Proof.
  unfold IceModelVec3.set_cell. now rewrite !Z.eqb_refl.
Qed.

Lemma set_cell_other (a : Z -> Z -> Q) (i j i' j' : Z) (x : Q) :
  (i', j') <> (i, j) -> IceModelVec3.set_cell a i j x i' j' = a i' j'.
Proof.
  intro H. unfold IceModelVec3.set_cell.
  destruct (i' =? i)%Z eqn:Ei; [|reflexivity].
  destruct (j' =? j)%Z eqn:Ej; [|reflexivity].
  apply Z.eqb_eq in Ei, Ej. congruence.
Qed.

(** The double loop over the owned cells of a 2-D array stores in every
    owned cell what the body computes for it and touches no other cell. *)
Lemma for_owned_cells_ok (g : IceGrid) (body : Z -> Z -> outcome Q)
      (P : Z -> Z -> Q -> Prop) (a : Z -> Z -> Q) :
  (forall i j, owned g i j -> exists x, body i j = Ok x /\ P i j x) ->
  exists a', IceModelVec3.for_owned_cells g body a = Ok a' /\
             (forall i j, owned g i j -> P i j (a' i j)) /\
             (forall i j, ~ owned g i j -> a' i j = a i j).
Proof.
  intro Hbody. unfold IceModelVec3.for_owned_cells.
  set (Inv := fun (di dj : nat) (b : Z -> Z -> Q) =>
                forall i j, (passed g di dj i j -> P i j (b i j)) /\
                            (~ passed g di dj i j -> b i j = a i j)).
  destruct (for_loop_inv (fun di b => Inv di 0%nat b)
              (fun di a =>
                 let i := (xs g + Z.of_nat di)%Z in
                 for_loop (fun dj a =>
                             let j := (ys g + Z.of_nat dj)%Z in
                             x <- body i j ;;
                             Ok (IceModelVec3.set_cell a i j x))
                          0 (ym g) a)
              (xm g) 0%nat a) as [a' [Hloop Hinv]].
  - intros i j. split; [|reflexivity].
    intros [[Hi Hj] Hp]. lia.
  - intros di b Hdi Hb. cbv zeta.
    destruct (for_loop_inv (fun dj c => Inv di dj c)
                (fun dj a =>
                   let j := (ys g + Z.of_nat dj)%Z in
                   x <- body (xs g + Z.of_nat di)%Z j ;;
                   Ok (IceModelVec3.set_cell a (xs g + Z.of_nat di)%Z j x))
                (ym g) 0%nat b Hb) as [c [Hrow Hc]].
    + intros dj c Hdj Hc. cbv zeta.
      set (i := (xs g + Z.of_nat di)%Z). set (j := (ys g + Z.of_nat dj)%Z).
      assert (Hown : owned g i j) by (unfold owned; subst i j; lia).
      assert (Hnot : ~ passed g di dj i j)
        by (intros [_ Hp]; subst i j; lia).
      destruct (Hbody i j Hown) as [x [Hx HP]].
      rewrite Hx. cbn [bind].
      eexists. split; [reflexivity|].
      intros i' j'. split.
      * intros [Hown' Hp].
        assert (Hcase : (i', j') = (i, j) \/ passed g di dj i' j').
        { destruct (Z.eq_dec i' i) as [Hi|Hi].
          - destruct (Z.eq_dec j' j) as [Hj|Hj].
            + left. congruence.
            + right. split; [assumption|]. subst i j. lia.
          - right. split; [assumption|]. subst i j. lia. }
        destruct Hcase as [Heq|Hpassed].
        -- injection Heq as -> ->. now rewrite set_cell_same.
        -- rewrite set_cell_other.
           ++ apply (Hc i' j'). assumption.
           ++ intro Heq. injection Heq as -> ->. apply Hnot. assumption.
      * intros Hnp.
        rewrite set_cell_other.
        -- apply (Hc i' j'). intros [Hown' Hp]. apply Hnp.
           split; [assumption|]. lia.
        -- intro Heq. injection Heq as -> ->. apply Hnp.
           split; [assumption|]. subst i j. lia.
    + exists c. split; [exact Hrow|].
      intros i j. destruct (Hc i j) as [Hin Hout]. split.
      * intros [Hown Hp]. apply Hin. split; [assumption|].
        destruct Hown as [Hi Hj]. lia.
      * intros Hnp. apply Hout. intros [Hown Hp]. apply Hnp.
        split; [assumption|]. destruct Hown as [Hi Hj]. lia.
  - exists a'. split; [exact Hloop|]. split.
    + intros i j Hown. apply (Hinv i j). split; [assumption|].
      destruct Hown as [Hi Hj]. lia.
    + intros i j Hnot. apply (Hinv i j). intros [Hown _]. contradiction.
Qed.

(** X18. [getSurfaceValues] evaluates the field at the ice surface: when
    the thickness [H[i][j]] of every owned cell is a legal level, the call
    succeeds, every owned cell of the result holds [getValZ(i, j, H[i][j])],
    and no cell outside the owned range is written. *)
Theorem getSurfaceValues_owned_cells
        (v : IceModelVec3.t) (surf_val H : Z -> Z -> Q) :
  grid_ok (IceModelVec3.grid v) ->
  (forall i j, owned (IceModelVec3.grid v) i j ->
               length (IceModelVec3.array v i j) = Mz (IceModelVec3.grid v) /\
               legal_level (IceModelVec3.grid v) (H i j)) ->
  exists surf',
    IceModelVec3.getSurfaceValues v surf_val H = Ok surf' /\
    (forall i j, owned (IceModelVec3.grid v) i j ->
                 IceModelVec3.getValZ v i j (H i j) = Ok (surf' i j)) /\
    (forall i j, ~ owned (IceModelVec3.grid v) i j ->
                 surf' i j = surf_val i j).
Proof.
  intros Hgrid Hcells. unfold IceModelVec3.getSurfaceValues.
  apply (for_owned_cells_ok (IceModelVec3.grid v)
           (fun i j => IceModelVec3.getValZ v i j (H i j))
           (fun i j x => IceModelVec3.getValZ v i j (H i j) = Ok x)).
  intros i j Hown. destruct (Hcells i j Hown) as [Hcol Hlegal].
  destruct (getValZ_legal v i j (H i j) Hgrid Hcol Hlegal) as [r Hr].
  exists r. split; assumption.
Qed.

Lemma getSurfaceValues_owned_cells_witness :
  exists surf',
    IceModelVec3.getSurfaceValues scenario_field (fun _ _ => 0)
                                  (fun _ _ => 25) = Ok surf' /\
    (forall i j, owned scenario_grid i j ->
                 IceModelVec3.getValZ scenario_field i j 25 =
                   Ok (surf' i j)) /\
    (forall i j, ~ owned scenario_grid i j -> surf' i j = 0).
Proof.
  apply (getSurfaceValues_owned_cells scenario_field (fun _ _ => 0)
                                      (fun _ _ => 25) scenario_grid_ok).
  intros i j _. split; [reflexivity|]. split; vm_compute; discriminate.
Defined.

(** X19. [getHorSlice] evaluates the field at one level: for a legal level
    [z] the call succeeds, every owned cell of the slice holds
    [getValZ(i, j, z)], and no cell outside the owned range is written. *)
Theorem getHorSlice_owned_cells
        (v : IceModelVec3.t) (slice_val : Z -> Z -> Q) (z : Q) :
  grid_ok (IceModelVec3.grid v) ->
  legal_level (IceModelVec3.grid v) z ->
  (forall i j, owned (IceModelVec3.grid v) i j ->
               length (IceModelVec3.array v i j) = Mz (IceModelVec3.grid v)) ->
  exists slice',
    IceModelVec3.getHorSlice v slice_val z = Ok slice' /\
    (forall i j, owned (IceModelVec3.grid v) i j ->
                 IceModelVec3.getValZ v i j z = Ok (slice' i j)) /\
    (forall i j, ~ owned (IceModelVec3.grid v) i j ->
                 slice' i j = slice_val i j).
Proof.
  intros Hgrid Hlegal Hcells. unfold IceModelVec3.getHorSlice.
  apply (for_owned_cells_ok (IceModelVec3.grid v)
           (fun i j => IceModelVec3.getValZ v i j z)
           (fun i j x => IceModelVec3.getValZ v i j z = Ok x)).
  intros i j Hown.
  destruct (getValZ_legal v i j z Hgrid (Hcells i j Hown) Hlegal) as [r Hr].
  exists r. split; assumption.
Qed.

Lemma getHorSlice_owned_cells_witness :
  exists slice',
    IceModelVec3.getHorSlice scenario_field (fun _ _ => 0) 25 = Ok slice' /\
    (forall i j, owned scenario_grid i j ->
                 IceModelVec3.getValZ scenario_field i j 25 =
                   Ok (slice' i j)) /\
    (forall i j, ~ owned scenario_grid i j -> slice' i j = 0).
Proof.
  apply (getHorSlice_owned_cells scenario_field (fun _ _ => 0) 25
                                 scenario_grid_ok).
  - split; vm_compute; discriminate.
  - intros i j _. reflexivity.
Defined.

(** ** Loops that cannot finish *)

(** A loop whose iterations either go on or raise [f], and whose last
    iteration raises [f] whatever the state, raises [f]. *)
Lemma for_loop_must_raise {S : Type} (body : nat -> S -> outcome S)
      (f : fault) :
  forall count lo s,
    (0 < count)%nat ->
    (forall k t, (lo <= k < lo + count)%nat ->
                 (exists t', body k t = Ok t') \/ body k t = Raise f) ->
    (forall t, body (lo + count - 1)%nat t = Raise f) ->
    for_loop body lo count s = Raise f.
Proof.
  induction count as [|c IH]; intros lo s Hc Hstep Hlast; [lia|].
  cbn [for_loop].
  destruct c as [|c'].
  - replace (lo + 1 - 1)%nat with lo in Hlast by lia.
    now rewrite Hlast.
  - destruct (Hstep lo s) as [[t' E]|E]; [lia | |]; rewrite E; cbn [bind];
      [|reflexivity].
    apply IH; [lia | |].
    + intros k u Hk. apply Hstep. lia.
    + intro u.
      replace (Datatypes.S lo + Datatypes.S c' - 1)%nat
        with (lo + Datatypes.S (Datatypes.S c') - 1)%nat by lia.
      apply Hlast.
Qed.

Lemma for_loop_st_must_raise {S : Type} (body : nat -> S -> outcome S)
      (f : fault) :
  forall count lo s,
    (0 < count)%nat ->
    (forall k t, (lo <= k < lo + count)%nat ->
                 (exists t', body k t = Ok t') \/ body k t = Raise f) ->
    (forall t, body (lo + count - 1)%nat t = Raise f) ->
    fst (for_loop_st body lo count s) = Raise f.
Proof.
  induction count as [|c IH]; intros lo s Hc Hstep Hlast; [lia|].
  cbn [for_loop_st].
  destruct c as [|c'].
  - replace (lo + 1 - 1)%nat with lo in Hlast by lia.
    now rewrite Hlast.
  - destruct (Hstep lo s) as [[t' E]|E]; [lia | |]; rewrite E;
      [|reflexivity].
    apply IH; [lia | |].
    + intros k u Hk. apply Hstep. lia.
    + intro u.
      replace (Datatypes.S lo + Datatypes.S c' - 1)%nat
        with (lo + Datatypes.S (Datatypes.S c') - 1)%nat by lia.
      apply Hlast.
Qed.

Lemma for_loop_ext {S : Type} (body1 body2 : nat -> S -> outcome S) :
  forall count lo s,
    (forall k t, (lo <= k < lo + count)%nat -> body1 k t = body2 k t) ->
    for_loop body1 lo count s = for_loop body2 lo count s.
Proof.
  induction count as [|c IH]; intros lo s Heq; cbn [for_loop]; [reflexivity|].
  rewrite (Heq lo s) by lia.
  destruct (body2 lo s) as [t|f]; cbn [bind]; [|reflexivity].
  apply IH. intros k u Hk. apply Heq. lia.
Qed.

(** The only fault of an array access and of the bracket scan is the access
    outside the array. *)
Lemma read_cases {A : Type} (a : list A) (i : nat) :
  (exists x, read a i = Ok x) \/ read a i = Raise OutOfBounds.
Proof.
  unfold read. destruct (nth_error a i) as [x|]; [left; eauto | now right].
Qed.

Lemma write_cases {A : Type} (a : list A) (i : nat) (x : A) :
  (exists a', write a i x = Ok a') \/ write a i x = Raise OutOfBounds.
Proof.
  unfold write. destruct (i <? length a)%nat; [left; eauto | now right].
Qed.

Lemma bracket_scan_cases (a : list Q) (z : Q) (mcurr : nat) :
  (exists m, bracket_scan a z mcurr = Ok m) \/
  bracket_scan a z mcurr = Raise OutOfBounds.
Proof.
  unfold bracket_scan. generalize (skipn (Datatypes.S mcurr) a) as rest.
  intro rest. revert mcurr.
  induction rest as [|y rest IH]; intro mcurr; cbn [scan_up].
  - now right.
  - destruct (Qltb y z); [apply IH | left; eauto].
Qed.

Ltac step_or_overrun H x :=
  let E := fresh "E" in
  destruct H as [[x E]|E]; rewrite E; cbn [bind]; [|now right].

(** ** [setValColumnPL] on a column that ends below the top level *)

Lemma setValColumnPL_body_cases (g : IceGrid) (levelsIN valsIN : list Q)
      (k : nat) (s : nat * list Q) :
  (exists s', IceModelVec3.setValColumnPL_body g levelsIN valsIN k s = Ok s')
  \/ IceModelVec3.setValColumnPL_body g levelsIN valsIN k s =
       Raise OutOfBounds.
Proof.
  destruct s as [mcurr col]. unfold IceModelVec3.setValColumnPL_body.
  step_or_overrun (read_cases (zlevels g) k) lk.
  step_or_overrun (bracket_scan_cases levelsIN lk mcurr) m.
  step_or_overrun (read_cases levelsIN m) zm.
  step_or_overrun (read_cases levelsIN (m + 1)) zm1.
  step_or_overrun (read_cases valsIN m) vm.
  step_or_overrun (read_cases valsIN (m + 1)) vm1.
  step_or_overrun
    (write_cases col k (vm + (lk - zm) / (zm1 - zm) * (vm1 - vm))) col'.
  left. eauto.
Qed.

(** At a stored level above every input level the scan leaves [levelsIN]. *)
Lemma setValColumnPL_body_overrun (g : IceGrid) (levelsIN valsIN : list Q)
      (k : nat) (s : nat * list Q) :
  (k < length (zlevels g))%nat ->
  strictly_increasing levelsIN ->
  nth (length levelsIN - 1) levelsIN 0 < nth k (zlevels g) 0 ->
  IceModelVec3.setValColumnPL_body g levelsIN valsIN k s = Raise OutOfBounds.
Proof.
  destruct s as [mcurr col]. intros Hk Hs Hlast.
  unfold IceModelVec3.setValColumnPL_body.
  rewrite (read_nth (zlevels g) k 0) by assumption. cbn [bind].
  rewrite (bracket_scan_overrun levelsIN (nth k (zlevels g) 0)
             (length levelsIN) mcurr); [reflexivity | lia |].
  intros q Hq.
  apply Qle_lt_trans with (nth (length levelsIN - 1) levelsIN 0);
    [|assumption].
  apply strictly_increasing_le; [assumption | lia | lia].
Qed.

Lemma setValColumnPL_loop_overrun (g : IceGrid) (levelsIN valsIN : list Q)
      (s : nat * list Q) :
  length (zlevels g) = Mz g -> (0 < Mz g)%nat ->
  strictly_increasing levelsIN ->
  nth (length levelsIN - 1) levelsIN 0 < nth (Mz g - 1) (zlevels g) 0 ->
  fst (for_loop_st (IceModelVec3.setValColumnPL_body g levelsIN valsIN)
                   0 (Mz g) s) = Raise OutOfBounds.
Proof.
  intros Hlen HMz Hs Hlast.
  apply for_loop_st_must_raise; [assumption | |].
  - intros k t _. apply setValColumnPL_body_cases.
  - intro t. cbn [Nat.add].
    apply setValColumnPL_body_overrun; [lia | assumption | assumption].
Qed.

(** X20. The tolerance of the upper check of [setValColumnPL]: an input
    column that passes the three checks but ends below [Lz] (by at most
    [1e-3]) makes the scan for the top stored level run past the end of
    [levelsIN], whatever the values and the column. *)
Theorem setValColumnPL_column_below_top_overruns
        (v : IceModelVec3.t) (i j : Z) (levelsIN valsIN : list Q) :
  grid_ok (IceModelVec3.grid v) ->
  strictly_increasing levelsIN -> (0 < length levelsIN)%nat ->
  nth 0 levelsIN 0 <= 1 # 1000 ->
  Lz (IceModelVec3.grid v) - (1 # 1000) <=
    nth (length levelsIN - 1) levelsIN 0 ->
  nth (length levelsIN - 1) levelsIN 0 < Lz (IceModelVec3.grid v) ->
  IceModelVec3.setValColumnPL_checks (IceModelVec3.grid v) levelsIN = Ok tt /\
  fst (IceModelVec3.setValColumnPL v i j levelsIN valsIN) =
    Raise OutOfBounds.
Proof.
  intros (Hlen & HMz & Hsl & Hbase & Htop) Hs Hn Hfirst Hlast Hgap.
  assert (Hchecks : IceModelVec3.setValColumnPL_checks
                      (IceModelVec3.grid v) levelsIN = Ok tt).
  { unfold IceModelVec3.setValColumnPL_checks.
    rewrite (read_nth levelsIN 0 0) by lia. cbn [bind].
    case_Qltb (0 + (1 # 1000)) (nth 0 levelsIN 0) E1; [lra|]. cbn [bind].
    rewrite (read_nth levelsIN (length levelsIN - 1) 0) by lia. cbn [bind].
    case_Qltb (nth (length levelsIN - 1) levelsIN 0)
              (Lz (IceModelVec3.grid v) - (1 # 1000)) E2; [lra|].
    cbn [bind]. now apply check_levelsIN_ok. }
  split; [assumption|].
  unfold IceModelVec3.setValColumnPL. rewrite Hchecks.
  pose proof (setValColumnPL_loop_overrun (IceModelVec3.grid v) levelsIN
                valsIN (0%nat, IceModelVec3.array v i j) Hlen
                ltac:(lia) Hs ltac:(lra)) as Hloop.
  destruct (for_loop_st _ _ _ _) as [r [m col]]. exact Hloop.
Qed.

Lemma setValColumnPL_column_below_top_overruns_witness :
  IceModelVec3.setValColumnPL_checks scenario_grid [0; 15; (59999 # 2000)] =
    Ok tt /\
  fst (IceModelVec3.setValColumnPL scenario_field 0 0
         [0; 15; (59999 # 2000)] [1; 2; 3]) = Raise OutOfBounds.
Proof.
  apply (setValColumnPL_column_below_top_overruns
           scenario_field 0%Z 0%Z [0; 15; (59999 # 2000)] [1; 2; 3]).
  - exact scenario_grid_ok.
  - intros k Hk. simpl in Hk.
    destruct k as [|[|k]]; try lia; reflexivity.
  - simpl. lia.
  - vm_compute. discriminate.
  - vm_compute. discriminate.
  - vm_compute. reflexivity.
Defined.

(** ** The bedrock store *)

Lemma bedrock_levels_ok (g : BedrockGrid) :
  bedrock_grid_ok g -> levels_ok (as_ice g).
Proof.
  intros (Hlen & HMz & Hsl & _).
  unfold levels_ok, as_ice. cbn [zlevels Mz].
  split; [assumption|]. split; assumption.
Qed.

Lemma bedrock_isLegalLevel_ok (g : BedrockGrid) (z : Q) :
  - Lbz g - (1 # 1000000) <= z -> z <= 1 # 1000000 ->
  IceModelVec3Bedrock.isLegalLevel g z = Ok tt.
Proof.
  intros H0 H1. unfold IceModelVec3Bedrock.isLegalLevel.
  case_Qltb z (- Lbz g - (1 # 1000000)) Ha; [lra|].
  case_Qltb (0 + (1 # 1000000)) z Hb; [lra|]. reflexivity.
Qed.

Lemma bedrock_isLegalLevel_error (g : BedrockGrid) (z : Q) :
  z < - Lbz g - (1 # 1000000) \/ 1 # 1000000 < z ->
  exists code,
    IceModelVec3Bedrock.isLegalLevel g z = Raise (PetscError code).
Proof.
  intros H. unfold IceModelVec3Bedrock.isLegalLevel.
  case_Qltb z (- Lbz g - (1 # 1000000)) Ha; [eauto|].
  case_Qltb (0 + (1 # 1000000)) z Hb; [eauto|].
  exfalso. destruct H; lra.
Qed.

Lemma bedrock_getValColumn_checks_ok (g : BedrockGrid) (levelsIN : list Q) :
  strictly_increasing levelsIN -> (0 < length levelsIN)%nat ->
  - Lbz g - (1 # 1000000) <= nth 0 levelsIN 0 ->
  nth (length levelsIN - 1) levelsIN 0 <= 1 # 1000000 ->
  IceModelVec3Bedrock.getValColumn_checks g levelsIN = Ok tt.
Proof.
  intros Hs Hn Hfirst Hlast.
  pose proof (strictly_increasing_le levelsIN Hs 0 (length levelsIN - 1)
                ltac:(lia) ltac:(lia)) as Hle.
  unfold IceModelVec3Bedrock.getValColumn_checks.
  rewrite (read_nth levelsIN 0 0) by lia. cbn [bind].
  rewrite bedrock_isLegalLevel_ok by lra. cbn [bind].
  rewrite (read_nth levelsIN (length levelsIN - 1) 0) by lia. cbn [bind].
  rewrite bedrock_isLegalLevel_ok by lra. cbn [bind].
  now apply check_levelsIN_ok.
Qed.

Lemma bedrock_getValColumn_checks_error (g : BedrockGrid)
      (levelsIN : list Q) :
  (0 < length levelsIN)%nat ->
  nth 0 levelsIN 0 < - Lbz g - (1 # 1000000) \/
  1 # 1000000 < nth (length levelsIN - 1) levelsIN 0 ->
  exists code,
    IceModelVec3Bedrock.getValColumn_checks g levelsIN =
      Raise (PetscError code).
Proof.
  intros Hn H.
  unfold IceModelVec3Bedrock.getValColumn_checks.
  rewrite (read_nth levelsIN 0 0) by lia. cbn [bind].
  destruct (IceModelVec3Bedrock.isLegalLevel g (nth 0 levelsIN 0))
    as [[]|f] eqn:E0; cbn [bind].
  - rewrite (read_nth levelsIN (length levelsIN - 1) 0) by lia. cbn [bind].
    destruct H as [H|H].
    + destruct (bedrock_isLegalLevel_error g _ (or_introl H)) as [c Hc].
      congruence.
    + destruct (bedrock_isLegalLevel_error g _ (or_intror H)) as [c Hc].
      rewrite Hc. cbn [bind]. eauto.
  - unfold IceModelVec3Bedrock.isLegalLevel in E0.
    destruct (Qltb _ _); [inversion E0; eauto|].
    destruct (Qltb _ _); [inversion E0; eauto | discriminate].
Qed.

(** Up to the top level the iteration of the bedrock [getValColumnPL] is
    the iteration of the ice routine over the bedrock levels. *)
Lemma bedrock_getValColumnPL_body_below_top (g : BedrockGrid)
      (col levelsIN : list Q) (k : nat) (s : nat * list Q) :
  length (zblevels g) = Mbz g -> (0 < Mbz g)%nat ->
  (k < length levelsIN)%nat ->
  nth k levelsIN 0 <= nth (Mbz g - 1) (zblevels g) 0 ->
  IceModelVec3Bedrock.getValColumnPL_body g col levelsIN k s =
  IceModelVec3.getValColumnPL_body (as_ice g) col levelsIN k s.
Proof.
  destruct s as [mcurr out]. intros Hlen HM Hk Hz.
  unfold IceModelVec3Bedrock.getValColumnPL_body,
    IceModelVec3.getValColumnPL_body, as_ice.
  cbn [zlevels Mz].
  rewrite (read_nth levelsIN k 0) by assumption. cbn [bind].
  rewrite (read_nth (zblevels g) (Mbz g - 1) 0) by lia. cbn [bind].
  case_Qltb (nth (Mbz g - 1) (zblevels g) 0) (nth k levelsIN 0) Htop;
    [lra | reflexivity].
Qed.

Lemma bedrock_getValColumnPL_body_cases (g : BedrockGrid)
      (col levelsIN : list Q) (k : nat) (s : nat * list Q) :
  (exists s',
      IceModelVec3Bedrock.getValColumnPL_body g col levelsIN k s = Ok s')
  \/ IceModelVec3Bedrock.getValColumnPL_body g col levelsIN k s =
       Raise OutOfBounds.
Proof.
  destruct s as [mcurr out].
  unfold IceModelVec3Bedrock.getValColumnPL_body. cbv zeta.
  step_or_overrun (read_cases levelsIN k) zk.
  step_or_overrun (bracket_scan_cases (zblevels g) zk mcurr) m.
  step_or_overrun (read_cases (zblevels g) m) zm.
  step_or_overrun (read_cases (zblevels g) (m + 1)) zm1.
  step_or_overrun (read_cases col m) vm.
  step_or_overrun (read_cases col (m + 1)) vm1.
  step_or_overrun
    (write_cases out k (vm + (zk - zm) / (zm1 - zm) * (vm1 - vm))) out'.
  left. eauto.
Qed.

(** A query level above the top bedrock level sends the scan past the end
    of the level array. *)
Lemma bedrock_getValColumnPL_body_overrun (g : BedrockGrid)
      (col levelsIN : list Q) (k : nat) (s : nat * list Q) :
  length (zblevels g) = Mbz g -> (0 < Mbz g)%nat ->
  strictly_increasing (zblevels g) ->
  (k < length levelsIN)%nat ->
  nth (Mbz g - 1) (zblevels g) 0 < nth k levelsIN 0 ->
  IceModelVec3Bedrock.getValColumnPL_body g col levelsIN k s =
    Raise OutOfBounds.
Proof.
  destruct s as [mcurr out]. intros Hlen HM Hsl Hk Hz.
  unfold IceModelVec3Bedrock.getValColumnPL_body. cbv zeta.
  rewrite (read_nth levelsIN k 0) by assumption. cbn [bind].
  rewrite (bracket_scan_overrun (zblevels g) (nth k levelsIN 0)
             (length (zblevels g)) mcurr); [reflexivity | lia |].
  intros q Hq.
  apply Qle_lt_trans with (nth (Mbz g - 1) (zblevels g) 0); [|assumption].
  apply strictly_increasing_le; [assumption | lia | lia].
Qed.

(** X21. The bedrock [getValColumnPL]: both the first and the last query
    level must be legal ([-Lbz - 1e-6 <= z <= 1e-6]); query levels up to the
    top level [0] get the linear interpolant of their bracket (the lowest
    bracket below [-Lbz]); and, the routine having no branch for a level
    above the top, a last level in [(0, 1e-6]] passes the check and sends
    the scan past the end of the level array. *)
Theorem bedrock_getValColumnPL_values
        (v : IceModelVec3Bedrock.t) (i j : Z) (levelsIN : list Q) :
  let g := IceModelVec3Bedrock.grid v in
  let levels := zblevels g in
  let col := IceModelVec3Bedrock.array v i j in
  let n := length levelsIN in
  bedrock_grid_ok g -> length col = Mbz g ->
  strictly_increasing levelsIN -> (0 < n)%nat ->
  (nth 0 levelsIN 0 < - Lbz g - (1 # 1000000) \/
   1 # 1000000 < nth (n - 1) levelsIN 0 ->
   exists code,
     IceModelVec3Bedrock.getValColumnPL v i j levelsIN =
       Raise (PetscError code)) /\
  (- Lbz g - (1 # 1000000) <= nth 0 levelsIN 0 ->
   nth (n - 1) levelsIN 0 <= 0 ->
   exists valsOUT,
     IceModelVec3Bedrock.getValColumnPL v i j levelsIN = Ok valsOUT /\
     length valsOUT = n /\
     forall k, (k < n)%nat ->
       exists m,
         lower_bracket levels (nth k levelsIN 0) m /\
         nth k valsOUT 0 =
           linear_between (nth m levels 0) (nth (m + 1) levels 0)
                          (nth m col 0) (nth (m + 1) col 0)
                          (nth k levelsIN 0)) /\
  (- Lbz g - (1 # 1000000) <= nth 0 levelsIN 0 ->
   0 < nth (n - 1) levelsIN 0 -> nth (n - 1) levelsIN 0 <= 1 # 1000000 ->
   IceModelVec3Bedrock.getValColumnPL v i j levelsIN = Raise OutOfBounds).
Proof.
  intros g levels col n Hgrid Hcol Hs Hn.
  pose proof (bedrock_levels_ok g Hgrid) as Hlev.
  destruct Hgrid as (Hlen & HMz & Hsl & Hbase & Htop).
  fold levels in Hlen, Hsl, Hbase, Htop.
  unfold IceModelVec3Bedrock.getValColumnPL. fold g. fold col.
  split; [|split].
  - intro Hbad.
    destruct (bedrock_getValColumn_checks_error g levelsIN Hn Hbad)
      as [code Hcode].
    exists code. now rewrite Hcode.
  - intros Hfirst Hlast.
    rewrite bedrock_getValColumn_checks_ok by (try assumption; fold n; lra).
    cbn [bind].
    assert (Hbelow : forall k, (k < n)%nat ->
                               nth k levelsIN 0 <= nth (Mbz g - 1) levels 0).
    { intros k Hk.
      pose proof (strictly_increasing_le levelsIN Hs k (n - 1) ltac:(lia)
                    ltac:(fold n; lia)).
      lra. }
    rewrite (for_loop_ext _
               (IceModelVec3.getValColumnPL_body (as_ice g) col levelsIN)).
    2:{ intros k t Hk.
        apply bedrock_getValColumnPL_body_below_top;
          [assumption | lia | lia | apply Hbelow; lia]. }
    destruct (getValColumnPL_loop_ok (as_ice g) col levelsIN Hlev Hcol Hs)
      as ([mcurr out] & Hloop & Hout & _ & _ & Hdone).
    rewrite Hloop. cbn [bind snd].
    exists out. split; [reflexivity|]. split; [exact Hout|].
    intros k Hk. destruct (Hdone k Hk) as [_ Hval].
    change (zlevels (as_ice g)) with levels in Hval.
    apply Hval. rewrite Hlen. apply Hbelow. assumption.
  - intros Hfirst Hpos Hlast.
    rewrite bedrock_getValColumn_checks_ok by (try assumption; fold n; lra).
    cbn [bind].
    rewrite (for_loop_must_raise _ OutOfBounds); [reflexivity | exact Hn | |].
    + intros k t _. apply bedrock_getValColumnPL_body_cases.
    + intro t. cbn [Nat.add].
      apply bedrock_getValColumnPL_body_overrun;
        [assumption | lia | assumption | lia |].
      fold levels. fold n. lra.
Qed.

Lemma bedrock_scenario_grid_ok : bedrock_grid_ok bedrock_scenario_grid.
Proof.
  unfold bedrock_grid_ok, bedrock_scenario_grid.
  cbn [zblevels Mbz Lbz length].
  split; [reflexivity|]. split; [lia|]. split; [|split; reflexivity].
  intros k Hk. simpl in Hk. destruct k as [|[|k]]; try lia; reflexivity.
Qed.

Lemma bedrock_getValColumnPL_values_witness :
  IceModelVec3Bedrock.getValColumnPL bedrock_scenario_field 0 0
    [-(15); (1 # 2000000)] = Raise OutOfBounds.
Proof.
  apply (proj2 (proj2 (bedrock_getValColumnPL_values
                         bedrock_scenario_field 0%Z 0%Z
                         [-(15); (1 # 2000000)]
                         bedrock_scenario_grid_ok eq_refl
                         ltac:(intros k Hk; simpl in Hk;
                               destruct k as [|k]; [reflexivity | lia])
                         ltac:(simpl; lia)))).
  - vm_compute. discriminate.
  - vm_compute. reflexivity.
  - vm_compute. discriminate.
Defined.

(** ** [setValColumnPL] over any level array *)

Section SetValColumnPLCovering.
Variable g : IceGrid.
Variables levelsIN valsIN : list Q.
Let levels := zlevels g.
Let nlevels := length levelsIN.
Hypothesis Hgrid : levels_ok g.
Hypothesis HlevelsIN : strictly_increasing levelsIN.
Hypothesis HvalsIN : length valsIN = nlevels.
Hypothesis Hfirst : nth 0 levelsIN 0 <= nth 0 levels 0.
Hypothesis Hlast : nth (Mz g - 1) levels 0 <= nth (nlevels - 1) levelsIN 0.

Lemma covering_levels_are_two : (2 <= nlevels)%nat.
Proof using Hgrid Hfirst Hlast.
  clear HvalsIN HlevelsIN.
  destruct Hgrid as (Hlen & HMz & Hs). fold levels in Hlen, Hs.
  pose proof (strictly_increasing_lt levels Hs 0 (Mz g - 1) ltac:(lia)
                ltac:(lia)) as Hpos.
  destruct (Nat.lt_ge_cases nlevels 2) as [Hsmall|]; [|assumption].
  exfalso. replace (nlevels - 1)%nat with 0%nat in Hlast by lia. lra.
Qed.

Lemma setValColumnPL_body_covering (k : nat) (s : nat * list Q) :
  (k < Mz g)%nat -> set_invariant g levelsIN valsIN k s ->
  exists s', IceModelVec3.setValColumnPL_body g levelsIN valsIN k s = Ok s' /\
             set_invariant g levelsIN valsIN (Datatypes.S k) s'.
Proof using Hgrid HlevelsIN HvalsIN Hfirst Hlast.
  destruct s as [mcurr col]. intros Hk (Hcol & Hm & Hbelow & Hdone).
  fold levels in Hbelow, Hdone. fold nlevels in Hm.
  pose proof covering_levels_are_two as Hn.
  destruct Hgrid as (Hlen & HMz & Hs). fold levels in Hlen, Hs.
  unfold IceModelVec3.setValColumnPL_body. fold levels.
  rewrite (read_nth levels k 0) by lia. cbn [bind].
  set (z := nth k levels 0).
  assert (Hz0 : nth 0 levelsIN 0 <= z).
  { pose proof (strictly_increasing_le levels Hs 0 k ltac:(lia) ltac:(lia)).
    subst z. lra. }
  assert (Hztop : z <= nth (nlevels - 1) levelsIN 0).
  { pose proof (strictly_increasing_le levels Hs k (Mz g - 1) ltac:(lia)
                  ltac:(lia)).
    subst z. lra. }
  destruct (bracket_scan_spec levelsIN z nlevels mcurr (nlevels - 1))
    as (m & Hscan & Hr & Hle & Hnew); try (fold nlevels; lia);
    try assumption.
  rewrite Hscan. cbn [bind].
  rewrite (read_nth levelsIN m 0) by (fold nlevels; lia). cbn [bind].
  rewrite (read_nth levelsIN (m + 1) 0) by (fold nlevels; lia). cbn [bind].
  rewrite (read_nth valsIN m 0) by lia. cbn [bind].
  rewrite (read_nth valsIN (m + 1) 0) by lia. cbn [bind].
  rewrite write_in by lia. cbn [bind].
  replace (Datatypes.S m) with (m + 1)%nat in Hle by lia.
  assert (Hbr : lower_bracket levelsIN z m).
  { split; [fold nlevels; lia|]. split; [assumption|].
    intros q Hq. destruct (Nat.le_gt_cases q mcurr).
    - apply (Hbelow q k); lia.
    - apply Hnew. lia. }
  eexists. split; [reflexivity|].
  unfold set_invariant. fold levels. fold nlevels. rewrite length_update.
  split; [assumption|]. split; [lia|]. split.
  - intros q r Hq Hr'. destruct Hbr as (_ & _ & Hb).
    apply Qlt_trans with z; [apply Hb; lia|].
    apply strictly_increasing_lt; auto; lia.
  - intros q Hq. destruct (Nat.eq_dec q k) as [->|Hne].
    + rewrite nth_update_eq by lia. fold z.
      exists m. split; [assumption|]. split; [|reflexivity].
      destruct (Nat.eq_dec m 0) as [->|Hm0]; [lra|].
      apply Qlt_le_weak. destruct Hbr as (_ & _ & Hb). apply Hb. lia.
    + rewrite nth_update_ne by lia. apply Hdone. lia.
Qed.

Lemma setValColumnPL_loop_covering (col : list Q) :
  length col = Mz g ->
  exists s',
    for_loop_st (IceModelVec3.setValColumnPL_body g levelsIN valsIN)
                0 (Mz g) (0%nat, col) = (Ok tt, s') /\
    set_invariant g levelsIN valsIN (Mz g) s'.
Proof using Hgrid HlevelsIN HvalsIN Hfirst Hlast.
  intro Hcol.
  pose proof covering_levels_are_two as Hn.
  destruct (for_loop_st_inv (set_invariant g levelsIN valsIN)
              (IceModelVec3.setValColumnPL_body g levelsIN valsIN)
              (Mz g) 0%nat (0%nat, col)) as [s' [Hloop Hinv]].
  - split; [assumption|]. split; [fold nlevels; lia|]. split; intros; lia.
  - intros k t Hk Ht. apply setValColumnPL_body_covering; [lia | assumption].
  - exists s'. split; assumption.
Qed.

End SetValColumnPLCovering.

(** X22. The bedrock [setValColumnPL]: a column whose first level lies above
    [-Lbz + 1e-3] or whose last level lies below [-1e-3] is rejected with
    the field as it was; a column that covers [-Lbz .. 0] sets every
    bedrock level to the linear interpolant of the input bracket around it;
    and a column that passes the checks but ends below [0] sends the scan
    for the top level past the end of [levelsIN]. *)
Theorem bedrock_setValColumnPL_column
        (v : IceModelVec3Bedrock.t) (i j : Z) (levelsIN valsIN : list Q) :
  let g := IceModelVec3Bedrock.grid v in
  let n := length levelsIN in
  bedrock_grid_ok g -> length (IceModelVec3Bedrock.array v i j) = Mbz g ->
  strictly_increasing levelsIN -> (0 < n)%nat -> length valsIN = n ->
  (- Lbz g + (1 # 1000) < nth 0 levelsIN 0 \/
   nth (n - 1) levelsIN 0 < - (1 # 1000) ->
   exists code,
     IceModelVec3Bedrock.setValColumnPL v i j levelsIN valsIN =
       (Raise (PetscError code), v)) /\
  (nth 0 levelsIN 0 <= - Lbz g -> 0 <= nth (n - 1) levelsIN 0 ->
   exists v',
     IceModelVec3Bedrock.setValColumnPL v i j levelsIN valsIN =
       (Ok tt, v') /\
     length (IceModelVec3Bedrock.array v' i j) = Mbz g /\
     forall k, (k < Mbz g)%nat ->
               set_value levelsIN valsIN (nth k (zblevels g) 0)
                         (nth k (IceModelVec3Bedrock.array v' i j) 0)) /\
  (nth 0 levelsIN 0 <= - Lbz g + (1 # 1000) ->
   - (1 # 1000) <= nth (n - 1) levelsIN 0 -> nth (n - 1) levelsIN 0 < 0 ->
   fst (IceModelVec3Bedrock.setValColumnPL v i j levelsIN valsIN) =
     Raise OutOfBounds).
Proof.
  intros g n Hgrid Hcol Hs Hn Hvals.
  pose proof (bedrock_levels_ok g Hgrid) as Hlev.
  destruct Hgrid as (Hlen & HMz & Hsl & Hbase & Htop).
  assert (Hchecks : nth 0 levelsIN 0 <= - Lbz g + (1 # 1000) ->
                    - (1 # 1000) <= nth (n - 1) levelsIN 0 ->
                    IceModelVec3Bedrock.setValColumnPL_checks g levelsIN =
                      Ok tt).
  { intros H0 H1. unfold IceModelVec3Bedrock.setValColumnPL_checks.
    rewrite (read_nth levelsIN 0 0) by lia. cbn [bind].
    case_Qltb (- Lbz g + (1 # 1000)) (nth 0 levelsIN 0) E1; [lra|].
    cbn [bind].
    rewrite (read_nth levelsIN (length levelsIN - 1) 0) by lia. cbn [bind].
    case_Qltb (nth (length levelsIN - 1) levelsIN 0) (0 - (1 # 1000)) E2;
      [fold n in E2; lra|].
    cbn [bind]. now apply check_levelsIN_ok. }
  unfold IceModelVec3Bedrock.setValColumnPL. fold g.
  change (IceModelVec3Bedrock.setValColumnPL_body g levelsIN valsIN)
    with (IceModelVec3.setValColumnPL_body (as_ice g) levelsIN valsIN).
  change (Mbz g) with (Mz (as_ice g)).
  split; [|split].
  - intro Hbad.
    unfold IceModelVec3Bedrock.setValColumnPL_checks.
    rewrite (read_nth levelsIN 0 0) by lia. cbn [bind].
    case_Qltb (- Lbz g + (1 # 1000)) (nth 0 levelsIN 0) E1;
      [cbn [bind]; eauto|].
    cbn [bind].
    rewrite (read_nth levelsIN (length levelsIN - 1) 0) by lia. cbn [bind].
    case_Qltb (nth (length levelsIN - 1) levelsIN 0) (0 - (1 # 1000)) E2;
      [cbn [bind]; eauto|].
    exfalso. fold n in E2. destruct Hbad; lra.
  - intros Hfirst Hlast.
    rewrite Hchecks by lra.
    destruct (setValColumnPL_loop_covering (as_ice g) levelsIN valsIN
                Hlev Hs Hvals) with (col := IceModelVec3Bedrock.array v i j)
      as ([mcurr col'] & Hloop & Hlen' & _ & _ & Hdone).
    + change (zlevels (as_ice g)) with (zblevels g). lra.
    + change (zlevels (as_ice g)) with (zblevels g).
      change (Mz (as_ice g)) with (Mbz g). fold n. lra.
    + exact Hcol.
    + rewrite Hloop. eexists. split; [reflexivity|].
      cbn [IceModelVec3Bedrock.array]. rewrite set_column_of_same.
      split; [exact Hlen'|]. exact Hdone.
  - intros Hfirst Hlast Hgap.
    rewrite Hchecks by assumption.
    pose proof (setValColumnPL_loop_overrun (as_ice g) levelsIN valsIN
                  (0%nat, IceModelVec3Bedrock.array v i j) Hlen
                  ltac:(change (Mz (as_ice g)) with (Mbz g); lia) Hs) as Hloop.
    destruct (for_loop_st _ _ _ _) as [r [m col']].
    apply Hloop.
    change (zlevels (as_ice g)) with (zblevels g).
    change (Mz (as_ice g)) with (Mbz g). fold n. lra.
Qed.

Lemma bedrock_setValColumnPL_column_witness :
  exists v',
    IceModelVec3Bedrock.setValColumnPL bedrock_scenario_field 0 0
      [-(30); 0] [6; 0] = (Ok tt, v') /\
    length (IceModelVec3Bedrock.array v' 0%Z 0%Z) = 3%nat /\
    forall k, (k < 3)%nat ->
              set_value [-(30); 0] [6; 0] (nth k [-(20); -(10); 0] 0)
                        (nth k (IceModelVec3Bedrock.array v' 0%Z 0%Z) 0).
Proof.
  apply (proj1 (proj2 (bedrock_setValColumnPL_column
                         bedrock_scenario_field 0%Z 0%Z [-(30); 0] [6; 0]
                         bedrock_scenario_grid_ok eq_refl
                         ltac:(intros k Hk; simpl in Hk;
                               destruct k as [|k]; [reflexivity | lia])
                         ltac:(simpl; lia) eq_refl))).
  - vm_compute. discriminate.
  - vm_compute. discriminate.
Defined.
